(** * tarodb: the address book and the address event store

    A shallow embedding of [tarodb/addrs.go] (the [TaroAddressBook]) over an
    explicit relational store, together with the properties of the address
    store and of the event life cycle that the specification states, and
    with further properties of the address book, of the codec of a public
    key ([address]) and of the macaroon root key store.

    Layout:
    - machine integers, byte strings, time stamps, errors;
    - the external packages (btcec, schnorr, wire, chainhash) as an interface;
    - the in-memory structures of the [address] package used by the book;
    - the relational store behind the [AddrBook] interface;
    - the functions of [tarodb/addrs.go];
    - the notions the properties are stated with;
    - the codec of a compressed public key, a helper of the tests, the
      macaroon root key store;
    - a small instance of the external packages to run the book on;
    - the properties, and the properties on the example. *)

From Stdlib Require Import ZArith List Bool String Lia Sorted.
From Stdlib Require Import Strings.Byte.
Import ListNotations.
Open Scope Z_scope.

Set Implicit Arguments.

(** ** Machine integers

    Go's integer conversions wrap around; a [w]-bit integer is a [Z] and the
    conversion is written out. *)

Definition wrapU (w z : Z) : Z := z mod 2 ^ w.
Definition wrapS (w z : Z) : Z := (z + 2 ^ (w - 1)) mod 2 ^ w - 2 ^ (w - 1).

Definition uint8 := wrapU 8.
Definition uint32 := wrapU 32.
Definition uint64 := wrapU 64.
Definition int16 := wrapS 16.
Definition int32 := wrapS 32.
Definition int64 := wrapS 64.

Definition MaxInt64 : Z := 2 ^ 63 - 1.

(** ** Byte strings

    A Go [[]byte] that the code only reads is a list of bytes; where the code
    tests a slice against [nil] (a NULL column) it is an [option bytes]. *)

Definition bytes := list byte.

Fixpoint bytes_eqb (a b : bytes) : bool :=
  match a, b with
  | [], [] => true
  | x :: a', y :: b' => Byte.eqb x y && bytes_eqb a' b'
  | _, _ => false
  end.

Definition len (b : bytes) : Z := Z.of_nat (List.length b).

(** A byte string made of zero bytes only; the empty one is. *)
Definition all_zero (k : bytes) : bool := forallb (Byte.eqb x00) k.

(** [len] of a slice that may be nil: a nil slice has length 0. *)
Definition len_slice (b : option bytes) : Z :=
  match b with
  | None => 0
  | Some x => len x
  end.

(** SQL's [COALESCE(new, old)]. *)
Definition coalesce {A : Type} (new old : option A) : option A :=
  match new with
  | Some _ => new
  | None => old
  end.

(** ** Time stamps

    A [time.Time] is kept as the instant it denotes: seconds since the Unix
    epoch and nanoseconds within the second.  Location and the monotonic
    reading are not kept; that is what the tests compare through [Unix()]. *)

Record Time := mkTime { unixSec : Z; nanos : Z }.

(** The zero [time.Time] is January 1, year 1, 00:00:00 UTC. *)
Definition zeroTime : Time := mkTime (-62135596800) 0.

Definition IsZero (t : Time) : bool :=
  (unixSec t =? -62135596800) && (nanos t =? 0).

Definition Unix (t : Time) : Z := unixSec t.

(** [time.Unix(sec, nsec)], with [nsec] brought into [0, 1e9). *)
Definition time_Unix (sec nsec : Z) : Time :=
  mkTime (sec + nsec / 1000000000) (nsec mod 1000000000).

Definition time_leb (a b : Time) : bool :=
  (unixSec a <? unixSec b) || ((unixSec a =? unixSec b) && (nanos a <=? nanos b)).

(** ** Errors and results *)

Inductive error : Type :=
| sql_ErrNoRows                      (* database/sql: no rows in result set *)
| address_ErrNoAddr                  (* address.ErrNoAddr *)
| ConstraintError (what : string)    (* a constraint of the schema failed *)
| DecodeError (what : string)        (* key, hash or outpoint does not parse *)
| ExternalError (what : string)      (* an error of another package *)
| Errorf (msg : string) (e : error). (* fmt.Errorf("msg: %w", e) *)

Fixpoint error_eqb (a b : error) : bool :=
  match a, b with
  | sql_ErrNoRows, sql_ErrNoRows => true
  | address_ErrNoAddr, address_ErrNoAddr => true
  | ConstraintError x, ConstraintError y => String.eqb x y
  | DecodeError x, DecodeError y => String.eqb x y
  | ExternalError x, ExternalError y => String.eqb x y
  | Errorf m e, Errorf m' e' => String.eqb m m' && error_eqb e e'
  | _, _ => false
  end.

(** [errors.Is]: the target is the error or is wrapped in it. *)
Fixpoint errors_Is (e target : error) : bool :=
  error_eqb e target ||
  match e with
  | Errorf _ e' => errors_Is e' target
  | _ => false
  end.

(** The error at the bottom of a chain of wrappings. *)
Fixpoint root_cause (e : error) : error :=
  match e with
  | Errorf _ e' => root_cause e'
  | _ => e
  end.

Definition is_constraint_error (e : error) : bool :=
  match root_cause e with
  | ConstraintError _ => true
  | _ => false
  end.

(** What a call does: it returns a value, returns an error, or panics. *)
Inductive result (A : Type) : Type :=
| Ok (a : A)
| Err (e : error)
| Panic (msg : string).

Arguments Ok {A} a.
Arguments Err {A} e.
Arguments Panic {A} msg.

Definition is_Ok {A : Type} (r : result A) : bool :=
  match r with
  | Ok _ => true
  | _ => false
  end.

(** Turns the [option] of a parser into a result. *)
Definition orDecodeError {A : Type} (what : string) (o : option A) : result A :=
  match o with
  | Some a => Ok a
  | None => Err (DecodeError what)
  end.

(** ** Tables

    Every table has an [INTEGER PRIMARY KEY]; no operation of the address
    book deletes a row, so a table is the list of its rows in insertion order
    and the row at position [i] (counting from 0) has the id [i + 1]. *)

Section Tables.

Context {A : Type}.

Definition row_at (rows : list A) (id : nat) : option A :=
  match id with
  | O => None
  | S i => nth_error rows i
  end.

(** The id of the first row that satisfies [p]. *)
Fixpoint find_id (p : A -> bool) (rows : list A) : option nat :=
  match rows with
  | [] => None
  | r :: rs => if p r then Some 1%nat else option_map S (find_id p rs)
  end.

Fixpoint set_nth (rows : list A) (i : nat) (r : A) : list A :=
  match rows, i with
  | [], _ => []
  | _ :: rs, O => r :: rs
  | x :: rs, S j => x :: set_nth rs j r
  end.

Definition set_row (rows : list A) (id : nat) (r : A) : list A :=
  match id with
  | O => rows
  | S i => set_nth rows i r
  end.

Definition next_id (rows : list A) : nat := S (List.length rows).

(** [INSERT ... ON CONFLICT (key) DO UPDATE ... RETURNING id]: the first row
    that conflicts with the new one is rewritten by [merge]; without a
    conflict the new row is appended. *)
Definition upsert (conflict : A -> bool) (merge : A -> A) (new : A)
  (rows : list A) : nat * list A :=
  match find_id conflict rows with
  | Some id =>
      match row_at rows id with
      | Some old => (id, set_row rows id (merge old))
      | None => (id, rows)
      end
  | None => (next_id rows, rows ++ [new])
  end.

(** The rows paired with their ids, in id order. *)
Fixpoint with_ids_from (n : nat) (rows : list A) : list (nat * A) :=
  match rows with
  | [] => []
  | r :: rs => (n, r) :: with_ids_from (S n) rs
  end.

Definition with_ids (rows : list A) : list (nat * A) := with_ids_from 1 rows.

End Tables.

(** ** The external packages

    Public keys, their two encodings, transactions and hashes belong to
    btcec, schnorr, wire and chainhash; the address book only calls them. *)

Class External : Type := {
  (* btcec *)
  PublicKey : Type;
  SerializeCompressed : PublicKey -> bytes;
  ParsePubKey : bytes -> option PublicKey;
  (* btcec/schnorr: the 32-byte x-only encoding *)
  schnorr_SerializePubKey : PublicKey -> bytes;
  schnorr_ParsePubKey : bytes -> option PublicKey;
  (* wire *)
  MsgTx : Type;
  TxHash : MsgTx -> bytes;
  Serialize : MsgTx -> option bytes;
  (* chainhash.NewHashFromStr *)
  chainhash_NewHashFromStr : string -> option bytes;
  (* address.ChainParams *)
  ChainParams : Type
}.

(** [chainhash.NewHash]: a hash has [chainhash.HashSize] = 32 bytes. *)
Definition chainhash_NewHash (b : bytes) : option bytes :=
  if len b =? 32 then Some b else None.

Section AddressBook.

Context {ext : External}.

(** ** The in-memory structures ([wire], [keychain], [asset], [address],
    [lndclient]) *)

Record OutPoint := mkOutPoint { op_Hash : bytes; op_Index : Z }.

(** [keychain.KeyDescriptor]: a key locator (family, index) and a key. *)
Record KeyDescriptor := mkKeyDescriptor {
  kd_Family : Z;          (* uint32 *)
  kd_Index : Z;           (* uint32 *)
  kd_PubKey : PublicKey
}.

Record TweakedScriptKey := mkTweakedScriptKey {
  tsk_RawKey : KeyDescriptor;
  tsk_Tweak : bytes
}.

(** [asset.Genesis], embedded in [address.Taro]: the code reads
    [FirstPrevOut] and [Type] and passes the whole structure on. *)
Record Genesis := mkGenesis {
  FirstPrevOut : OutPoint;
  Tag : string;
  Metadata : bytes;
  OutputIndex : Z;
  AssetType : Z            (* asset.Type, uint8 *)
}.

Record Taro := mkTaro {
  Version : Z;             (* asset.Version, uint8 *)
  Taro_Genesis : Genesis;
  FamilyKey : option PublicKey;
  ScriptKey : PublicKey;
  InternalKey : PublicKey;
  Amount : Z;              (* uint64 *)
  Taro_ChainParams : ChainParams
}.

Record AddrWithKeyInfo := mkAddrWithKeyInfo {
  addr_Taro : Taro;
  ScriptKeyTweak : TweakedScriptKey;
  InternalKeyDesc : KeyDescriptor;
  TaprootOutputKey : PublicKey;
  CreationTime : Time;
  ManagedAfter : Time
}.

(** [address.QueryParams]. *)
Record QueryParams := mkQueryParams {
  qp_CreatedAfter : Time;
  qp_CreatedBefore : Time;
  qp_Offset : Z;           (* int32 *)
  qp_Limit : Z;            (* int32 *)
  qp_UnmanagedOnly : bool
}.

(** [address.EventQueryParams]: the key filter is a slice (nil, empty or
    not), the two status bounds are pointers. *)
Record EventQueryParams := mkEventQueryParams {
  eq_AddrTaprootOutputKey : option bytes;
  eq_StatusFrom : option Z;
  eq_StatusTo : option Z
}.

(** [address.Event]. *)
Record Event := mkEvent {
  ev_ID : nat;
  ev_CreationTime : Time;
  ev_Addr : AddrWithKeyInfo;
  ev_Status : Z;
  ev_Outpoint : OutPoint;
  ev_Amt : Z;
  ev_InternalKey : PublicKey;
  ev_TapscriptSibling : option bytes;
  ev_ConfirmationHeight : Z;   (* uint32 *)
  ev_HasProof : bool
}.

(** [lnrpc.OutputDetail] and [lndclient.Transaction], the fields read. *)
Record OutputDetail := mkOutputDetail { od_Amount : Z; od_IsOurAddress : bool }.

Record Transaction := mkTransaction {
  tx_Tx : MsgTx;
  tx_Confirmations : Z;    (* int32 *)
  tx_BlockHash : string;
  tx_BlockHeight : Z;      (* int32 *)
  tx_OutputDetails : list OutputDetail
}.

(** What the address book calls in the other packages of the repository:
    the status codes of [address], the commitment of an address, the
    tapscript root of a commitment, the encoding of an outpoint. *)
Class TaroPackages : Type := {
  StatusTransactionDetected : Z;
  StatusTransactionConfirmed : Z;
  StatusCompleted : Z;
  Commitment : Type;
  TaroCommitment : AddrWithKeyInfo -> option Commitment;
  TapscriptRoot : Commitment -> option bytes -> bytes;
  encodeOutpoint : OutPoint -> option bytes
}.

Context {pkgs : TaroPackages}.

(** ** The relational store *)

(** [internal_keys]: a raw public key and its key locator. *)
Record InternalKey_row := mkInternalKey {
  raw_key : bytes;
  key_family : Z;
  key_index : Z
}.

(** [script_keys]: a tweaked key over an internal key. *)
Record ScriptKey_row := mkScriptKey {
  sk_internal_key_id : nat;
  tweaked_script_key : bytes;
  sk_tweak : bytes
}.

(** [genesis_assets]: a genesis and the genesis point it hangs on. *)
Record Genesis_row := mkGenesisRow {
  gen_point_id : nat;
  gen_genesis : Genesis
}.

(** [addrs], column by column as in the schema. *)
Record Addr_row := mkAddrRow {
  version : Z;
  genesis_asset_id : nat;
  fam_key : option bytes;
  script_key_id : nat;
  taproot_key_id : nat;
  taproot_output_key : bytes;
  amount : Z;
  asset_type : Z;
  creation_time : Time;
  managed_from : option Time
}.

(** [chain_txns]: a raw transaction and, once confirmed, its block. *)
Record ChainTx_row := mkChainTx {
  txid : bytes;
  raw_tx : bytes;
  block_height : option Z;
  block_hash : option bytes;
  tx_index : option Z
}.

(** [managed_utxos]. *)
Record ManagedUTXO_row := mkManagedUTXO {
  utxo_outpoint : bytes;
  amt_sats : Z;
  utxo_internal_key_id : nat;
  tapscript_sibling : option bytes;
  taro_root : bytes;
  utxo_txn_id : nat
}.

(** [addr_events]. *)
Record AddrEvent_row := mkAddrEventRow {
  ae_creation_time : Time;
  ae_addr_id : nat;
  ae_status : Z;
  ae_chain_txn_id : nat;
  ae_output_index : Z;
  ae_managed_utxo_id : nat;
  ae_asset_proof_id : option Z;
  ae_asset_id : option Z
}.

(** The asset proofs of the asset store, by script key. *)
Record AssetProof_row := mkAssetProof {
  ap_script_key : bytes;
  ap_proof_id : Z;
  ap_asset_id : Z
}.

Record Store := mkStore {
  internal_keys : list InternalKey_row;
  script_keys : list ScriptKey_row;
  genesis_points : list OutPoint;
  genesis_assets : list Genesis_row;
  addrs : list Addr_row;
  chain_txns : list ChainTx_row;
  managed_utxos : list ManagedUTXO_row;
  addr_events : list AddrEvent_row;
  asset_proofs : list AssetProof_row
}.

Definition empty_store : Store := mkStore [] [] [] [] [] [] [] [] [].

Definition set_internal_keys (s : Store) (x : list InternalKey_row) : Store :=
  mkStore x (script_keys s) (genesis_points s) (genesis_assets s) (addrs s)
    (chain_txns s) (managed_utxos s) (addr_events s) (asset_proofs s).

Definition set_script_keys (s : Store) (x : list ScriptKey_row) : Store :=
  mkStore (internal_keys s) x (genesis_points s) (genesis_assets s) (addrs s)
    (chain_txns s) (managed_utxos s) (addr_events s) (asset_proofs s).

Definition set_genesis_points (s : Store) (x : list OutPoint) : Store :=
  mkStore (internal_keys s) (script_keys s) x (genesis_assets s) (addrs s)
    (chain_txns s) (managed_utxos s) (addr_events s) (asset_proofs s).

Definition set_genesis_assets (s : Store) (x : list Genesis_row) : Store :=
  mkStore (internal_keys s) (script_keys s) (genesis_points s) x (addrs s)
    (chain_txns s) (managed_utxos s) (addr_events s) (asset_proofs s).

Definition set_addrs (s : Store) (x : list Addr_row) : Store :=
  mkStore (internal_keys s) (script_keys s) (genesis_points s)
    (genesis_assets s) x (chain_txns s) (managed_utxos s) (addr_events s)
    (asset_proofs s).

Definition set_chain_txns (s : Store) (x : list ChainTx_row) : Store :=
  mkStore (internal_keys s) (script_keys s) (genesis_points s)
    (genesis_assets s) (addrs s) x (managed_utxos s) (addr_events s)
    (asset_proofs s).

Definition set_managed_utxos (s : Store) (x : list ManagedUTXO_row) : Store :=
  mkStore (internal_keys s) (script_keys s) (genesis_points s)
    (genesis_assets s) (addrs s) (chain_txns s) x (addr_events s)
    (asset_proofs s).

Definition set_addr_events (s : Store) (x : list AddrEvent_row) : Store :=
  mkStore (internal_keys s) (script_keys s) (genesis_points s)
    (genesis_assets s) (addrs s) (chain_txns s) (managed_utxos s) x
    (asset_proofs s).

(** *** Transactions

    The body of a transaction runs on the store and leaves the store it has
    written so far, also when it fails. *)

Definition Tx (A : Type) : Type := Store -> result A * Store.

Definition ret {A : Type} (a : A) : Tx A := fun s => (Ok a, s).

Definition bind {A B : Type} (m : Tx A) (k : A -> Tx B) : Tx B :=
  fun s =>
    match m s with
    | (Ok a, s') => k a s'
    | (Err e, s') => (Err e, s')
    | (Panic p, s') => (Panic p, s')
    end.

Notation "x <- m ;; k" := (bind m (fun x => k))
  (at level 100, m at next level, right associativity).

(** A result that does not touch the store. *)
Definition lift {A : Type} (r : result A) : Tx A := fun s => (r, s).

(** A read of the store. *)
Definition query {A : Type} (f : Store -> result A) : Tx A :=
  fun s => (f s, s).

(** [if err != nil { return fmt.Errorf("msg: %w", err) }]. *)
Definition wrapf {A : Type} (msg : string) (m : Tx A) : Tx A :=
  fun s =>
    match m s with
    | (Err e, s') => (Err (Errorf msg e), s')
    | other => other
    end.

(** Modelled from the spec: the transaction executor ([ExecTx] of
    [BatchedTx]) is not part of these sources.  It runs the body inside one
    transaction, commits when the body succeeds and rolls back when the body
    fails; a panic unwinds through it and the open transaction is rolled
    back as well. *)
Definition ExecTx {A : Type} (readOnly : bool) (body : Tx A) (s : Store)
  : result A * Store :=
  match body s with
  | (Ok a, s') => (Ok a, s')
  | (Err e, _) => (Err e, s)
  | (Panic p, _) => (Panic p, s)
  end.

(** *** The queries of the [AddrBook] interface

    The SQL behind the interface is not part of these sources; each query is
    modelled from the specification and from the schema of [addrs]. *)

(** The arguments of [InsertAddr] ([sqlite.InsertAddrParams]). *)
Record NewAddr := mkNewAddr {
  na_Version : Z;
  na_GenesisAssetID : nat;
  na_FamKey : option bytes;
  na_ScriptKeyID : nat;
  na_TaprootKeyID : nat;
  na_TaprootOutputKey : bytes;
  na_Amount : Z;
  na_AssetType : Z;
  na_CreationTime : Time
}.

(** An address row joined with its script key and its two internal keys
    ([sqlite.FetchAddrsRow], [sqlite.FetchAddrByTaprootOutputKeyRow]). *)
Record Addresses := mkAddresses {
  r_Version : Z;
  r_GenesisAssetID : nat;
  r_FamKey : option bytes;
  r_TweakedScriptKey : bytes;
  r_ScriptKeyTweak : bytes;
  r_RawScriptKey : bytes;
  r_ScriptKeyFamily : Z;
  r_ScriptKeyIndex : Z;
  r_RawTaprootKey : bytes;
  r_TaprootKeyFamily : Z;
  r_TaprootKeyIndex : Z;
  r_TaprootOutputKey : bytes;
  r_Amount : Z;
  r_CreationTime : Time;
  r_ManagedFrom : option Time
}.

(** The arguments of [FetchAddrs] ([sqlite.FetchAddrsParams]). *)
Record AddrQuery := mkAddrQuery {
  aq_CreatedAfter : Time;
  aq_CreatedBefore : Time;
  aq_NumOffset : Z;
  aq_NumLimit : Z;
  aq_UnmanagedOnly : bool
}.

(** The arguments of [UpsertManagedUTXO] ([RawManagedUTXO]). *)
Record RawManagedUTXO := mkRawManagedUTXO {
  mu_RawKey : bytes;
  mu_Outpoint : bytes;
  mu_AmtSats : Z;
  mu_TapscriptSibling : option bytes;
  mu_TaroRoot : bytes;
  mu_TxnID : nat
}.

(** The arguments of [UpsertAddrEvent] ([sqlite.UpsertAddrEventParams]). *)
Record UpsertAddrEventParams := mkUpsertAddrEvent {
  ue_TaprootOutputKey : bytes;
  ue_CreationTime : Time;
  ue_Status : Z;
  ue_Txid : bytes;
  ue_ChainTxnOutputIndex : Z;
  ue_ManagedUtxoID : nat;
  ue_AssetProofID : option Z;
  ue_AssetID : option Z
}.

(** An event row joined with its chain transaction, its managed UTXO and the
    internal key of that UTXO ([sqlite.FetchAddrEventRow]). *)
Record AddrEvent := mkAddrEvent {
  e_CreationTime : Time;
  e_Status : Z;
  e_Txid : bytes;
  e_ConfirmationHeight : option Z;
  e_OutputIndex : Z;
  e_AmtSats : option Z;
  e_TapscriptSibling : option bytes;
  e_InternalKey : bytes;
  e_AssetProofID : option Z
}.

(** The arguments of [QueryEventIDs] ([sqlite.QueryEventIDsParams]). *)
Record AddrEventQuery := mkAddrEventQuery {
  q_StatusFrom : Z;
  q_StatusTo : Z;
  q_AddrTaprootKey : option bytes
}.

(** [sqlite.QueryEventIDsRow]. *)
Record AddrEventID := mkAddrEventID {
  id_EventID : nat;
  id_TaprootOutputKey : bytes
}.

(** [AssetProofI], the two identifiers read. *)
Record AssetProofI := mkAssetProofI { pi_ProofID : Z; pi_AssetID : Z }.

Definition outpoint_eqb (a b : OutPoint) : bool :=
  bytes_eqb (op_Hash a) (op_Hash b) && (op_Index a =? op_Index b).

Definition genesis_eqb (a b : Genesis) : bool :=
  outpoint_eqb (FirstPrevOut a) (FirstPrevOut b) &&
  String.eqb (Tag a) (Tag b) &&
  bytes_eqb (Metadata a) (Metadata b) &&
  (OutputIndex a =? OutputIndex b) &&
  (AssetType a =? AssetType b).

(** Modelled from the spec: [upsertGenesisPoint] of the asset store is not
    part of these sources.  It resolves or creates the genesis point record
    of an outpoint. *)
Definition upsertGenesisPoint (prevOut : OutPoint) : Tx nat :=
  fun s =>
    let (id, rows) :=
      upsert (outpoint_eqb prevOut) (fun old => old) prevOut (genesis_points s) in
    (Ok id, set_genesis_points s rows).

(** Modelled from the spec: [upsertGenesis] of the asset store is not part
    of these sources.  It resolves or creates the genesis asset record; the
    record is identified by the asset id, which is derived from the genesis
    alone, so two records conflict when their geneses are equal. *)
Definition upsertGenesis (genesisPointID : nat) (g : Genesis) : Tx nat :=
  fun s =>
    let (id, rows) :=
      upsert (fun r => genesis_eqb (gen_genesis r) g) (fun old => old)
        (mkGenesisRow genesisPointID g) (genesis_assets s) in
    (Ok id, set_genesis_assets s rows).

(** Modelled from the spec: [fetchGenesis] of the asset store is not part of
    these sources.  It fetches the genesis asset record by id. *)
Definition fetchGenesis (id : nat) (s : Store) : result Genesis :=
  match row_at (genesis_assets s) id with
  | Some r => Ok (gen_genesis r)
  | None => Err sql_ErrNoRows
  end.

(** Modelled from the spec: [UpsertInternalKey] inserts the key when its
    serialized bytes are new; otherwise it returns the id of the existing row
    and overwrites the locator (family, index) of that row. *)
Definition UpsertInternalKey (arg : InternalKey_row) : Tx nat :=
  fun s =>
    let (id, rows) :=
      upsert (fun r => bytes_eqb (raw_key r) (raw_key arg)) (fun _ => arg) arg
        (internal_keys s) in
    (Ok id, set_internal_keys s rows).

(** Modelled from the spec: [UpsertScriptKey] has the same insert-or-update
    behaviour, keyed by the bytes of the tweaked key. *)
Definition UpsertScriptKey (arg : ScriptKey_row) : Tx nat :=
  fun s =>
    let (id, rows) :=
      upsert (fun r => bytes_eqb (tweaked_script_key r) (tweaked_script_key arg))
        (fun _ => arg) arg (script_keys s) in
    (Ok id, set_script_keys s rows).

Definition is_some {A : Type} (o : option A) : bool :=
  match o with
  | Some _ => true
  | None => false
  end.

(** Modelled from the spec, with the constraints of the [addrs] table as the
    schema declares them: [taproot_output_key] is UNIQUE and has 32 bytes,
    and the genesis, script key and internal key ids REFERENCE a row. *)
Definition InsertAddr (arg : NewAddr) : Tx nat :=
  fun s =>
    if negb (len (na_TaprootOutputKey arg) =? 32) then
      (Err (ConstraintError "CHECK constraint failed: length(taproot_output_key) = 32"), s)
    else if is_some (find_id (fun r => bytes_eqb (taproot_output_key r)
                                         (na_TaprootOutputKey arg)) (addrs s)) then
      (Err (ConstraintError "UNIQUE constraint failed: addrs.taproot_output_key"), s)
    else if negb (is_some (row_at (genesis_assets s) (na_GenesisAssetID arg)) &&
                  is_some (row_at (script_keys s) (na_ScriptKeyID arg)) &&
                  is_some (row_at (internal_keys s) (na_TaprootKeyID arg))) then
      (Err (ConstraintError "FOREIGN KEY constraint failed"), s)
    else
      (Ok (next_id (addrs s)),
       set_addrs s (addrs s ++ [mkAddrRow (na_Version arg) (na_GenesisAssetID arg)
                                  (na_FamKey arg) (na_ScriptKeyID arg)
                                  (na_TaprootKeyID arg) (na_TaprootOutputKey arg)
                                  (na_Amount arg) (na_AssetType arg)
                                  (na_CreationTime arg) None])).

(** The join of an address row with its script key, the internal key under
    the script key and the taproot internal key. *)
Definition join_addr (s : Store) (a : Addr_row) : option Addresses :=
  match row_at (script_keys s) (script_key_id a) with
  | None => None
  | Some sk =>
      match row_at (internal_keys s) (sk_internal_key_id sk),
            row_at (internal_keys s) (taproot_key_id a) with
      | Some rk, Some tk =>
          Some (mkAddresses (version a) (genesis_asset_id a) (fam_key a)
                  (tweaked_script_key sk) (sk_tweak sk)
                  (raw_key rk) (key_family rk) (key_index rk)
                  (raw_key tk) (key_family tk) (key_index tk)
                  (taproot_output_key a) (amount a) (creation_time a)
                  (managed_from a))
      | _, _ => None
      end
  end.

(** Modelled from the spec: [FetchAddrByTaprootOutputKey] returns the address
    with the given taproot output key, or [sql.ErrNoRows]. *)
Definition FetchAddrByTaprootOutputKey (key : bytes) (s : Store)
  : result Addresses :=
  match find (fun a => bytes_eqb (taproot_output_key a) key) (addrs s) with
  | None => Err sql_ErrNoRows
  | Some a =>
      match join_addr s a with
      | Some r => Ok r
      | None => Err sql_ErrNoRows
      end
  end.

(** [LIMIT n]: a negative limit does not limit. *)
Definition sql_limit {A : Type} (n : Z) (l : list A) : list A :=
  if n <? 0 then l else firstn (Z.to_nat n) l.

Definition sql_offset {A : Type} (n : Z) (l : list A) : list A :=
  skipn (Z.to_nat n) l.

Fixpoint filter_map {A B : Type} (f : A -> option B) (l : list A) : list B :=
  match l with
  | [] => []
  | x :: xs =>
      match f x with
      | Some y => y :: filter_map f xs
      | None => filter_map f xs
      end
  end.

(** The row filter of [FetchAddrs]: created within the two bounds and, when
    only unmanaged addresses are asked for, without a managed-from time. *)
Definition addr_matches (q : AddrQuery) (a : Addr_row) : bool :=
  time_leb (aq_CreatedAfter q) (creation_time a) &&
  time_leb (creation_time a) (aq_CreatedBefore q) &&
  (negb (aq_UnmanagedOnly q) || negb (is_some (managed_from a))).

(** Modelled from the spec: [FetchAddrs] returns the addresses that pass the
    filter, in storage order, after the offset and up to the limit. *)
Definition FetchAddrs (q : AddrQuery) (s : Store) : result (list Addresses) :=
  Ok (sql_limit (aq_NumLimit q)
        (sql_offset (aq_NumOffset q)
           (filter_map (join_addr s) (filter (addr_matches q) (addrs s))))).

(** Modelled from the spec: [SetAddrManaged] sets the managed-from time of
    the address with the given taproot output key; setting it again
    overwrites it. *)
Definition SetAddrManaged_db (managedFrom : option Time) (key : bytes) : Tx unit :=
  fun s =>
    (Ok tt,
     set_addrs s
       (map (fun a =>
               if bytes_eqb (taproot_output_key a) key then
                 mkAddrRow (version a) (genesis_asset_id a) (fam_key a)
                   (script_key_id a) (taproot_key_id a) (taproot_output_key a)
                   (amount a) (asset_type a) (creation_time a) managedFrom
               else a)
          (addrs s))).

(** Modelled from the spec: [UpsertChainTx] inserts the transaction or
    updates the row with the same txid.  As the comment in
    [GetOrCreateEvent] says, the update only touches the nullable fields
    that are not nil in the arguments. *)
Definition merge_chain_tx (arg old : ChainTx_row) : ChainTx_row :=
  mkChainTx (txid old) (raw_tx arg)
    (coalesce (block_height arg) (block_height old))
    (coalesce (block_hash arg) (block_hash old))
    (coalesce (tx_index arg) (tx_index old)).

Definition UpsertChainTx (arg : ChainTx_row) : Tx nat :=
  fun s =>
    let (id, rows) :=
      upsert (fun r => bytes_eqb (txid r) (txid arg)) (merge_chain_tx arg) arg
        (chain_txns s) in
    (Ok id, set_chain_txns s rows).

(** Modelled from the spec: [UpsertManagedUTXO] upserts the UTXO of an
    outpoint: owning key looked up by its raw bytes, amount, tapscript
    sibling, commitment root, chain transaction.  A new sibling or root
    overwrites the stored one; a nil sibling leaves the stored one (the
    event tests re-create a confirmed event with a nil sibling and expect
    the first sibling back). *)
Definition utxo_of (arg : RawManagedUTXO) (keyID : nat) : ManagedUTXO_row :=
  mkManagedUTXO (mu_Outpoint arg) (mu_AmtSats arg) keyID
    (mu_TapscriptSibling arg) (mu_TaroRoot arg) (mu_TxnID arg).

Definition merge_utxo (arg : RawManagedUTXO) (keyID : nat)
  (old : ManagedUTXO_row) : ManagedUTXO_row :=
  mkManagedUTXO (utxo_outpoint old) (mu_AmtSats arg) keyID
    (coalesce (mu_TapscriptSibling arg) (tapscript_sibling old))
    (mu_TaroRoot arg) (mu_TxnID arg).

Definition UpsertManagedUTXO (arg : RawManagedUTXO) : Tx nat :=
  fun s =>
    match find_id (fun k => bytes_eqb (raw_key k) (mu_RawKey arg)) (internal_keys s) with
    | None =>
        (Err (ConstraintError "NOT NULL constraint failed: managed_utxos.internal_key_id"), s)
    | Some keyID =>
        let (id, rows) :=
          upsert (fun r => bytes_eqb (utxo_outpoint r) (mu_Outpoint arg))
            (merge_utxo arg keyID) (utxo_of arg keyID) (managed_utxos s) in
        (Ok id, set_managed_utxos s rows)
    end.

(** Modelled from the spec: the status column of [addr_events] is
    constrained to the valid status codes, an ordered set that starts with
    [TransactionDetected] and ends with [Completed]; any other value is
    rejected.  The codes are those of [address.Status], the ones from
    [TransactionDetected] up to [Completed]: the tests of the event queries
    create an event for every code [i mod (StatusCompleted + 1)], and the
    test of the status column has the code 4 rejected. *)
Definition valid_status (st : Z) : bool :=
  (StatusTransactionDetected <=? st) && (st <=? StatusCompleted).

(** The identity of an event row. *)
Definition event_key_eqb (addrID txnID : nat) (idx : Z) (r : AddrEvent_row) : bool :=
  Nat.eqb (ae_addr_id r) addrID && Nat.eqb (ae_chain_txn_id r) txnID &&
  (ae_output_index r =? idx).

Definition event_of (arg : UpsertAddrEventParams) (addrID txnID : nat)
  : AddrEvent_row :=
  mkAddrEventRow (ue_CreationTime arg) addrID (ue_Status arg) txnID
    (ue_ChainTxnOutputIndex arg) (ue_ManagedUtxoID arg)
    (ue_AssetProofID arg) (ue_AssetID arg).

Definition merge_event (arg : UpsertAddrEventParams) (old : AddrEvent_row)
  : AddrEvent_row :=
  mkAddrEventRow (ae_creation_time old) (ae_addr_id old) (ue_Status arg)
    (ae_chain_txn_id old) (ae_output_index old) (ae_managed_utxo_id old)
    (coalesce (ue_AssetProofID arg) (ae_asset_proof_id old))
    (coalesce (ue_AssetID arg) (ae_asset_id old)).

(** Modelled from the spec: [UpsertAddrEvent] upserts the event keyed by
    (taproot output key of the address, txid, output index).  The address
    and the chain transaction are looked up by these bytes and must exist;
    the status must be a valid code.  On a repeated call the row is updated
    in place: the status is overwritten, and the asset and proof references
    are set when the call gives them.  The row keeps its creation time and
    its managed UTXO (the UTXO of its outpoint, itself upserted in place):
    [CompleteEvent] passes neither, and the event is read through that UTXO
    afterwards. *)
Definition UpsertAddrEvent (arg : UpsertAddrEventParams) : Tx nat :=
  fun s =>
    if negb (valid_status (ue_Status arg)) then
      (Err (ConstraintError "CHECK constraint failed: status"), s)
    else
      match find_id (fun a => bytes_eqb (taproot_output_key a) (ue_TaprootOutputKey arg))
              (addrs s),
            find_id (fun t => bytes_eqb (txid t) (ue_Txid arg)) (chain_txns s) with
      | None, _ =>
          (Err (ConstraintError "NOT NULL constraint failed: addr_events.addr_id"), s)
      | _, None =>
          (Err (ConstraintError "NOT NULL constraint failed: addr_events.chain_txn_id"), s)
      | Some addrID, Some txnID =>
          let (id, rows) :=
            upsert (event_key_eqb addrID txnID (ue_ChainTxnOutputIndex arg))
              (merge_event arg) (event_of arg addrID txnID) (addr_events s) in
          (Ok id, set_addr_events s rows)
      end.

(** Modelled from the spec: [FetchAddrEvent] returns the event with the
    given id together with the txid and the block height of its chain
    transaction, and the amount, the sibling and the internal key of its
    managed UTXO; a reference that does not resolve gives NULLs. *)
Definition FetchAddrEvent (id : nat) (s : Store) : result AddrEvent :=
  match row_at (addr_events s) id with
  | None => Err sql_ErrNoRows
  | Some ev =>
      let tx := row_at (chain_txns s) (ae_chain_txn_id ev) in
      let utxo := row_at (managed_utxos s) (ae_managed_utxo_id ev) in
      let key :=
        match utxo with
        | Some u => row_at (internal_keys s) (utxo_internal_key_id u)
        | None => None
        end in
      Ok (mkAddrEvent (ae_creation_time ev) (ae_status ev)
            (match tx with Some t => txid t | None => [] end)
            (match tx with Some t => block_height t | None => None end)
            (ae_output_index ev)
            (option_map amt_sats utxo)
            (match utxo with Some u => tapscript_sibling u | None => None end)
            (match key with Some k => raw_key k | None => [] end)
            (ae_asset_proof_id ev))
  end.

(** Modelled from the spec: the row filter of [QueryEventIDs].  The status
    lies within the two bounds; a key filter that is absent or made of zero
    bytes only matches every address, any other key filter matches the
    address with that taproot output key. *)
Definition event_matches (q : AddrEventQuery) (key : bytes) (ev : AddrEvent_row) : bool :=
  (q_StatusFrom q <=? ae_status ev) && (ae_status ev <=? q_StatusTo q) &&
  match q_AddrTaprootKey q with
  | None => true
  | Some k => all_zero k || bytes_eqb key k
  end.

(** Modelled from the spec: [QueryEventIDs] returns, by ascending id, the
    ids of the events that pass the row filter, each with the taproot
    output key of its address. *)
Definition QueryEventIDs (q : AddrEventQuery) (s : Store) : result (list AddrEventID) :=
  Ok (filter_map
        (fun '(id, ev) =>
           match row_at (addrs s) (ae_addr_id ev) with
           | Some a =>
               if event_matches q (taproot_output_key a) ev
               then Some (mkAddrEventID id (taproot_output_key a))
               else None
           | None => None
           end)
        (with_ids (addr_events s))).

(** Modelled from the spec: [FetchAssetProof] fetches the asset proof by the
    bytes of a script key and fails when there is none yet. *)
Definition FetchAssetProof (scriptKey : bytes) (s : Store) : result AssetProofI :=
  match find (fun p => bytes_eqb (ap_script_key p) scriptKey) (asset_proofs s) with
  | Some p => Ok (mkAssetProofI (ap_proof_id p) (ap_asset_id p))
  | None => Err sql_ErrNoRows
  end.

(** [sqlInt32]: a valid [sql.NullInt32]. *)
Definition sqlInt32 (x : Z) : option Z := Some (int32 x).

(** ** The functions of [tarodb/addrs.go] *)

(** Sequencing of reads: each step returns a value or an error. *)
Definition rbind {A B : Type} (r : result A) (k : A -> result B) : result B :=
  match r with
  | Ok a => k a
  | Err e => Err e
  | Panic p => Panic p
  end.

Notation "x <-? r ;; k" := (rbind r (fun x => k))
  (at level 100, r at next level, right associativity).

Definition rwrapf {A : Type} (msg : string) (r : result A) : result A :=
  match r with
  | Err e => Err (Errorf msg e)
  | other => other
  end.

(** [btcec.ParsePubKey] with the error it returns. *)
Definition btcec_ParsePubKey (b : bytes) : result PublicKey :=
  orDecodeError "invalid public key" (ParsePubKey b).

Definition schnorr_ParsePubKey_r (b : bytes) : result PublicKey :=
  orDecodeError "invalid schnorr public key" (schnorr_ParsePubKey b).

(** [insertInternalKey]. *)
Definition insertInternalKey (desc : KeyDescriptor) : Tx nat :=
  UpsertInternalKey
    (mkInternalKey (SerializeCompressed (kd_PubKey desc))
       (int32 (kd_Family desc)) (int32 (kd_Index desc))).

(** One turn of the loop of [InsertAddrs]. *)
Definition insertAddr (addr : AddrWithKeyInfo) : Tx unit :=
  genesisPointID <- wrapf "unable to insert genesis point"
      (upsertGenesisPoint (FirstPrevOut (Taro_Genesis (addr_Taro addr)))) ;;
  genAssetID <- wrapf "unable to insert genesis"
      (upsertGenesis genesisPointID (Taro_Genesis (addr_Taro addr))) ;;
  rawScriptKeyID <- wrapf "unable to insert internal script key"
      (insertInternalKey (tsk_RawKey (ScriptKeyTweak addr))) ;;
  scriptKeyID <- wrapf "unable to insert script key"
      (UpsertScriptKey
         (mkScriptKey rawScriptKeyID
            (SerializeCompressed (ScriptKey (addr_Taro addr)))
            (tsk_Tweak (ScriptKeyTweak addr)))) ;;
  taprootKeyID <- wrapf "unable to insert internal taproot key"
      (insertInternalKey (InternalKeyDesc addr)) ;;
  let famKeyBytes := option_map SerializeCompressed (FamilyKey (addr_Taro addr)) in
  _ <- wrapf "unable to insert addr"
      (InsertAddr
         (mkNewAddr (int16 (Version (addr_Taro addr))) genAssetID famKeyBytes
            scriptKeyID taprootKeyID
            (schnorr_SerializePubKey (TaprootOutputKey addr))
            (int64 (Amount (addr_Taro addr)))
            (int16 (AssetType (Taro_Genesis (addr_Taro addr))))
            (CreationTime addr))) ;;
  ret tt.

Fixpoint insertAddrs (addrs : list AddrWithKeyInfo) : Tx unit :=
  match addrs with
  | [] => ret tt
  | addr :: rest => _ <- insertAddr addr ;; insertAddrs rest
  end.

(** [InsertAddrs]. *)
Definition InsertAddrs (addrs : list AddrWithKeyInfo) (s : Store)
  : result unit * Store :=
  ExecTx false (insertAddrs addrs) s.

(** The optional family key of a row. *)
Definition parseFamKey (msg : string) (famKey : option bytes)
  : result (option PublicKey) :=
  match famKey with
  | None => Ok None
  | Some b => k <-? rwrapf msg (btcec_ParsePubKey b) ;; Ok (Some k)
  end.

(** The body of the loop of [QueryAddrs]: one row to one address. *)
Definition queryAddr (params : ChainParams) (s : Store) (addr : Addresses)
  : result AddrWithKeyInfo :=
  assetGenesis <-? rwrapf "error fetching genesis"
      (fetchGenesis (r_GenesisAssetID addr) s) ;;
  famKey <-? parseFamKey "unable to decode fam key" (r_FamKey addr) ;;
  rawScriptKey <-? rwrapf "unable to decode script key"
      (btcec_ParsePubKey (r_RawScriptKey addr)) ;;
  let rawScriptKeyDesc :=
    mkKeyDescriptor (uint32 (r_ScriptKeyFamily addr))
      (uint32 (r_ScriptKeyIndex addr)) rawScriptKey in
  internalKey <-? rwrapf "unable to decode taproot key"
      (btcec_ParsePubKey (r_RawTaprootKey addr)) ;;
  let internalKeyDesc :=
    mkKeyDescriptor (uint32 (r_TaprootKeyFamily addr))
      (uint32 (r_TaprootKeyIndex addr)) internalKey in
  scriptKey <-? btcec_ParsePubKey (r_TweakedScriptKey addr) ;;
  taprootOutputKey <-? rwrapf "unable to parse taproot output key"
      (schnorr_ParsePubKey_r (r_TaprootOutputKey addr)) ;;
  Ok (mkAddrWithKeyInfo
        (mkTaro (uint8 (r_Version addr)) assetGenesis famKey scriptKey
           internalKey (uint64 (r_Amount addr)) params)
        (mkTweakedScriptKey rawScriptKeyDesc (r_ScriptKeyTweak addr))
        internalKeyDesc taprootOutputKey (r_CreationTime addr)
        (match r_ManagedFrom addr with
         | Some t => t
         | None => zeroTime
         end)).

Fixpoint queryAddrsLoop (params : ChainParams) (s : Store)
  (dbAddrs : list Addresses) : result (list AddrWithKeyInfo) :=
  match dbAddrs with
  | [] => Ok []
  | addr :: rest =>
      a <-? queryAddr params s addr ;;
      l <-? queryAddrsLoop params s rest ;;
      Ok (a :: l)
  end.

(** [QueryAddrs]. *)
Definition QueryAddrs (chainParams : ChainParams) (params : QueryParams)
  (s : Store) : result (list AddrWithKeyInfo) * Store :=
  let createdBefore :=
    if IsZero (qp_CreatedBefore params)
    then time_Unix MaxInt64 0
    else qp_CreatedBefore params in
  let limit := if negb (qp_Limit params =? 0) then qp_Limit params else -1 in
  ExecTx true
    (dbAddrs <- query (FetchAddrs
                         (mkAddrQuery (qp_CreatedAfter params) createdBefore
                            (int32 (qp_Offset params)) limit
                            (qp_UnmanagedOnly params))) ;;
     query (fun s' => queryAddrsLoop chainParams s' dbAddrs))
    s.

(** [fetchAddr]. *)
Definition fetchAddr (params : ChainParams) (taprootOutputKey : PublicKey)
  (s : Store) : result AddrWithKeyInfo :=
  match FetchAddrByTaprootOutputKey (schnorr_SerializePubKey taprootOutputKey) s with
  | Panic p => Panic p
  | Err err =>
      if errors_Is err sql_ErrNoRows then Err address_ErrNoAddr else Err err
  | Ok dbAddr =>
      genesis <-? rwrapf "error fetching genesis"
          (fetchGenesis (r_GenesisAssetID dbAddr) s) ;;
      famKey <-? parseFamKey "unable to decode fam key" (r_FamKey dbAddr) ;;
      rawScriptKey <-? rwrapf "unable to decode script key"
          (btcec_ParsePubKey (r_RawScriptKey dbAddr)) ;;
      let scriptKeyDesc :=
        mkKeyDescriptor (uint32 (r_ScriptKeyFamily dbAddr))
          (uint32 (r_ScriptKeyIndex dbAddr)) rawScriptKey in
      scriptKey <-? rwrapf "unable to decode script key"
          (btcec_ParsePubKey (r_TweakedScriptKey dbAddr)) ;;
      internalKey <-? rwrapf "unable to decode taproot key"
          (btcec_ParsePubKey (r_RawTaprootKey dbAddr)) ;;
      let internalKeyDesc :=
        mkKeyDescriptor (uint32 (r_TaprootKeyFamily dbAddr))
          (uint32 (r_TaprootKeyIndex dbAddr)) internalKey in
      Ok (mkAddrWithKeyInfo
            (mkTaro (uint8 (r_Version dbAddr)) genesis famKey scriptKey
               internalKey (uint64 (r_Amount dbAddr)) params)
            (mkTweakedScriptKey scriptKeyDesc (r_ScriptKeyTweak dbAddr))
            internalKeyDesc taprootOutputKey (r_CreationTime dbAddr)
            zeroTime)
  end.

(** [AddrByTaprootOutput]. *)
Definition AddrByTaprootOutput (chainParams : ChainParams) (key : PublicKey)
  (s : Store) : result AddrWithKeyInfo * Store :=
  ExecTx true (query (fetchAddr chainParams key)) s.

(** [SetAddrManaged]. *)
Definition SetAddrManaged (addr : AddrWithKeyInfo) (managedFrom : Time)
  (s : Store) : result unit * Store :=
  ExecTx false
    (SetAddrManaged_db (Some managedFrom)
       (schnorr_SerializePubKey (TaprootOutputKey addr)))
    s.

(** [fetchEvent]. *)
Definition fetchEvent (eventID : nat) (addr : AddrWithKeyInfo) (s : Store)
  : result Event :=
  dbEvent <-? rwrapf "error fetching addr event" (FetchAddrEvent eventID s) ;;
  internalKey <-? rwrapf "error parsing internal key"
      (btcec_ParsePubKey (e_InternalKey dbEvent)) ;;
  hash <-? rwrapf "error parsing txid"
      (orDecodeError "invalid hash length" (chainhash_NewHash (e_Txid dbEvent))) ;;
  let op := mkOutPoint hash (uint32 (e_OutputIndex dbEvent)) in
  Ok (mkEvent eventID (e_CreationTime dbEvent) addr (e_Status dbEvent) op
        (match e_AmtSats dbEvent with Some v => v | None => 0 end)
        internalKey (e_TapscriptSibling dbEvent)
        (uint32 (match e_ConfirmationHeight dbEvent with Some h => h | None => 0 end))
        (is_some (e_AssetProofID dbEvent))).

(** Indexing a slice: out of range, Go panics. *)
Definition index {A : Type} (l : list A) (i : Z) : option A :=
  if i <? 0 then None else nth_error l (Z.to_nat i).

(** The chain transaction row that [GetOrCreateEvent] upserts. *)
Definition txUpsert (walletTx : Transaction) (txHash txBuf : bytes)
  : result ChainTx_row :=
  if 0 <? tx_Confirmations walletTx then
    blockHash <-? rwrapf "error parsing block hash"
        (orDecodeError "invalid hash string"
           (chainhash_NewHashFromStr (tx_BlockHash walletTx))) ;;
    Ok (mkChainTx txHash txBuf (Some (tx_BlockHeight walletTx)) (Some blockHash) None)
  else
    Ok (mkChainTx txHash txBuf None None None).

(** The body of the transaction of [GetOrCreateEvent]. *)
Definition getOrCreateEventTx (now : Time) (status : Z) (addr : AddrWithKeyInfo)
  (walletTx : Transaction) (outputIdx : Z) (tapscriptSibling : option bytes)
  (txHash txBuf outpointBytes : bytes) (outputDetails : OutputDetail)
  : Tx Event :=
  let siblingBytes := tapscriptSibling in
  row <- lift (txUpsert walletTx txHash txBuf) ;;
  chainTxID <- wrapf "error upserting chain TX" (UpsertChainTx row) ;;
  commitment <- lift (rwrapf "error deriving commitment"
                        (match TaroCommitment addr with
                         | Some c => Ok c
                         | None => Err (ExternalError "commitment")
                         end)) ;;
  let taroRoot := TapscriptRoot commitment tapscriptSibling in
  managedUtxoID <- wrapf "error upserting utxo"
      (UpsertManagedUTXO
         (mkRawManagedUTXO
            (SerializeCompressed (InternalKey (addr_Taro addr)))
            outpointBytes (od_Amount outputDetails) siblingBytes taroRoot
            chainTxID)) ;;
  eventID <- wrapf "error fetching existing events"
      (UpsertAddrEvent
         (mkUpsertAddrEvent
            (schnorr_SerializePubKey (TaprootOutputKey addr)) now
            (int16 status) txHash (int32 outputIdx) managedUtxoID None None)) ;;
  query (fetchEvent eventID addr).

(** [GetOrCreateEvent]; [now] is the reading of [time.Now()]. *)
Definition GetOrCreateEvent (now : Time) (status : Z) (addr : AddrWithKeyInfo)
  (walletTx : Transaction) (outputIdx : Z) (tapscriptSibling : option bytes)
  (s : Store) : result Event * Store :=
  let txHash := TxHash (tx_Tx walletTx) in
  match Serialize (tx_Tx walletTx) with
  | None => (Err (Errorf "error serializing tx" (ExternalError "serialize")), s)
  | Some txBuf =>
      let outpoint := mkOutPoint txHash outputIdx in
      match encodeOutpoint outpoint with
      | None => (Err (Errorf "error encoding outpoint" (ExternalError "outpoint")), s)
      | Some outpointBytes =>
          match index (tx_OutputDetails walletTx) outputIdx with
          | None => (Panic "index out of range", s)
          | Some outputDetails =>
              ExecTx false
                (getOrCreateEventTx now status addr walletTx outputIdx
                   tapscriptSibling txHash txBuf outpointBytes outputDetails)
                s
          end
      end
  end.

(** The query that [QueryAddrEvents] builds from its parameters. *)
Definition sqlQuery (params : EventQueryParams) : AddrEventQuery :=
  let q0 := mkAddrEventQuery (int16 StatusTransactionDetected)
              (int16 StatusCompleted) None in
  let q1 :=
    if 0 <? len_slice (eq_AddrTaprootOutputKey params)
    then mkAddrEventQuery (q_StatusFrom q0) (q_StatusTo q0)
           (eq_AddrTaprootOutputKey params)
    else q0 in
  let q2 :=
    match eq_StatusFrom params with
    | Some st => mkAddrEventQuery (int16 st) (q_StatusTo q1) (q_AddrTaprootKey q1)
    | None => q1
    end in
  match eq_StatusTo params with
  | Some st => mkAddrEventQuery (q_StatusFrom q2) (int16 st) (q_AddrTaprootKey q2)
  | None => q2
  end.

(** The body of the loop of [QueryAddrEvents]. *)
Definition queryAddrEvent (chainParams : ChainParams) (s : Store)
  (ids : AddrEventID) : result Event :=
  taprootOutputKey <-? rwrapf "error parsing taproot output key"
      (schnorr_ParsePubKey_r (id_TaprootOutputKey ids)) ;;
  addr <-? rwrapf "error fetching address"
      (fetchAddr chainParams taprootOutputKey s) ;;
  rwrapf "error fetching address event" (fetchEvent (id_EventID ids) addr s).

Fixpoint queryAddrEventsLoop (chainParams : ChainParams) (s : Store)
  (dbIDs : list AddrEventID) : result (list Event) :=
  match dbIDs with
  | [] => Ok []
  | ids :: rest =>
      e <-? queryAddrEvent chainParams s ids ;;
      l <-? queryAddrEventsLoop chainParams s rest ;;
      Ok (e :: l)
  end.

(** [QueryAddrEvents]. *)
Definition QueryAddrEvents (chainParams : ChainParams)
  (params : EventQueryParams) (s : Store) : result (list Event) * Store :=
  ExecTx true
    (dbIDs <- wrapf "error fetching event IDs" (query (QueryEventIDs (sqlQuery params))) ;;
     query (fun s' => queryAddrEventsLoop chainParams s' dbIDs))
    s.

(** [CompleteEvent]. *)
Definition CompleteEvent (event : Event) (status : Z) (anchorPoint : OutPoint)
  (s : Store) : result unit * Store :=
  let scriptKeyBytes := SerializeCompressed (ScriptKey (addr_Taro (ev_Addr event))) in
  ExecTx false
    (proofData <- wrapf "error fetching asset proof"
         (query (FetchAssetProof scriptKeyBytes)) ;;
     _ <- UpsertAddrEvent
            (mkUpsertAddrEvent
               (schnorr_SerializePubKey (TaprootOutputKey (ev_Addr event)))
               zeroTime (int16 status) (op_Hash anchorPoint)
               (int32 (op_Index anchorPoint)) 0%nat
               (sqlInt32 (pi_ProofID proofData))
               (sqlInt32 (pi_AssetID proofData))) ;;
     ret tt)
    s.

(** ** Notions used by the properties *)

(** A computation that never panics. *)
Definition no_panic {A : Type} (m : Tx A) : Prop :=
  forall s p, fst (m s) <> Panic p.

(** A stored address row decodes: its references resolve and its key
    columns parse. *)
Definition row_decodes (s : Store) (a : Addr_row) : Prop :=
  exists r g,
    join_addr s a = Some r /\
    fetchGenesis (genesis_asset_id a) s = Ok g /\
    (forall b, fam_key a = Some b -> ParsePubKey b <> None) /\
    ParsePubKey (r_RawScriptKey r) <> None /\
    ParsePubKey (r_TweakedScriptKey r) <> None /\
    ParsePubKey (r_RawTaprootKey r) <> None.

(** The managed-from time of a row as [QueryAddrs] reports it. *)
Definition managed_time (a : Addr_row) : Time :=
  match managed_from a with
  | Some t => t
  | None => zeroTime
  end.

(** A time that [time.Time] holds without wrapping: the seconds since
    January 1 of year 1 fit 64 bits. *)
Definition representable (t : Time) : Prop :=
  - 2 ^ 63 <= unixSec t + 62135596800 <= MaxInt64 /\
  0 <= nanos t < 1000000000.

(** [FetchAddrs] as the claim of the missing upper bound words it: the same
    query without a bound on the creation time from above. *)
Definition addr_matches_unbounded (q : AddrQuery) (a : Addr_row) : bool :=
  time_leb (aq_CreatedAfter q) (creation_time a) &&
  (negb (aq_UnmanagedOnly q) || negb (is_some (managed_from a))).

Definition FetchAddrs_unbounded (q : AddrQuery) (s : Store)
  : result (list Addresses) :=
  Ok (sql_limit (aq_NumLimit q)
        (sql_offset (aq_NumOffset q)
           (filter_map (join_addr s)
              (filter (addr_matches_unbounded q) (addrs s))))).

Definition QueryAddrs_unbounded (chainParams : ChainParams)
  (params : QueryParams) (s : Store) : result (list AddrWithKeyInfo) * Store :=
  let limit := if negb (qp_Limit params =? 0) then qp_Limit params else -1 in
  ExecTx true
    (bind
       (query (FetchAddrs_unbounded
                 (mkAddrQuery (qp_CreatedAfter params) (qp_CreatedBefore params)
                    (int32 (qp_Offset params)) limit
                    (qp_UnmanagedOnly params))))
       (fun dbAddrs => query (fun s' => queryAddrsLoop chainParams s' dbAddrs)))
    s.

(** The taproot output key of an address as the store holds it. *)
Definition addr_key (a : AddrWithKeyInfo) : bytes :=
  schnorr_SerializePubKey (TaprootOutputKey a).

(** An address with this taproot output key is stored. *)
Definition key_stored (s : Store) (key : bytes) : Prop :=
  exists row, In row (addrs s) /\ taproot_output_key row = key.

(** The rows that one turn of the loop of [InsertAddrs] writes for an
    address. *)
Definition scriptKeyRaw_row (a : AddrWithKeyInfo) : InternalKey_row :=
  mkInternalKey (SerializeCompressed (kd_PubKey (tsk_RawKey (ScriptKeyTweak a))))
    (int32 (kd_Family (tsk_RawKey (ScriptKeyTweak a))))
    (int32 (kd_Index (tsk_RawKey (ScriptKeyTweak a)))).

Definition taprootKey_row (a : AddrWithKeyInfo) : InternalKey_row :=
  mkInternalKey (SerializeCompressed (kd_PubKey (InternalKeyDesc a)))
    (int32 (kd_Family (InternalKeyDesc a)))
    (int32 (kd_Index (InternalKeyDesc a))).

Definition scriptKey_row (a : AddrWithKeyInfo) (rawID : nat) : ScriptKey_row :=
  mkScriptKey rawID (SerializeCompressed (ScriptKey (addr_Taro a)))
    (tsk_Tweak (ScriptKeyTweak a)).

Definition newAddr (a : AddrWithKeyInfo) (genID skID tkID : nat) : NewAddr :=
  mkNewAddr (int16 (Version (addr_Taro a))) genID
    (option_map SerializeCompressed (FamilyKey (addr_Taro a))) skID tkID
    (addr_key a) (int64 (Amount (addr_Taro a)))
    (int16 (AssetType (Taro_Genesis (addr_Taro a)))) (CreationTime a).

Definition addr_row (a : AddrWithKeyInfo) (genID skID tkID : nat) : Addr_row :=
  mkAddrRow (int16 (Version (addr_Taro a))) genID
    (option_map SerializeCompressed (FamilyKey (addr_Taro a))) skID tkID
    (addr_key a) (int64 (Amount (addr_Taro a)))
    (int16 (AssetType (Taro_Genesis (addr_Taro a)))) (CreationTime a) None.

(** What [InsertAddr] answers, as the loop of [InsertAddrs] passes it on. *)
Definition insertAddr_result (r : result nat * Store) : result unit * Store :=
  match r with
  | (Ok _, s) => (Ok tt, s)
  | (Err e, s) => (Err (Errorf "unable to insert addr" e), s)
  | (Panic p, s) => (Panic p, s)
  end.

(** The bytes under which [CompleteEvent] looks for the asset proof. *)
Definition event_script_key (event : Event) : bytes :=
  SerializeCompressed (ScriptKey (addr_Taro (ev_Addr event))).

(** The event row after [CompleteEvent]: new status, references to the
    proof and to the asset. *)
Definition completed_row (old : AddrEvent_row) (status : Z) (pd : AssetProofI)
  : AddrEvent_row :=
  mkAddrEventRow (ae_creation_time old) (ae_addr_id old) (int16 status)
    (ae_chain_txn_id old) (ae_output_index old) (ae_managed_utxo_id old)
    (Some (int32 (pi_ProofID pd))) (Some (int32 (pi_AssetID pd))).

(** No event of [s'] has gained a reference to a proof or to an asset with
    respect to [s]: an event that was there has the references it had, a new
    event has none. *)
Definition proof_links_kept (s s' : Store) : Prop :=
  forall id r',
    row_at (addr_events s') id = Some r' ->
    match row_at (addr_events s) id with
    | Some r =>
        ae_asset_proof_id r' = ae_asset_proof_id r /\
        ae_asset_id r' = ae_asset_id r
    | None => ae_asset_proof_id r' = None /\ ae_asset_id r' = None
    end.

(** What the claim on [CompleteEvent] promises for an event: the call
    succeeds and the event, read again, has the new status and a proof. *)
Definition completes (event : Event) (status : Z) (anchorPoint : OutPoint)
  (s : Store) : Prop :=
  exists s' ev',
    CompleteEvent event status anchorPoint s = (Ok tt, s') /\
    fetchEvent (ev_ID event) (ev_Addr event) s' = Ok ev' /\
    ev_Status ev' = int16 status /\
    ev_HasProof ev' = true.

(** The event rows stored under the key (taproot output key, txid, output
    index), with the address and the transaction looked up as
    [UpsertAddrEvent] looks them up. *)
Definition events_for (s : Store) (key txHash : bytes) (idx : Z)
  : list AddrEvent_row :=
  match find_id (fun a => bytes_eqb (taproot_output_key a) key) (addrs s),
        find_id (fun t => bytes_eqb (txid t) txHash) (chain_txns s) with
  | Some addrID, Some txnID =>
      filter (event_key_eqb addrID txnID idx) (addr_events s)
  | _, _ => []
  end.

(** The arguments with which [GetOrCreateEvent] calls the store. *)
Definition utxoArg (addr : AddrWithKeyInfo) (opb : bytes) (od : OutputDetail)
  (sib : option bytes) (c : Commitment) (chainTxID : nat) : RawManagedUTXO :=
  mkRawManagedUTXO (SerializeCompressed (InternalKey (addr_Taro addr))) opb
    (od_Amount od) sib (TapscriptRoot c sib) chainTxID.

Definition eventArg (now : Time) (status : Z) (addr : AddrWithKeyInfo)
  (txHash : bytes) (outputIdx : Z) (utxoID : nat) : UpsertAddrEventParams :=
  mkUpsertAddrEvent (schnorr_SerializePubKey (TaprootOutputKey addr)) now
    (int16 status) txHash (int32 outputIdx) utxoID None None.

(** The height that [fetchEvent] reports for a chain transaction row. *)
Definition height_of (t : option ChainTx_row) : Z :=
  uint32 (match t with
          | Some r => match block_height r with Some h => h | None => 0 end
          | None => 0
          end).

(** [assertEqualAddr] of the tests: the two addresses are equal once their
    creation times are blanked, and the creation times agree in [Unix()]. *)
Definition withoutCreationTime (a : AddrWithKeyInfo) : AddrWithKeyInfo :=
  mkAddrWithKeyInfo (addr_Taro a) (ScriptKeyTweak a) (InternalKeyDesc a)
    (TaprootOutputKey a) zeroTime (ManagedAfter a).

Definition assertEqualAddr (expected actual : AddrWithKeyInfo) : Prop :=
  withoutCreationTime expected = withoutCreationTime actual /\
  Unix (CreationTime expected) = Unix (CreationTime actual).

(** A public key that its compressed encoding gives back. *)
Definition valid_key (k : PublicKey) : Prop :=
  ParsePubKey (SerializeCompressed k) = Some k.

Definition valid_desc (d : KeyDescriptor) : Prop :=
  valid_key (kd_PubKey d) /\
  0 <= kd_Family d < 2 ^ 32 /\ 0 <= kd_Index d < 2 ^ 32.

(** A valid address of the book with chain parameters [params]: the fields
    are in the range of their types, the keys are valid, the internal key is
    the key of the internal key descriptor, the taproot output key is an
    x-only key, and the address is new (not managed yet, created at a time
    that [time.Time] holds and that is not before the zero time). *)
Definition valid_addr (params : ChainParams) (a : AddrWithKeyInfo) : Prop :=
  0 <= Version (addr_Taro a) < 2 ^ 8 /\
  0 <= Amount (addr_Taro a) < 2 ^ 64 /\
  Taro_ChainParams (addr_Taro a) = params /\
  (forall k, FamilyKey (addr_Taro a) = Some k -> valid_key k) /\
  valid_key (ScriptKey (addr_Taro a)) /\
  valid_desc (tsk_RawKey (ScriptKeyTweak a)) /\
  valid_desc (InternalKeyDesc a) /\
  InternalKey (addr_Taro a) = kd_PubKey (InternalKeyDesc a) /\
  schnorr_ParsePubKey (addr_key a) = Some (TaprootOutputKey a) /\
  ManagedAfter a = zeroTime /\
  time_leb zeroTime (CreationTime a) = true /\
  representable (CreationTime a).

(** Two key descriptors of the same key have the same locator. *)
Definition same_locator (d d' : KeyDescriptor) : Prop :=
  SerializeCompressed (kd_PubKey d) = SerializeCompressed (kd_PubKey d') ->
  kd_Family d = kd_Family d' /\ kd_Index d = kd_Index d'.

(** The keys of [b] do not contradict those of [a]: a key that both use has
    one locator, and a script key that both use has one tweak and one raw
    key.  The upserts of the key registry overwrite otherwise. *)
Definition keys_agree (a b : AddrWithKeyInfo) : Prop :=
  same_locator (tsk_RawKey (ScriptKeyTweak a)) (tsk_RawKey (ScriptKeyTweak b)) /\
  same_locator (tsk_RawKey (ScriptKeyTweak a)) (InternalKeyDesc b) /\
  same_locator (InternalKeyDesc a) (tsk_RawKey (ScriptKeyTweak b)) /\
  same_locator (InternalKeyDesc a) (InternalKeyDesc b) /\
  (SerializeCompressed (ScriptKey (addr_Taro a)) =
   SerializeCompressed (ScriptKey (addr_Taro b)) ->
   tsk_Tweak (ScriptKeyTweak a) = tsk_Tweak (ScriptKeyTweak b) /\
   SerializeCompressed (kd_PubKey (tsk_RawKey (ScriptKeyTweak a))) =
   SerializeCompressed (kd_PubKey (tsk_RawKey (ScriptKeyTweak b)))).

(** The store holds the address [a]: its row is the one under its key, and
    the genesis, script key and internal key rows that the row refers to are
    those of [a]. *)
Definition Stored (s : Store) (a : AddrWithKeyInfo) : Prop :=
  exists genID skID rawID tkID grow,
    find (fun r => bytes_eqb (taproot_output_key r) (addr_key a)) (addrs s) =
      Some (addr_row a genID skID tkID) /\
    row_at (genesis_assets s) genID = Some grow /\
    gen_genesis grow = Taro_Genesis (addr_Taro a) /\
    row_at (script_keys s) skID = Some (scriptKey_row a rawID) /\
    find_id (fun r => bytes_eqb (raw_key r) (raw_key (scriptKeyRaw_row a)))
      (internal_keys s) = Some rawID /\
    row_at (internal_keys s) rawID = Some (scriptKeyRaw_row a) /\
    row_at (internal_keys s) tkID = Some (taprootKey_row a).

(** [address.QueryParams{}]. *)
Definition defaultQueryParams : QueryParams :=
  mkQueryParams zeroTime zeroTime 0 0 false.

(** The joined row under which the store returns a stored address. *)
Definition joined_row (a : AddrWithKeyInfo) (genID : nat) : Addresses :=
  mkAddresses (int16 (Version (addr_Taro a))) genID
    (option_map SerializeCompressed (FamilyKey (addr_Taro a)))
    (SerializeCompressed (ScriptKey (addr_Taro a)))
    (tsk_Tweak (ScriptKeyTweak a))
    (SerializeCompressed (kd_PubKey (tsk_RawKey (ScriptKeyTweak a))))
    (int32 (kd_Family (tsk_RawKey (ScriptKeyTweak a))))
    (int32 (kd_Index (tsk_RawKey (ScriptKeyTweak a))))
    (SerializeCompressed (kd_PubKey (InternalKeyDesc a)))
    (int32 (kd_Family (InternalKeyDesc a)))
    (int32 (kd_Index (InternalKeyDesc a)))
    (addr_key a) (int64 (Amount (addr_Taro a))) (CreationTime a) None.

(** The query that [QueryAddrs] sends for [address.QueryParams{}]. *)
Definition defaultAddrQuery : AddrQuery :=
  mkAddrQuery zeroTime (time_Unix MaxInt64 0) (int32 0) (-1) false.

(** The txid and the internal key bytes that [FetchAddrEvent] joins to an
    event row. *)
Definition event_txid (s : Store) (row : AddrEvent_row) : bytes :=
  match row_at (chain_txns s) (ae_chain_txn_id row) with
  | Some t => txid t
  | None => []
  end.

Definition event_key_bytes (s : Store) (row : AddrEvent_row) : bytes :=
  match row_at (managed_utxos s) (ae_managed_utxo_id row) with
  | Some u =>
      match row_at (internal_keys s) (utxo_internal_key_id u) with
      | Some k => raw_key k
      | None => []
      end
  | None => []
  end.

(** ** Further notions: queries, constraints of the tables, events *)

(** The query that [QueryAddrs] sends to the store. *)
Definition addrQuery (params : QueryParams) : AddrQuery :=
  mkAddrQuery (qp_CreatedAfter params)
    (if IsZero (qp_CreatedBefore params)
     then time_Unix MaxInt64 0
     else qp_CreatedBefore params)
    (int32 (qp_Offset params))
    (if negb (qp_Limit params =? 0) then qp_Limit params else -1)
    (qp_UnmanagedOnly params).

(** The x-only encoding is canonical: a key serializes to the bytes it was
    parsed from. *)
Definition xonly_canonical : Prop :=
  forall b k, schnorr_ParsePubKey b = Some k -> schnorr_SerializePubKey k = b.

(** An address as [fetchAddr] builds it: without a managed-after time. *)
Definition withoutManagedAfter (a : AddrWithKeyInfo) : AddrWithKeyInfo :=
  mkAddrWithKeyInfo (addr_Taro a) (ScriptKeyTweak a) (InternalKeyDesc a)
    (TaprootOutputKey a) (CreationTime a) zeroTime.

(** The constraints that the schema declares on a row of [addrs]: a taproot
    output key of 32 bytes, and references that resolve. *)
Definition addr_row_ok (s : Store) (a : Addr_row) : Prop :=
  len (taproot_output_key a) = 32 /\
  is_some (row_at (genesis_assets s) (genesis_asset_id a)) = true /\
  is_some (row_at (script_keys s) (script_key_id a)) = true /\
  is_some (row_at (internal_keys s) (taproot_key_id a)) = true.

(** The constraints on the table: the rows are fine and no two of them have
    the same taproot output key. *)
Definition addrs_constraints (s : Store) : Prop :=
  NoDup (map taproot_output_key (addrs s)) /\
  Forall (addr_row_ok s) (addrs s).

(** The references and the status of a row of [addr_events]: the address
    and the chain transaction exist, the status is a valid code. *)
Definition event_row_ok (s : Store) (e : AddrEvent_row) : Prop :=
  is_some (row_at (addrs s) (ae_addr_id e)) = true /\
  is_some (row_at (chain_txns s) (ae_chain_txn_id e)) = true /\
  valid_status (ae_status e) = true.

Definition events_constraints (s : Store) : Prop :=
  Forall (event_row_ok s) (addr_events s).

(** The event that [fetchEvent] builds from an event row, the address it
    was given and the key it parsed. *)
Definition event_of_row (s : Store) (id : nat) (addr : AddrWithKeyInfo)
  (row : AddrEvent_row) (k : PublicKey) : Event :=
  mkEvent id (ae_creation_time row) addr (ae_status row)
    (mkOutPoint (event_txid s row) (uint32 (ae_output_index row)))
    (match row_at (managed_utxos s) (ae_managed_utxo_id row) with
     | Some u => amt_sats u
     | None => 0
     end)
    k
    (match row_at (managed_utxos s) (ae_managed_utxo_id row) with
     | Some u => tapscript_sibling u
     | None => None
     end)
    (height_of (row_at (chain_txns s) (ae_chain_txn_id row)))
    (is_some (ae_asset_proof_id row)).

(** An internal key row that is there and whose raw key parses. *)
Definition key_parses (keys : list InternalKey_row) (id : nat) : Prop :=
  exists k, row_at keys id = Some k /\ ParsePubKey (raw_key k) <> None.

(** A row of [addrs] that [QueryAddrs] can list: the genesis, the script
    key and the two internal keys that it refers to are there, and its key
    columns parse. *)
Definition row_lists (s : Store) (a : Addr_row) : Prop :=
  is_some (row_at (genesis_assets s) (genesis_asset_id a)) = true /\
  (forall b, fam_key a = Some b -> ParsePubKey b <> None) /\
  schnorr_ParsePubKey (taproot_output_key a) <> None /\
  key_parses (internal_keys s) (taproot_key_id a) /\
  exists sk,
    row_at (script_keys s) (script_key_id a) = Some sk /\
    ParsePubKey (tweaked_script_key sk) <> None /\
    key_parses (internal_keys s) (sk_internal_key_id sk).

(** A book whose rows can all be listed; [QueryAddrs] fails as a whole on
    a row that does not decode. *)
Definition book_lists (s : Store) : Prop := Forall (row_lists s) (addrs s).

(** The book after further operations that leave the address [a] as it was
    inserted: batches of valid addresses whose keys agree with the keys of
    [a], other addresses that are marked as managed, events that are
    recorded and completed.  Each operation may also fail. *)
Inductive undisturbed (params : ChainParams) (a : AddrWithKeyInfo)
  : Store -> Store -> Prop :=
| undisturbed_now (s : Store) : undisturbed params a s s
| undisturbed_InsertAddrs (s s1 s2 : Store) (batch : list AddrWithKeyInfo)
    (r : result unit) :
    undisturbed params a s s1 ->
    (forall b, In b batch -> valid_addr params b /\ keys_agree a b) ->
    InsertAddrs batch s1 = (r, s2) ->
    undisturbed params a s s2
| undisturbed_SetAddrManaged (s s1 s2 : Store) (b : AddrWithKeyInfo)
    (t : Time) (r : result unit) :
    undisturbed params a s s1 ->
    addr_key b <> addr_key a ->
    SetAddrManaged b t s1 = (r, s2) ->
    undisturbed params a s s2
| undisturbed_GetOrCreateEvent (s s1 s2 : Store) (now : Time) (status : Z)
    (addr : AddrWithKeyInfo) (walletTx : Transaction) (outputIdx : Z)
    (sib : option bytes) (r : result Event) :
    undisturbed params a s s1 ->
    GetOrCreateEvent now status addr walletTx outputIdx sib s1 = (r, s2) ->
    undisturbed params a s s2
| undisturbed_CompleteEvent (s s1 s2 : Store) (event : Event) (status : Z)
    (anchorPoint : OutPoint) (r : result unit) :
    undisturbed params a s s1 ->
    CompleteEvent event status anchorPoint s1 = (r, s2) ->
    undisturbed params a s s2.

End AddressBook.


(** ** The TLV codec of a compressed public key ([address])

    [compressedPubKeyEncoder] and [compressedPubKeyDecoder] are handed a
    value of any type, a writer or a reader, and the length of the record.
    The writer is a buffer that grows, the reader is the bytes that are
    left to read. *)

Section Codec.

Context {ext : External}.

(** [btcec.PublicKey{}], the key without coordinates. *)
Variable emptyPublicKey : PublicKey.

(** [val any]: a [*btcec.PublicKey], nil or pointing to a key, or a value
    of another type. *)
Inductive tlv_val : Type :=
| PublicKeyPtr (p : option PublicKey)
| OtherVal.

Definition PubKeyBytesLenCompressed : nat := 33.

Definition io_EOF : error := ExternalError "EOF".
Definition io_ErrUnexpectedEOF : error := ExternalError "unexpected EOF".

(** [tlv.NewTypeForEncodingErr] and [tlv.NewTypeForDecodingErr], by the
    type they expected. *)
Definition tlv_ErrTypeForEncoding (expType : string) : error :=
  ExternalError ("ErrTypeForEncoding: " ++ expType).
Definition tlv_ErrTypeForDecoding (expType : string) : error :=
  ExternalError ("ErrTypeForDecoding: " ++ expType).

(** [copy(dst[:], src)] into a zeroed array of [n] bytes: the bytes of
    [src] that fit, the rest stays zero. *)
Definition copy_into (n : nat) (src : bytes) : bytes :=
  firstn n src ++ repeat x00 (n - List.length src).

(** [io.ReadFull(r, buf)] for a buffer of [n] bytes: [io.EOF] when there is
    nothing to read, [io.ErrUnexpectedEOF] when the reader ends before the
    buffer is full. *)
Definition io_ReadFull (r : bytes) (n : nat) : result bytes * bytes :=
  match n, r with
  | O, _ => (Ok [], r)
  | _, [] => (Err io_EOF, [])
  | _, _ =>
      if (List.length r <? n)%nat then (Err io_ErrUnexpectedEOF, [])
      else (Ok (firstn n r), skipn n r)
  end.

(** [tlv.EBytes33] on a [*[33]byte]: the array is written. *)
Definition tlv_EBytes33 (w : bytes) (b : bytes) : result unit * bytes :=
  (Ok tt, w ++ b).

(** [tlv.DBytes33] on a [*[33]byte]: the array is read in full when the
    length of the record is 33. *)
Definition tlv_DBytes33 (r : bytes) (l : Z) : result bytes * bytes :=
  if l =? 33 then io_ReadFull r 33
  else (Err (tlv_ErrTypeForDecoding "[33]byte"), r).

(** [compressedPubKeyEncoder]. *)
Definition compressedPubKeyEncoder (w : bytes) (val : tlv_val)
  : result unit * bytes :=
  match val with
  | PublicKeyPtr (Some t) =>
      let keyBytes := copy_into PubKeyBytesLenCompressed (SerializeCompressed t) in
      tlv_EBytes33 w keyBytes
  | PublicKeyPtr None => (Panic "nil pointer dereference", w)
  | OtherVal => (Err (tlv_ErrTypeForEncoding "*btcec.PublicKey"), w)
  end.

(** [compressedPubKeyDecoder]; it returns what [val] points to afterwards
    and what is left of the reader. *)
Definition compressedPubKeyDecoder (r : bytes) (val : tlv_val) (l : Z)
  : result tlv_val * bytes :=
  match val with
  | PublicKeyPtr typ =>
      match tlv_DBytes33 r (Z.of_nat PubKeyBytesLenCompressed) with
      | (Ok keyBytes, r') =>
          let key :=
            (* Handle empty key, which is not on the curve. *)
            if all_zero keyBytes then Ok emptyPublicKey
            else btcec_ParsePubKey keyBytes in
          match key, typ with
          | Ok key, Some _ => (Ok (PublicKeyPtr (Some key)), r')
          | Ok _, None => (Panic "nil pointer dereference", r')
          | Err e, _ => (Err e, r')
          | Panic p, _ => (Panic p, r')
          end
      | (Err e, r') => (Err e, r')
      | (Panic p, r') => (Panic p, r')
      end
  | OtherVal => (Err (tlv_ErrTypeForDecoding "*btcec.PublicKey"), r)
  end.

(** The compressed encoding of a key: 33 bytes, not all of them zero, from
    which the key parses back. *)
Definition compressed_key (k : PublicKey) : Prop :=
  List.length (SerializeCompressed k) = 33%nat /\
  all_zero (SerializeCompressed k) = false /\
  ParsePubKey (SerializeCompressed k) = Some k.

End Codec.

(** ** Helpers of the tests ([internal/test]) *)

Section TestHelpers.

Context {ext : External}.

(** [SchnorrKey]: the key, through its x-only encoding; [require.NoError]
    stops the test on the error. *)
Definition SchnorrKey (pubKey : PublicKey) : result PublicKey :=
  schnorr_ParsePubKey_r (schnorr_SerializePubKey pubKey).

(** [PubToKeyDesc]: a descriptor with the zero locator. *)
Definition PubToKeyDesc (p : PublicKey) : KeyDescriptor :=
  mkKeyDescriptor 0 0 p.

End TestHelpers.

(** ** The macaroon root key store ([tarodb/macaroons.go]) *)

(** [sqlc.Macaroon] and [sqlc.InsertRootKeyParams]. *)
Record MacaroonRootKey := mkMacaroonRootKey {
  mac_ID : bytes;
  mac_RootKey : bytes
}.

Record MacaroonID := mkMacaroonID {
  mid_ID : bytes;
  mid_RootKey : bytes
}.

(** The [KeyStore] interface over a database [DB]. *)
Class KeyStore (DB : Type) : Type := {
  GetRootKey : bytes -> DB -> result MacaroonRootKey;
  InsertRootKey : MacaroonID -> DB -> result unit * DB
}.

Section RootKeyStore.

Context {DB : Type} {ks : KeyStore DB}.

(** [macaroons.RootKeyLen]. *)
Definition RootKeyLen : nat := 32.

(** [RootKeyStore.Get]. *)
Definition RootKeyStore_Get (id : bytes) (db : DB) : result bytes :=
  match GetRootKey id db with
  | Ok mac => Ok (mac_RootKey mac)
  | Err err => Err err
  | Panic p => Panic p
  end.

(** [RootKeyStore.RootKey].  [ctxID] is what [macaroons.RootKeyIDFromContext]
    returns for the context, [rand] the bytes that [rand.Reader] has to
    give; the function returns the root key and the id, and leaves the rest
    of the random bytes and the database.  The closure that [ExecTx] runs
    talks to [r.db], not to the transaction it is handed, so what it writes
    is written whatever the closure returns. *)
Definition RootKeyStore_RootKey (ctxID : result bytes) (rand : bytes) (db : DB)
  : result (bytes * bytes) * (bytes * DB) :=
  match ctxID with
  | Err err => (Err err, (rand, db))
  | Panic p => (Panic p, (rand, db))
  | Ok id =>
      match GetRootKey id db with
      | Ok mac => (Ok (mac_RootKey mac, id), (rand, db))
      | Panic p => (Panic p, (rand, db))
      | Err err =>
          (* switch err { case sql.ErrNoRows: ... default: return err } *)
          if error_eqb err sql_ErrNoRows then
            match io_ReadFull rand RootKeyLen with
            | (Ok rootKey, rand') =>
                match InsertRootKey (mkMacaroonID id rootKey) db with
                | (Ok _, db') => (Ok (rootKey, id), (rand', db'))
                | (Err e, db') => (Err e, (rand', db'))
                | (Panic p, db') => (Panic p, (rand', db'))
                end
            | (Err e, rand') => (Err e, (rand', db))
            | (Panic p, rand') => (Panic p, (rand', db))
            end
          else (Err err, (rand, db))
      end
  end.

(** A key store keeps what it is given: a root key that was inserted is
    the one found under its id. *)
Definition keeps_root_keys : Prop :=
  forall arg db db',
    InsertRootKey arg db = (Ok tt, db') ->
    GetRootKey (mid_ID arg) db' =
      Ok (mkMacaroonRootKey (mid_ID arg) (mid_RootKey arg)).

End RootKeyStore.
(** ** A small instance of the external packages

    The examples below run the address book on keys that are a 32-byte x
    coordinate and a parity bit; a key whose x coordinate starts with a zero
    byte stands for a point that is not on the curve. *)

Module Example.

Record Key := mkKey { key_x : bytes; key_odd : bool }.

Definition on_curve (x : bytes) : bool :=
  match x with
  | b :: _ => negb (Byte.eqb b x00) && (len x =? 32)
  | [] => false
  end.

Definition serializeCompressed (k : Key) : bytes :=
  (if key_odd k then x03 else x02) :: key_x k.

Definition parsePubKey (b : bytes) : option Key :=
  match b with
  | p :: x =>
      if on_curve x then
        if Byte.eqb p x02 then Some (mkKey x false)
        else if Byte.eqb p x03 then Some (mkKey x true)
        else None
      else None
  | [] => None
  end.

Definition schnorrParse (b : bytes) : option Key :=
  if on_curve b then Some (mkKey b false) else None.

Record Tx := mkTx { tx_hash : bytes; tx_raw : bytes }.

Definition hashFromStr (str : string) : option bytes :=
  if (String.length str =? 64)%nat then Some (repeat xbb 32) else None.

#[export] Instance ext : External := {|
  PublicKey := Key;
  SerializeCompressed := serializeCompressed;
  ParsePubKey := parsePubKey;
  schnorr_SerializePubKey := key_x;
  schnorr_ParsePubKey := schnorrParse;
  MsgTx := Tx;
  TxHash := tx_hash;
  Serialize := fun t => Some (tx_raw t);
  chainhash_NewHashFromStr := hashFromStr;
  ChainParams := unit
|}.

(** The status codes are those that the tests fix: of the events with the
    codes [i mod (StatusCompleted + 1)], [i] from 0 to 4, exactly the second
    one is confirmed, and the code 4 is rejected. *)
#[export] Instance pkgs : TaroPackages := {|
  StatusTransactionDetected := 0;
  StatusTransactionConfirmed := 1;
  StatusCompleted := 3;
  Commitment := bytes;
  TaroCommitment := fun a => Some (serializeCompressed (ScriptKey (addr_Taro a)));
  TapscriptRoot := fun c sib => match sib with Some h => c ++ h | None => c end;
  encodeOutpoint := fun op => if (0 <=? op_Index op) && (op_Index op <? 256)
                              then Some (op_Hash op ++ [x00]) else None
|}.

(** Keys, a genesis and two addresses. *)
Definition keyA : Key := mkKey (repeat x11 32) false.
Definition keyB : Key := mkKey (repeat x22 32) false.
Definition keyC : Key := mkKey (repeat x33 32) true.
Definition keyD : Key := mkKey (repeat x44 32) false.
Definition keyE : Key := mkKey (repeat x55 32) false.

Definition gen1 : Genesis :=
  mkGenesis (mkOutPoint (repeat xaa 32) 1) "asset" [x01; x02] 0 0.

Definition time1 : Time := mkTime 1666000000 500.
Definition time2 : Time := mkTime 1666000100 0.
Definition time3 : Time := mkTime 1666000200 7.

Definition addr1 : AddrWithKeyInfo :=
  mkAddrWithKeyInfo
    (mkTaro 0 gen1 None keyB keyC 1000 tt)
    (mkTweakedScriptKey (mkKeyDescriptor 212 1 keyD) [x07])
    (mkKeyDescriptor 212 2 keyC)
    keyA time1 zeroTime.

Definition addr2 : AddrWithKeyInfo :=
  mkAddrWithKeyInfo
    (mkTaro 0 gen1 (Some keyD) keyE keyC 5 tt)
    (mkTweakedScriptKey (mkKeyDescriptor 212 1 keyD) [x09])
    (mkKeyDescriptor 212 2 keyC)
    keyB time2 zeroTime.

(** A wallet transaction with two outputs, unconfirmed and confirmed. *)
Definition tx1 : Tx := mkTx (repeat xcc 32) [x02; x00].

Definition walletTx1 : Transaction :=
  mkTransaction tx1 0 "" 0 [mkOutputDetail 700 true; mkOutputDetail 900 false].

Definition walletTx1c : Transaction :=
  mkTransaction tx1 3
    "00000000000000000000000000000000000000000000000000000000000000bb"
    650000 [mkOutputDetail 700 true; mkOutputDetail 900 false].

(** The store after [addr1] and [addr2] were inserted. *)
Definition store2 : Store := snd (InsertAddrs [addr1; addr2] empty_store).

(** An event for [addr1], created on the second output of [tx1] and then
    reported again once the transaction is confirmed. *)
Definition sibling1 : bytes := repeat xdd 32.

Definition noEvent : Event :=
  mkEvent 0 zeroTime addr1 0 (mkOutPoint [] 0) 0 keyA None 0 false.

Definition the_event (r : result Event * Store) : Event :=
  match fst r with
  | Ok e => e
  | _ => noEvent
  end.

Definition created : result Event * Store :=
  GetOrCreateEvent time3 0 addr1 walletTx1 1 (Some sibling1) store2.

Definition store3 : Store := snd created.
Definition event1 : Event := the_event created.

Definition time4 : Time := mkTime 1666000300 0.

Definition updated : result Event * Store :=
  GetOrCreateEvent time4 1 addr1 walletTx1c 1 None store3.

Definition store4 : Store := snd updated.
Definition event2 : Event := the_event updated.

(** [store3] once the asset store holds a proof for the script key of
    [addr1]. *)
Definition store3p : Store :=
  mkStore (internal_keys store3) (script_keys store3) (genesis_points store3)
    (genesis_assets store3) (addrs store3) (chain_txns store3)
    (managed_utxos store3) (addr_events store3)
    [mkAssetProof (serializeCompressed keyB) 7 9].

(** The outpoint of [event1] and the other output of the same transaction. *)
Definition anchor1 : OutPoint := mkOutPoint (tx_hash tx1) 1.
Definition anchor0 : OutPoint := mkOutPoint (tx_hash tx1) 0.

(** [store2] once [addr1] is managed. *)
Definition store2m : Store := snd (SetAddrManaged addr1 time2 store2).


(** The store after [addr1] alone was inserted, and [store3p] after the
    event of [addr1] was completed. *)
Definition store1 : Store := snd (InsertAddrs [addr1] empty_store).

Definition store5 : Store := snd (CompleteEvent event1 2 anchor1 store3p).

(** Another valid address: it has the taproot internal key of [addr1] and
    registers it under another index.  The store after it was inserted
    into [store1]. *)
Definition addr9 : AddrWithKeyInfo :=
  mkAddrWithKeyInfo
    (mkTaro 0 gen1 None keyE keyC 77 tt)
    (mkTweakedScriptKey (mkKeyDescriptor 212 1 keyD) [x0a])
    (mkKeyDescriptor 212 9 keyC)
    keyD time3 zeroTime.

Definition store9 : Store := snd (InsertAddrs [addr9] store1).

(** [addr1] as the book returns it from [store9]. *)
Definition addr1r : AddrWithKeyInfo :=
  mkAddrWithKeyInfo (addr_Taro addr1) (ScriptKeyTweak addr1)
    (mkKeyDescriptor 212 9 keyC) (TaprootOutputKey addr1) (CreationTime addr1)
    zeroTime.

(** The event of [addr1] created with the confirmed transaction and then
    reported again with the same transaction, unconfirmed, with another
    status and with a sibling. *)
Definition created_c : result Event * Store :=
  GetOrCreateEvent time3 1 addr1 walletTx1c 1 None store2.

Definition store3c : Store := snd created_c.
Definition event1c : Event := the_event created_c.

Definition updated_u : result Event * Store :=
  GetOrCreateEvent time4 0 addr1 walletTx1 1 (Some sibling1) store3c.

Definition event2u : Event := the_event updated_u.

(** An event created with the status code 2. *)
Definition created_2 : result Event * Store :=
  GetOrCreateEvent time3 2 addr1 walletTx1 1 None store2.

(** [addr1] as [QueryAddrs] reports it once it is managed. *)
Definition addr1m : AddrWithKeyInfo :=
  mkAddrWithKeyInfo (addr_Taro addr1) (ScriptKeyTweak addr1)
    (InternalKeyDesc addr1) (TaprootOutputKey addr1) (CreationTime addr1) time2.

(** A confirmed transaction whose block hash does not parse. *)
Definition walletTx1x : Transaction :=
  mkTransaction tx1 3 "zz" 650000
    [mkOutputDetail 700 true; mkOutputDetail 900 false].

(** The key without coordinates. *)
Definition emptyKey : Key := mkKey (repeat x00 32) false.

(** A key store in memory: the root keys in the order they were inserted,
    one for an id. *)
Definition memGetRootKey (id : bytes) (db : list MacaroonRootKey)
  : result MacaroonRootKey :=
  match find (fun m => bytes_eqb (mac_ID m) id) db with
  | Some m => Ok m
  | None => Err sql_ErrNoRows
  end.

Definition memInsertRootKey (arg : MacaroonID) (db : list MacaroonRootKey)
  : result unit * list MacaroonRootKey :=
  match find (fun m => bytes_eqb (mac_ID m) (mid_ID arg)) db with
  | Some _ => (Err (ConstraintError "UNIQUE constraint failed: macaroons.id"), db)
  | None => (Ok tt, db ++ [mkMacaroonRootKey (mid_ID arg) (mid_RootKey arg)])
  end.

#[export] Instance memKeyStore : KeyStore (list MacaroonRootKey) := {|
  GetRootKey := memGetRootKey;
  InsertRootKey := memInsertRootKey
|}.

Definition rootKeyID1 : bytes := [x00; x01].
Definition entropy1 : bytes := repeat x5a 32 ++ [x01; x02; x03].

End Example.

(** Closed facts about the example are settled by evaluation. *)
Ltac closed_fact :=
  vm_compute;
  repeat match goal with
         | |- _ /\ _ => split
         | |- forall _, _ => intro
         | H : Some _ = Some _ |- _ => injection H as <-
         end;
  first [reflexivity | discriminate | congruence].

(** * Properties *)

Unset Implicit Arguments.

(** ** Byte strings, integers and tables *)

Lemma bytes_eqb_refl (a : bytes) : bytes_eqb a a = true.
Proof.
  induction a as [|x a IH]; simpl; [reflexivity|].
  rewrite IH, (byte_dec_lb (eq_refl x)). reflexivity.
Qed.

Lemma bytes_eqb_eq (a b : bytes) : bytes_eqb a b = true <-> a = b.
Proof.
  split.
  - revert b. induction a as [|x a IH]; intros [|y b] E; simpl in E;
      try discriminate; [reflexivity|].
    apply andb_true_iff in E. destruct E as [E1 E2].
    apply byte_dec_bl in E1. apply IH in E2. congruence.
  - intros ->. apply bytes_eqb_refl.
Qed.

Lemma bytes_eqb_neq (a b : bytes) : bytes_eqb a b = false <-> a <> b.
Proof.
  split.
  - intros E ->. rewrite bytes_eqb_refl in E. discriminate.
  - intros N. destruct (bytes_eqb a b) eqn:E; [|reflexivity].
    apply bytes_eqb_eq in E. contradiction.
Qed.

Lemma bytes_eqb_sym (a b : bytes) : bytes_eqb a b = bytes_eqb b a.
Proof.
  destruct (bytes_eqb b a) eqn:E.
  - apply bytes_eqb_eq in E. subst. apply bytes_eqb_refl.
  - apply bytes_eqb_neq. apply bytes_eqb_neq in E. congruence.
Qed.

Lemma uint32_int32 (x : Z) : 0 <= x < 2 ^ 32 -> uint32 (int32 x) = x.
Proof.
  intros R. unfold uint32, int32, wrapU, wrapS.
  replace (32 - 1) with 31 by reflexivity.
  rewrite Zminus_mod_idemp_l.
  replace (x + 2 ^ 31 - 2 ^ 31) with x by lia.
  apply Z.mod_small. exact R.
Qed.

Lemma uint64_int64 (x : Z) : 0 <= x < 2 ^ 64 -> uint64 (int64 x) = x.
Proof.
  intros R. unfold uint64, int64, wrapU, wrapS.
  replace (64 - 1) with 63 by reflexivity.
  rewrite Zminus_mod_idemp_l.
  replace (x + 2 ^ 63 - 2 ^ 63) with x by lia.
  apply Z.mod_small. exact R.
Qed.

Lemma uint8_int16 (x : Z) : 0 <= x < 2 ^ 8 -> uint8 (int16 x) = x.
Proof.
  intros R. unfold uint8, int16, wrapU, wrapS.
  replace (16 - 1) with 15 by reflexivity.
  assert (E : (x + 2 ^ 15) mod 2 ^ 16 = x + 2 ^ 15).
  { apply Z.mod_small. change (2 ^ 8) with 256 in R.
    change (2 ^ 15) with 32768. change (2 ^ 16) with 65536. lia. }
  rewrite E. replace (x + 2 ^ 15 - 2 ^ 15) with x by lia.
  apply Z.mod_small. exact R.
Qed.

Section TableFacts.

Context {A : Type}.

Lemma find_id_Some (p : A -> bool) (rows : list A) (id : nat) :
  find_id p rows = Some id ->
  exists r, row_at rows id = Some r /\ p r = true.
Proof.
  revert id. induction rows as [|x rows IH]; intros id E; simpl in E.
  - discriminate.
  - destruct (p x) eqn:Px.
    + injection E as <-. exists x. split; [reflexivity|exact Px].
    + destruct (find_id p rows) as [j|] eqn:F; [|discriminate].
      injection E as <-. destruct (IH j eq_refl) as [r [R Pr]].
      exists r. split; [|exact Pr]. destruct j; [discriminate|exact R].
Qed.

Lemma find_id_None (p : A -> bool) (rows : list A) :
  find_id p rows = None -> forall r, In r rows -> p r = false.
Proof.
  induction rows as [|x rows IH]; intros E r I; simpl in *.
  - contradiction.
  - destruct (p x) eqn:Px; [discriminate|].
    destruct (find_id p rows) eqn:F; [discriminate|].
    destruct I as [<-|I]; [exact Px|]. apply IH; [reflexivity|exact I].
Qed.

Lemma find_id_first (p : A -> bool) (rows : list A) (id : nat) :
  find_id p rows = Some id ->
  forall j r, (0 < j < id)%nat -> row_at rows j = Some r -> p r = false.
Proof.
  revert id. induction rows as [|x rows IH]; intros id E j r J R; simpl in E.
  - discriminate.
  - destruct (p x) eqn:Px.
    + injection E as <-. lia.
    + destruct (find_id p rows) as [i|] eqn:F; [|discriminate].
      injection E as <-. destruct j as [|[|j]]; simpl in R.
      * lia.
      * injection R as <-. exact Px.
      * apply (IH i eq_refl (S j) r); [lia|exact R].
Qed.

Lemma row_at_In (rows : list A) (id : nat) (r : A) :
  row_at rows id = Some r -> In r rows.
Proof.
  destruct id; simpl; [discriminate|]. apply nth_error_In.
Qed.

Lemma row_at_lt (rows : list A) (id : nat) (r : A) :
  row_at rows id = Some r -> (0 < id <= List.length rows)%nat.
Proof.
  destruct id; simpl; [discriminate|]. intros E.
  assert (nth_error rows id <> None) by congruence.
  apply nth_error_Some in H. lia.
Qed.

Lemma find_id_app (p : A -> bool) (rows more : list A) :
  find_id p (rows ++ more) =
  match find_id p rows with
  | Some id => Some id
  | None => option_map (fun i => (List.length rows + i)%nat) (find_id p more)
  end.
Proof.
  induction rows as [|x rows IH]; simpl.
  - destruct (find_id p more); reflexivity.
  - destruct (p x); [reflexivity|]. rewrite IH.
    destruct (find_id p rows); [reflexivity|].
    destruct (find_id p more); reflexivity.
Qed.

Lemma row_at_app_l (rows more : list A) (id : nat) (r : A) :
  row_at rows id = Some r -> row_at (rows ++ more) id = Some r.
Proof.
  destruct id; simpl; [discriminate|]. intros E.
  rewrite nth_error_app1; [exact E|].
  apply nth_error_Some. congruence.
Qed.

Lemma row_at_app_new (rows : list A) (r : A) :
  row_at (rows ++ [r]) (next_id rows) = Some r.
Proof.
  unfold next_id. simpl. rewrite nth_error_app2 by lia.
  rewrite Nat.sub_diag. reflexivity.
Qed.

Lemma length_set_nth (rows : list A) (i : nat) (r : A) :
  List.length (set_nth rows i r) = List.length rows.
Proof.
  revert i. induction rows as [|x rows IH]; intros [|i]; simpl; auto.
Qed.

Lemma length_set_row (rows : list A) (id : nat) (r : A) :
  List.length (set_row rows id r) = List.length rows.
Proof.
  destruct id; simpl; [reflexivity|apply length_set_nth].
Qed.

Lemma nth_set_nth (rows : list A) (i j : nat) (r : A) :
  nth_error (set_nth rows i r) j =
  if Nat.eqb i j then
    match nth_error rows j with Some _ => Some r | None => None end
  else nth_error rows j.
Proof.
  revert i j. induction rows as [|x rows IH]; intros [|i] [|j]; simpl;
    try reflexivity.
  - destruct (Nat.eqb i j); reflexivity.
  - apply IH.
Qed.

Lemma row_at_set_row (rows : list A) (id j : nat) (r : A) :
  row_at (set_row rows id r) j =
  if Nat.eqb id j then
    match row_at rows j with Some _ => Some r | None => None end
  else row_at rows j.
Proof.
  destruct id as [|i], j as [|j]; simpl; try reflexivity.
  apply nth_set_nth.
Qed.

End TableFacts.

Section UpsertFacts.

Context {A : Type}.

Lemma find_find_id (p : A -> bool) (rows : list A) :
  find p rows =
  match find_id p rows with
  | Some id => row_at rows id
  | None => None
  end.
Proof.
  induction rows as [|x rows IH]; simpl; [reflexivity|].
  destruct (p x); [reflexivity|]. rewrite IH.
  destruct (find_id p rows) as [[|i]|] eqn:F; simpl; try reflexivity.
  apply find_id_Some in F. destruct F as [r [R _]]. discriminate.
Qed.

Lemma find_id_set_nth (q : A -> bool) (rows : list A) (i : nat) (old r : A) :
  nth_error rows i = Some old -> q r = q old ->
  find_id q (set_nth rows i r) = find_id q rows.
Proof.
  revert i. induction rows as [|x rows IH]; intros [|i] E Q; simpl in *;
    try discriminate.
  - injection E as ->. rewrite Q. reflexivity.
  - rewrite (IH i E Q). reflexivity.
Qed.

Lemma find_id_set_row (q : A -> bool) (rows : list A) (id : nat) (old r : A) :
  row_at rows id = Some old -> q r = q old ->
  find_id q (set_row rows id r) = find_id q rows.
Proof.
  destruct id; simpl; [discriminate|]. apply find_id_set_nth.
Qed.

(** The two ways an upsert goes. *)
Lemma upsert_cases (conflict : A -> bool) (merge : A -> A) (new : A)
  (rows rows' : list A) (id : nat) :
  upsert conflict merge new rows = (id, rows') ->
  (exists old, find_id conflict rows = Some id /\ row_at rows id = Some old /\
               conflict old = true /\ rows' = set_row rows id (merge old)) \/
  (find_id conflict rows = None /\ id = next_id rows /\ rows' = rows ++ [new]).
Proof.
  unfold upsert. intros E. destruct (find_id conflict rows) as [i|] eqn:F.
  - destruct (find_id_Some _ _ _ F) as [old [R C]]. rewrite R in E.
    injection E as <- <-. left. exists old. auto.
  - injection E as <- <-. right. auto.
Qed.

(** The row an upsert returns is there afterwards. *)
Lemma upsert_result (conflict : A -> bool) (merge : A -> A) (new : A)
  (rows rows' : list A) (id : nat) :
  upsert conflict merge new rows = (id, rows') ->
  exists r, row_at rows' id = Some r /\
            (r = new \/ exists old, row_at rows id = Some old /\ r = merge old).
Proof.
  intros E. destruct (upsert_cases _ _ _ _ _ _ E)
    as [[old [F [R [C ->]]]]|[F [-> ->]]].
  - exists (merge old). split.
    + rewrite row_at_set_row, Nat.eqb_refl, R. reflexivity.
    + right. exists old. auto.
  - exists new. split; [apply row_at_app_new|left; reflexivity].
Qed.

(** Every other row is as before. *)
Lemma upsert_other (conflict : A -> bool) (merge : A -> A) (new : A)
  (rows rows' : list A) (id j : nat) (r : A) :
  upsert conflict merge new rows = (id, rows') ->
  j <> id -> row_at rows j = Some r -> row_at rows' j = Some r.
Proof.
  intros E N R. destruct (upsert_cases _ _ _ _ _ _ E)
    as [[old [F [Ro [C ->]]]]|[F [-> ->]]].
  - rewrite row_at_set_row. destruct (Nat.eqb id j) eqn:Q; [|exact R].
    apply Nat.eqb_eq in Q. congruence.
  - apply row_at_app_l. exact R.
Qed.

(** A row that does not conflict is as before. *)
Lemma upsert_keeps (conflict : A -> bool) (merge : A -> A) (new : A)
  (rows rows' : list A) (id j : nat) (r : A) :
  upsert conflict merge new rows = (id, rows') ->
  row_at rows j = Some r -> conflict r = false -> row_at rows' j = Some r.
Proof.
  intros E R C. apply (upsert_other _ _ _ _ _ _ _ _ E); [|exact R].
  intros ->. destruct (upsert_cases _ _ _ _ _ _ E)
    as [[old [F [Ro [Co _]]]]|[F [Eid _]]].
  - congruence.
  - apply row_at_lt in R. unfold next_id in Eid. lia.
Qed.

(** A row that is there stays there, possibly merged. *)
Lemma upsert_stays (conflict : A -> bool) (merge : A -> A) (new : A)
  (rows rows' : list A) (id j : nat) (r : A) :
  upsert conflict merge new rows = (id, rows') ->
  row_at rows j = Some r ->
  row_at rows' j = Some r \/ (j = id /\ row_at rows' j = Some (merge r)).
Proof.
  intros E R. destruct (Nat.eq_dec j id) as [->|N].
  - destruct (upsert_cases _ _ _ _ _ _ E)
      as [[old [F [Ro [Co ->]]]]|[F [Eid _]]].
    + right. split; [reflexivity|].
      rewrite row_at_set_row, Nat.eqb_refl, Ro. congruence.
    + apply row_at_lt in R. unfold next_id in Eid. lia.
  - left. apply (upsert_other _ _ _ _ _ _ _ _ E N R).
Qed.

Lemma upsert_length (conflict : A -> bool) (merge : A -> A) (new : A)
  (rows rows' : list A) (id : nat) :
  upsert conflict merge new rows = (id, rows') ->
  (List.length rows <= List.length rows')%nat.
Proof.
  intros E. destruct (upsert_cases _ _ _ _ _ _ E)
    as [[old [F [Ro [C ->]]]]|[F [-> ->]]].
  - rewrite length_set_row. lia.
  - rewrite length_app. simpl. lia.
Qed.

(** A search whose answer the merge does not change finds the same row. *)
Lemma upsert_find_id (conflict q : A -> bool) (merge : A -> A) (new : A)
  (rows rows' : list A) (id i : nat) :
  upsert conflict merge new rows = (id, rows') ->
  (forall old, conflict old = true -> q (merge old) = q old) ->
  find_id q rows = Some i -> find_id q rows' = Some i.
Proof.
  intros E M F. destruct (upsert_cases _ _ _ _ _ _ E)
    as [[old [Fc [Ro [C ->]]]]|[Fc [-> ->]]].
  - rewrite (find_id_set_row q _ _ _ _ Ro (M old C)). exact F.
  - rewrite find_id_app, F. reflexivity.
Qed.

(** After an upsert the search for the conflict finds the returned row. *)
Lemma upsert_find_conflict (conflict : A -> bool) (merge : A -> A) (new : A)
  (rows rows' : list A) (id : nat) :
  upsert conflict merge new rows = (id, rows') ->
  (forall old, conflict old = true -> conflict (merge old) = true) ->
  conflict new = true ->
  find_id conflict rows' = Some id.
Proof.
  intros E M N. destruct (upsert_cases _ _ _ _ _ _ E)
    as [[old [Fc [Ro [C ->]]]]|[Fc [-> ->]]].
  - rewrite (find_id_set_row conflict _ _ old _ Ro); [exact Fc|].
    rewrite (M old C), C. reflexivity.
  - rewrite find_id_app, Fc. simpl. rewrite N. simpl.
    unfold next_id. f_equal. lia.
Qed.

End UpsertFacts.

Section Properties.

Context {ext : External} {pkgs : TaroPackages}.

(** ** Transactions *)

Lemma bind_Ok {A B : Type} (m : Tx A) (k : A -> Tx B) (s s2 : Store) (b : B) :
  bind m k s = (Ok b, s2) ->
  exists a s1, m s = (Ok a, s1) /\ k a s1 = (Ok b, s2).
Proof.
  unfold bind. destruct (m s) as [[a|e|p] s1]; intros E; try discriminate.
  exists a, s1. auto.
Qed.

Lemma wrapf_Ok {A : Type} (msg : string) (m : Tx A) (s s1 : Store) (a : A) :
  wrapf msg m s = (Ok a, s1) -> m s = (Ok a, s1).
Proof.
  unfold wrapf. destruct (m s) as [[x|e|p] s']; intros E;
    try discriminate; exact E.
Qed.

Lemma ExecTx_Ok {A : Type} (ro : bool) (m : Tx A) (s s1 : Store) (a : A) :
  ExecTx ro m s = (Ok a, s1) -> m s = (Ok a, s1).
Proof.
  unfold ExecTx. destruct (m s) as [[x|e|p] s']; intros E;
    try discriminate; exact E.
Qed.

(** Rollback: a transaction that does not commit leaves the store alone. *)
Lemma ExecTx_rollback {A : Type} (ro : bool) (m : Tx A) (s s1 : Store)
  (r : result A) :
  ExecTx ro m s = (r, s1) -> is_Ok r = false -> s1 = s.
Proof.
  unfold ExecTx. destruct (m s) as [[x|e|p] s']; intros E N;
    injection E as <- <-; [discriminate| |]; reflexivity.
Qed.

Lemma rbind_Ok {A B : Type} (r : result A) (k : A -> result B) (b : B) :
  rbind r k = Ok b -> exists a, r = Ok a /\ k a = Ok b.
Proof.
  destruct r as [a|e|p]; simpl; intros E; try discriminate. exists a. auto.
Qed.

Lemma rwrapf_Ok {A : Type} (msg : string) (r : result A) (a : A) :
  rwrapf msg r = Ok a -> r = Ok a.
Proof.
  destruct r; simpl; intros E; try discriminate; exact E.
Qed.

Lemma no_panic_bind {A B : Type} (m : Tx A) (k : A -> Tx B) :
  no_panic m -> (forall a, no_panic (k a)) -> no_panic (bind m k).
Proof.
  intros Hm Hk s p. unfold bind. specialize (Hm s).
  destruct (m s) as [[a|e|q] s1]; simpl in *.
  - apply Hk.
  - discriminate.
  - exfalso. apply (Hm q). reflexivity.
Qed.

Lemma no_panic_wrapf {A : Type} (msg : string) (m : Tx A) :
  no_panic m -> no_panic (wrapf msg m).
Proof.
  intros Hm s p. unfold wrapf. specialize (Hm s).
  destruct (m s) as [[a|e|q] s1]; simpl in *; try discriminate.
  apply Hm.
Qed.

Lemma no_panic_lift {A : Type} (r : result A) :
  (forall p, r <> Panic p) -> no_panic (lift r).
Proof. intros H s p. apply H. Qed.

Lemma no_panic_query {A : Type} (f : Store -> result A) :
  (forall s p, f s <> Panic p) -> no_panic (query f).
Proof. intros H s p. apply H. Qed.

Lemma rbind_no_panic {A B : Type} (r : result A) (k : A -> result B) :
  (forall p, r <> Panic p) -> (forall a p, k a <> Panic p) ->
  forall p, rbind r k <> Panic p.
Proof.
  intros Hr Hk p. destruct r as [a|e|q]; simpl.
  - apply Hk.
  - discriminate.
  - exfalso. apply (Hr q). reflexivity.
Qed.

Lemma rwrapf_no_panic {A : Type} (msg : string) (r : result A) :
  (forall p, r <> Panic p) -> forall p, rwrapf msg r <> Panic p.
Proof.
  intros Hr p. destruct r as [a|e|q]; simpl; try discriminate. apply Hr.
Qed.

Lemma orDecodeError_no_panic {A : Type} (what : string) (o : option A) :
  forall p, orDecodeError what o <> Panic p.
Proof. destruct o; simpl; discriminate. Qed.

(** ** No query of the store panics *)

Lemma UpsertChainTx_no_panic (row : ChainTx_row) : no_panic (UpsertChainTx row).
Proof.
  intros s p. unfold UpsertChainTx. destruct (upsert _ _ _ _). discriminate.
Qed.

Lemma UpsertManagedUTXO_no_panic (arg : RawManagedUTXO) :
  no_panic (UpsertManagedUTXO arg).
Proof.
  intros s p. unfold UpsertManagedUTXO. destruct (find_id _ _).
  - destruct (upsert _ _ _ _). discriminate.
  - discriminate.
Qed.

Lemma UpsertAddrEvent_no_panic (arg : UpsertAddrEventParams) :
  no_panic (UpsertAddrEvent arg).
Proof.
  intros s p. unfold UpsertAddrEvent. destruct (negb _); [discriminate|].
  destruct (find_id _ (addrs s)); [|discriminate].
  destruct (find_id _ (chain_txns s)); [|discriminate].
  destruct (upsert _ _ _ _). discriminate.
Qed.

Lemma btcec_ParsePubKey_no_panic (b : bytes) :
  forall p, btcec_ParsePubKey b <> Panic p.
Proof. apply orDecodeError_no_panic. Qed.

Lemma fetchEvent_no_panic (id : nat) (addr : AddrWithKeyInfo) (s : Store) :
  forall p, fetchEvent id addr s <> Panic p.
Proof.
  unfold fetchEvent. apply rbind_no_panic.
  - apply rwrapf_no_panic. unfold FetchAddrEvent.
    destruct (row_at _ _); discriminate.
  - intros dbEvent. apply rbind_no_panic.
    + apply rwrapf_no_panic, btcec_ParsePubKey_no_panic.
    + intros k. apply rbind_no_panic.
      * apply rwrapf_no_panic, orDecodeError_no_panic.
      * discriminate.
Qed.

Lemma txUpsert_no_panic (walletTx : Transaction) (txHash txBuf : bytes) :
  forall p, txUpsert walletTx txHash txBuf <> Panic p.
Proof.
  unfold txUpsert. destruct (0 <? _); [|discriminate].
  apply rbind_no_panic.
  - apply rwrapf_no_panic, orDecodeError_no_panic.
  - discriminate.
Qed.

Lemma getOrCreateEventTx_no_panic now status addr walletTx outputIdx sib
  txHash txBuf opb od :
  no_panic (getOrCreateEventTx now status addr walletTx outputIdx sib
              txHash txBuf opb od).
Proof.
  unfold getOrCreateEventTx.
  apply no_panic_bind; [apply no_panic_lift, txUpsert_no_panic|intros row].
  apply no_panic_bind;
    [apply no_panic_wrapf, UpsertChainTx_no_panic|intros chainTxID].
  apply no_panic_bind.
  { apply no_panic_lift, rwrapf_no_panic.
    destruct (TaroCommitment addr); discriminate. }
  intros c.
  apply no_panic_bind;
    [apply no_panic_wrapf, UpsertManagedUTXO_no_panic|intros utxoID].
  apply no_panic_bind;
    [apply no_panic_wrapf, UpsertAddrEvent_no_panic|intros eventID].
  apply no_panic_query. intros s p. apply fetchEvent_no_panic.
Qed.

Lemma ExecTx_no_panic {A : Type} (ro : bool) (m : Tx A) (s : Store) :
  no_panic m -> forall p, fst (ExecTx ro m s) <> Panic p.
Proof.
  intros H p. unfold ExecTx. specialize (H s).
  destruct (m s) as [[a|e|q] s1]; simpl in *; try discriminate.
  apply H.
Qed.

Lemma index_Some {A : Type} (l : list A) (i : Z) :
  0 <= i < Z.of_nat (List.length l) -> exists x, index l i = Some x.
Proof.
  intros R. unfold index.
  destruct (i <? 0) eqn:N; [apply Z.ltb_lt in N; lia|].
  destruct (nth_error l (Z.to_nat i)) as [x|] eqn:E; [exists x; reflexivity|].
  apply nth_error_None in E. lia.
Qed.

Lemma index_None {A : Type} (l : list A) (i : Z) :
  ~ (0 <= i < Z.of_nat (List.length l)) -> index l i = None.
Proof.
  intros R. unfold index.
  destruct (i <? 0) eqn:N; [reflexivity|]. apply Z.ltb_ge in N.
  apply nth_error_None. lia.
Qed.

(** C10.  [GetOrCreateEvent] indexes [walletTx.OutputDetails] with
    [outputIdx] without a check.  Once the transaction and the outpoint are
    serialized, a call with [outputIdx] below the number of output details
    does not panic, and every call with an index out of that range panics
    with an index-out-of-range error: it does not return an error, and the
    store is as before. *)
Theorem GetOrCreateEvent_output_index :
  forall now status addr walletTx outputIdx sib s txBuf opb,
    Serialize (tx_Tx walletTx) = Some txBuf ->
    encodeOutpoint (mkOutPoint (TxHash (tx_Tx walletTx)) outputIdx) = Some opb ->
    (0 <= outputIdx < Z.of_nat (List.length (tx_OutputDetails walletTx)) ->
     forall p,
       fst (GetOrCreateEvent now status addr walletTx outputIdx sib s) <> Panic p) /\
    (~ (0 <= outputIdx < Z.of_nat (List.length (tx_OutputDetails walletTx))) ->
     GetOrCreateEvent now status addr walletTx outputIdx sib s =
       (Panic "index out of range", s)).
Proof.
  intros now status addr walletTx outputIdx sib s txBuf opb HS HE.
  unfold GetOrCreateEvent. rewrite HS, HE. split.
  - intros R p. destruct (index_Some _ _ R) as [od ->].
    apply ExecTx_no_panic, getOrCreateEventTx_no_panic.
  - intros R. rewrite (index_None _ _ R). reflexivity.
Qed.

(** ** Reading one address *)

Lemma parseFamKey_Ok (msg : string) (fam : option bytes) (k : option PublicKey) :
  parseFamKey msg fam = Ok k ->
  match fam with
  | None => k = None
  | Some b => exists pk, ParsePubKey b = Some pk /\ k = Some pk
  end.
Proof.
  unfold parseFamKey. destruct fam as [b|]; intros E.
  - unfold btcec_ParsePubKey in E. destruct (ParsePubKey b) as [pk|];
      simpl in E; [|discriminate].
    injection E as <-. exists pk. auto.
  - injection E as <-. reflexivity.
Qed.

Lemma parseFamKey_decodes (msg : string) (fam : option bytes) :
  (forall b, fam = Some b -> ParsePubKey b <> None) ->
  exists k, parseFamKey msg fam = Ok k.
Proof.
  intros H. unfold parseFamKey, btcec_ParsePubKey. destruct fam as [b|].
  - destruct (ParsePubKey b) as [pk|] eqn:E.
    + exists (Some pk). reflexivity.
    + exfalso. apply (H b eq_refl E).
  - exists None. reflexivity.
Qed.

(** What [fetchAddr] returns when it returns an address. *)
Lemma fetchAddr_Ok (params : ChainParams) (key : PublicKey) (s : Store)
  (addr : AddrWithKeyInfo) :
  fetchAddr params key s = Ok addr ->
  exists dbAddr genesis famKey rawScriptKey scriptKey internalKey,
    FetchAddrByTaprootOutputKey (schnorr_SerializePubKey key) s = Ok dbAddr /\
    fetchGenesis (r_GenesisAssetID dbAddr) s = Ok genesis /\
    parseFamKey "unable to decode fam key" (r_FamKey dbAddr) = Ok famKey /\
    ParsePubKey (r_RawScriptKey dbAddr) = Some rawScriptKey /\
    ParsePubKey (r_TweakedScriptKey dbAddr) = Some scriptKey /\
    ParsePubKey (r_RawTaprootKey dbAddr) = Some internalKey /\
    addr =
      mkAddrWithKeyInfo
        (mkTaro (uint8 (r_Version dbAddr)) genesis famKey scriptKey
           internalKey (uint64 (r_Amount dbAddr)) params)
        (mkTweakedScriptKey
           (mkKeyDescriptor (uint32 (r_ScriptKeyFamily dbAddr))
              (uint32 (r_ScriptKeyIndex dbAddr)) rawScriptKey)
           (r_ScriptKeyTweak dbAddr))
        (mkKeyDescriptor (uint32 (r_TaprootKeyFamily dbAddr))
           (uint32 (r_TaprootKeyIndex dbAddr)) internalKey)
        key (r_CreationTime dbAddr) zeroTime.
Proof.
  unfold fetchAddr.
  destruct (FetchAddrByTaprootOutputKey _ s) as [dbAddr|e|p]; intros E.
  - apply rbind_Ok in E. destruct E as [g [Eg E]]. apply rwrapf_Ok in Eg.
    apply rbind_Ok in E. destruct E as [fam [Ef E]].
    apply rbind_Ok in E. destruct E as [rsk [Er E]]. apply rwrapf_Ok in Er.
    apply rbind_Ok in E. destruct E as [sk [Es E]]. apply rwrapf_Ok in Es.
    apply rbind_Ok in E. destruct E as [ik [Ei E]]. apply rwrapf_Ok in Ei.
    injection E as <-.
    unfold btcec_ParsePubKey, orDecodeError in Er, Es, Ei.
    destruct (ParsePubKey (r_RawScriptKey dbAddr)) eqn:P1; [|discriminate].
    destruct (ParsePubKey (r_TweakedScriptKey dbAddr)) eqn:P2; [|discriminate].
    destruct (ParsePubKey (r_RawTaprootKey dbAddr)) eqn:P3; [|discriminate].
    injection Er as ->. injection Es as ->. injection Ei as ->.
    exists dbAddr, g, fam, rsk, sk, ik. repeat split; auto.
  - destruct (errors_Is e sql_ErrNoRows); discriminate.
  - discriminate.
Qed.

Lemma FetchAddrByTaprootOutputKey_absent (key : bytes) (s : Store) :
  (forall a, In a (addrs s) -> taproot_output_key a <> key) ->
  FetchAddrByTaprootOutputKey key s = Err sql_ErrNoRows.
Proof.
  intros H. unfold FetchAddrByTaprootOutputKey.
  destruct (find _ (addrs s)) as [a|] eqn:F; [|reflexivity].
  apply find_some in F. destruct F as [I E]. apply bytes_eqb_eq in E.
  exfalso. apply (H a I E).
Qed.

Lemma find_present {A : Type} (p : A -> bool) (l : list A) (x : A) :
  In x l -> p x = true -> exists y, find p l = Some y.
Proof.
  intros I P. destruct (find p l) as [y|] eqn:F; [exists y; reflexivity|].
  rewrite (find_none _ _ F x I) in P. discriminate.
Qed.

(** [fetchAddr] succeeds for a key under which a row is stored that
    decodes. *)
Lemma fetchAddr_decodes (params : ChainParams) (key : PublicKey) (s : Store) :
  (exists a, In a (addrs s) /\
             taproot_output_key a = schnorr_SerializePubKey key) ->
  (forall a, In a (addrs s) ->
             taproot_output_key a = schnorr_SerializePubKey key ->
             row_decodes s a) ->
  exists addr, fetchAddr params key s = Ok addr.
Proof.
  intros [a0 [I0 K0]] D.
  destruct (find_present
              (fun a => bytes_eqb (taproot_output_key a)
                          (schnorr_SerializePubKey key))
              (addrs s) a0 I0) as [a F].
  { apply bytes_eqb_eq. exact K0. }
  pose proof (find_some _ _ F) as [I K]. apply bytes_eqb_eq in K.
  destruct (D a I K) as [r [g [J [G [Pf [P1 [P2 P3]]]]]]].
  assert (Efam : r_FamKey r = fam_key a).
  { unfold join_addr in J. destruct (row_at (script_keys s) _); [|discriminate].
    destruct (row_at (internal_keys s) _); [|discriminate].
    destruct (row_at (internal_keys s) _); [|discriminate].
    injection J as <-. reflexivity. }
  assert (Egen : r_GenesisAssetID r = genesis_asset_id a).
  { unfold join_addr in J. destruct (row_at (script_keys s) _); [|discriminate].
    destruct (row_at (internal_keys s) _); [|discriminate].
    destruct (row_at (internal_keys s) _); [|discriminate].
    injection J as <-. reflexivity. }
  destruct (parseFamKey_decodes "unable to decode fam key" (fam_key a) Pf)
    as [fam Ef].
  destruct (ParsePubKey (r_RawScriptKey r)) as [k1|] eqn:E1; [|contradiction].
  destruct (ParsePubKey (r_TweakedScriptKey r)) as [k2|] eqn:E2; [|contradiction].
  destruct (ParsePubKey (r_RawTaprootKey r)) as [k3|] eqn:E3; [|contradiction].
  unfold fetchAddr, FetchAddrByTaprootOutputKey.
  rewrite F, J, Egen, G, Efam, Ef. simpl.
  unfold btcec_ParsePubKey. rewrite E1, E2, E3. simpl.
  eexists. reflexivity.
Qed.

(** C5.  For a taproot output key under which no address is stored,
    [AddrByTaprootOutput] fails with [address.ErrNoAddr] itself, which is
    not the [sql.ErrNoRows] of the storage layer; for a key under which an
    address is stored (and decodes) it returns an address. *)
Theorem AddrByTaprootOutput_ErrNoAddr :
  forall params key s,
    ((forall a, In a (addrs s) ->
                taproot_output_key a <> schnorr_SerializePubKey key) ->
     AddrByTaprootOutput params key s = (Err address_ErrNoAddr, s) /\
     errors_Is address_ErrNoAddr sql_ErrNoRows = false) /\
    ((exists a, In a (addrs s) /\
                taproot_output_key a = schnorr_SerializePubKey key) ->
     (forall a, In a (addrs s) ->
                taproot_output_key a = schnorr_SerializePubKey key ->
                row_decodes s a) ->
     exists addr, AddrByTaprootOutput params key s = (Ok addr, s)).
Proof.
  intros params key s. split.
  - intros H. split; [|reflexivity].
    unfold AddrByTaprootOutput, ExecTx, query, fetchAddr.
    rewrite (FetchAddrByTaprootOutputKey_absent _ _ H). reflexivity.
  - intros E D. destruct (fetchAddr_decodes params key s E D) as [addr F].
    exists addr. unfold AddrByTaprootOutput, ExecTx, query. rewrite F.
    reflexivity.
Qed.

(** ** Reading many addresses *)

Lemma queryAddr_Ok (params : ChainParams) (s : Store) (r : Addresses)
  (addr : AddrWithKeyInfo) :
  queryAddr params s r = Ok addr ->
  exists genesis famKey rawScriptKey internalKey scriptKey taprootOutputKey,
    fetchGenesis (r_GenesisAssetID r) s = Ok genesis /\
    parseFamKey "unable to decode fam key" (r_FamKey r) = Ok famKey /\
    ParsePubKey (r_RawScriptKey r) = Some rawScriptKey /\
    ParsePubKey (r_RawTaprootKey r) = Some internalKey /\
    ParsePubKey (r_TweakedScriptKey r) = Some scriptKey /\
    schnorr_ParsePubKey (r_TaprootOutputKey r) = Some taprootOutputKey /\
    addr =
      mkAddrWithKeyInfo
        (mkTaro (uint8 (r_Version r)) genesis famKey scriptKey
           internalKey (uint64 (r_Amount r)) params)
        (mkTweakedScriptKey
           (mkKeyDescriptor (uint32 (r_ScriptKeyFamily r))
              (uint32 (r_ScriptKeyIndex r)) rawScriptKey)
           (r_ScriptKeyTweak r))
        (mkKeyDescriptor (uint32 (r_TaprootKeyFamily r))
           (uint32 (r_TaprootKeyIndex r)) internalKey)
        taprootOutputKey (r_CreationTime r)
        (match r_ManagedFrom r with Some t => t | None => zeroTime end).
Proof.
  unfold queryAddr. intros E.
  apply rbind_Ok in E. destruct E as [g [Eg E]]. apply rwrapf_Ok in Eg.
  apply rbind_Ok in E. destruct E as [fam [Ef E]].
  apply rbind_Ok in E. destruct E as [rsk [Er E]]. apply rwrapf_Ok in Er.
  apply rbind_Ok in E. destruct E as [ik [Ei E]]. apply rwrapf_Ok in Ei.
  apply rbind_Ok in E. destruct E as [sk [Es E]].
  apply rbind_Ok in E. destruct E as [tok [Et E]]. apply rwrapf_Ok in Et.
  injection E as <-.
  unfold btcec_ParsePubKey, schnorr_ParsePubKey_r, orDecodeError in Er, Es, Ei, Et.
  destruct (ParsePubKey (r_RawScriptKey r)) eqn:P1; [|discriminate].
  destruct (ParsePubKey (r_TweakedScriptKey r)) eqn:P2; [|discriminate].
  destruct (ParsePubKey (r_RawTaprootKey r)) eqn:P3; [|discriminate].
  destruct (schnorr_ParsePubKey (r_TaprootOutputKey r)) eqn:P4; [|discriminate].
  injection Er as ->. injection Es as ->. injection Ei as ->. injection Et as ->.
  exists g, fam, rsk, ik, sk, tok. repeat split; auto.
Qed.

Lemma queryAddrsLoop_Ok (params : ChainParams) (s : Store)
  (rows : list Addresses) (l : list AddrWithKeyInfo) :
  queryAddrsLoop params s rows = Ok l ->
  Forall2 (fun r addr => queryAddr params s r = Ok addr) rows l.
Proof.
  revert l. induction rows as [|r rows IH]; intros l E; simpl in E.
  - injection E as <-. constructor.
  - apply rbind_Ok in E. destruct E as [a [Ea E]].
    apply rbind_Ok in E. destruct E as [l' [El E]]. injection E as <-.
    constructor; [exact Ea|apply IH; exact El].
Qed.

Lemma In_filter_map {A B : Type} (f : A -> option B) (l : list A) (y : B) :
  In y (filter_map f l) <-> exists x, In x l /\ f x = Some y.
Proof.
  induction l as [|x l IH]; simpl.
  - split; [contradiction|intros [x [[] _]]].
  - destruct (f x) as [z|] eqn:E; simpl; rewrite IH; split.
    + intros [<-|[x' [I F]]]; [exists x; auto|exists x'; auto].
    + intros [x' [[<-|I] F]]; [left; congruence|right; exists x'; auto].
    + intros [x' [I F]]. exists x'. auto.
    + intros [x' [[<-|I] F]]; [congruence|exists x'; auto].
Qed.

Lemma In_sql_limit {A : Type} (n : Z) (l : list A) (x : A) :
  In x (sql_limit n l) -> In x l.
Proof.
  unfold sql_limit. destruct (n <? 0); [auto|].
  intros I. rewrite <- (firstn_skipn (Z.to_nat n) l). apply in_or_app. auto.
Qed.

Lemma In_sql_offset {A : Type} (n : Z) (l : list A) (x : A) :
  In x (sql_offset n l) -> In x l.
Proof.
  unfold sql_offset. intros I.
  rewrite <- (firstn_skipn (Z.to_nat n) l). apply in_or_app. auto.
Qed.

Lemma FetchAddrs_In (q : AddrQuery) (s : Store) (rows : list Addresses)
  (r : Addresses) :
  FetchAddrs q s = Ok rows -> In r rows ->
  exists a, In a (addrs s) /\ addr_matches q a = true /\ join_addr s a = Some r.
Proof.
  unfold FetchAddrs. intros E I. injection E as <-.
  apply In_sql_limit, In_sql_offset, In_filter_map in I.
  destruct I as [a [I J]]. apply filter_In in I. destruct I as [I M].
  exists a. auto.
Qed.

Lemma join_addr_fields (s : Store) (a : Addr_row) (r : Addresses) :
  join_addr s a = Some r ->
  r_Version r = version a /\ r_GenesisAssetID r = genesis_asset_id a /\
  r_FamKey r = fam_key a /\ r_TaprootOutputKey r = taproot_output_key a /\
  r_Amount r = amount a /\ r_CreationTime r = creation_time a /\
  r_ManagedFrom r = managed_from a.
Proof.
  unfold join_addr. destruct (row_at (script_keys s) _); [|discriminate].
  destruct (row_at (internal_keys s) _); [|discriminate].
  destruct (row_at (internal_keys s) _); [|discriminate].
  intros E. injection E as <-. simpl. repeat split.
Qed.

Lemma QueryAddrs_Ok (params : ChainParams) (q : QueryParams) (s : Store)
  (l : list AddrWithKeyInfo) :
  fst (QueryAddrs params q s) = Ok l ->
  exists query rows,
    FetchAddrs query s = Ok rows /\
    Forall2 (fun r addr => queryAddr params s r = Ok addr) rows l.
Proof.
  unfold QueryAddrs, ExecTx, bind, query. simpl. intros E.
  match type of E with
  | context [queryAddrsLoop params s ?rows] =>
      destruct (queryAddrsLoop params s rows) as [l'|e|p] eqn:L;
      simpl in E; try discriminate
  end.
  injection E as <-. eexists _, _. split; [reflexivity|].
  apply queryAddrsLoop_Ok. exact L.
Qed.

(** The events that [QueryAddrEvents] returns carry addresses read by
    [fetchAddr]. *)
Lemma queryAddrEventsLoop_addr (params : ChainParams) (s : Store)
  (ids : list AddrEventID) (l : list Event) :
  queryAddrEventsLoop params s ids = Ok l ->
  Forall (fun e => exists key, fetchAddr params key s = Ok (ev_Addr e)) l.
Proof.
  revert l. induction ids as [|i ids IH]; intros l E; simpl in E.
  - injection E as <-. constructor.
  - apply rbind_Ok in E. destruct E as [e [Ee E]].
    apply rbind_Ok in E. destruct E as [l' [El E]]. injection E as <-.
    constructor; [|apply IH; exact El].
    unfold queryAddrEvent in Ee.
    apply rbind_Ok in Ee. destruct Ee as [key [_ Ee]].
    apply rbind_Ok in Ee. destruct Ee as [addr [Ea Ee]].
    apply rwrapf_Ok in Ea. apply rwrapf_Ok in Ee.
    unfold fetchEvent in Ee.
    apply rbind_Ok in Ee. destruct Ee as [x [_ Ee]].
    apply rbind_Ok in Ee. destruct Ee as [y [_ Ee]].
    apply rbind_Ok in Ee. destruct Ee as [z [_ Ee]].
    injection Ee as <-. simpl. exists key. exact Ea.
Qed.

(** C9.  [AddrByTaprootOutput] returns every address with the zero
    managed-after time, whatever the store holds (so also after
    [SetAddrManaged]): what it returns has the zero time, and for a stored
    address (that decodes) it does return; the addresses inside the events
    of [QueryAddrEvents] are read the same way; [QueryAddrs] is the one that
    reports the managed-from time of the row. *)
Theorem ManagedAfter_only_from_QueryAddrs :
  forall params s,
    (forall key addr,
        fst (AddrByTaprootOutput params key s) = Ok addr ->
        ManagedAfter addr = zeroTime) /\
    (forall key,
        (exists a, In a (addrs s) /\
                   taproot_output_key a = schnorr_SerializePubKey key) ->
        (forall a, In a (addrs s) ->
                   taproot_output_key a = schnorr_SerializePubKey key ->
                   row_decodes s a) ->
        exists addr,
          AddrByTaprootOutput params key s = (Ok addr, s) /\
          ManagedAfter addr = zeroTime) /\
    (forall q l,
        fst (QueryAddrEvents params q s) = Ok l ->
        Forall (fun e => ManagedAfter (ev_Addr e) = zeroTime) l) /\
    (forall q l,
        fst (QueryAddrs params q s) = Ok l ->
        Forall (fun addr =>
                  exists a, In a (addrs s) /\
                    schnorr_ParsePubKey (taproot_output_key a) =
                      Some (TaprootOutputKey addr) /\
                    ManagedAfter addr = managed_time a) l).
Proof.
  intros params s. split; [|split; [|split]].
  - intros key addr E. unfold AddrByTaprootOutput, ExecTx, query in E.
    destruct (fetchAddr params key s) as [a|e|p] eqn:F; simpl in E;
      try discriminate.
    injection E as <-. apply fetchAddr_Ok in F.
    destruct F as [? [? [? [? [? [? [_ [_ [_ [_ [_ [_ ->]]]]]]]]]]]].
    reflexivity.
  - intros key E D. destruct (fetchAddr_decodes params key s E D) as [addr F].
    exists addr. split.
    + unfold AddrByTaprootOutput, ExecTx, query. rewrite F. reflexivity.
    + apply fetchAddr_Ok in F.
      destruct F as [? [? [? [? [? [? [_ [_ [_ [_ [_ [_ ->]]]]]]]]]]]].
      reflexivity.
  - intros q l E. unfold QueryAddrEvents, ExecTx, bind, wrapf, query in E.
    simpl in E.
    match type of E with
    | context [queryAddrEventsLoop params s ?ids] =>
        destruct (queryAddrEventsLoop params s ids) as [l'|e|p] eqn:L;
        simpl in E; try discriminate
    end.
    injection E as <-. apply queryAddrEventsLoop_addr in L.
    eapply Forall_impl; [|exact L]. intros e [key F]. simpl in F.
    apply fetchAddr_Ok in F.
    destruct F as [? [? [? [? [? [? [_ [_ [_ [_ [_ [_ ->]]]]]]]]]]]].
    reflexivity.
  - intros q l E. apply QueryAddrs_Ok in E.
    destruct E as [query [rows [F L]]].
    assert (H : forall r, In r rows ->
                exists a, In a (addrs s) /\ join_addr s a = Some r).
    { intros r I. destruct (FetchAddrs_In _ _ _ _ F I) as [a [Ia [_ J]]].
      exists a. auto. }
    clear F. induction L as [|r addr rows l Q L IH]; constructor.
    + destruct (H r (or_introl eq_refl)) as [a [Ia J]].
      apply join_addr_fields in J.
      destruct J as [_ [_ [_ [Jk [_ [_ Jm]]]]]].
      apply queryAddr_Ok in Q.
      destruct Q as [? [? [? [? [? [tok [_ [_ [_ [_ [_ [Pt ->]]]]]]]]]]]].
      exists a. simpl. unfold managed_time. rewrite <- Jk, <- Jm. auto.
    + apply IH. intros r' I. apply H. right. exact I.
Qed.

(** ** The bounds of [QueryAddrs] *)

Lemma time_leb_sentinel (t : Time) :
  representable t -> time_leb t (time_Unix MaxInt64 0) = true.
Proof.
  intros [[_ H] _]. unfold time_leb, time_Unix. simpl.
  apply orb_true_iff. left. apply Z.ltb_lt.
  change (0 / 1000000000) with 0. unfold MaxInt64 in *. lia.
Qed.

(** C8.  When [CreatedBefore] is the zero time, [QueryAddrs] puts
    [time.Unix(math.MaxInt64, 0)] in its place, and no stored row is later
    than that: the call returns what the same query without an upper bound
    on the creation time returns. *)
Theorem QueryAddrs_createdBefore_unset :
  forall chainParams params s,
    IsZero (qp_CreatedBefore params) = true ->
    Forall (fun a => representable (creation_time a)) (addrs s) ->
    QueryAddrs chainParams params s = QueryAddrs_unbounded chainParams params s.
Proof.
  intros chainParams params s Z0 R.
  unfold QueryAddrs, QueryAddrs_unbounded. rewrite Z0.
  unfold ExecTx, bind, query, FetchAddrs, FetchAddrs_unbounded. simpl.
  match goal with
  | |- context [filter ?f (addrs s)] =>
      match goal with
      | |- context [filter ?g (addrs s)] =>
          lazymatch f with
          | g => fail
          | _ => rewrite (filter_ext_in f g (addrs s))
          end
      end
  end.
  - reflexivity.
  - intros a I. rewrite Forall_forall in R. specialize (R a I).
    unfold addr_matches, addr_matches_unbounded. simpl.
    rewrite (time_leb_sentinel _ R), andb_true_r. reflexivity.
Qed.

(** ** Inserting addresses *)

(** One turn of the loop, step by step: four upserts, which always succeed,
    then the insertion of the address row. *)
Lemma insertAddr_unfold (a : AddrWithKeyInfo) (s : Store) :
  exists gpID gpRows genID genRows rawID keys1 skID skRows tkID keys2,
    upsert (outpoint_eqb (FirstPrevOut (Taro_Genesis (addr_Taro a))))
      (fun old => old) (FirstPrevOut (Taro_Genesis (addr_Taro a)))
      (genesis_points s) = (gpID, gpRows) /\
    upsert (fun r => genesis_eqb (gen_genesis r) (Taro_Genesis (addr_Taro a)))
      (fun old => old) (mkGenesisRow gpID (Taro_Genesis (addr_Taro a)))
      (genesis_assets s) = (genID, genRows) /\
    upsert (fun r => bytes_eqb (raw_key r) (raw_key (scriptKeyRaw_row a)))
      (fun _ => scriptKeyRaw_row a) (scriptKeyRaw_row a) (internal_keys s) =
      (rawID, keys1) /\
    upsert (fun r => bytes_eqb (tweaked_script_key r)
                       (tweaked_script_key (scriptKey_row a rawID)))
      (fun _ => scriptKey_row a rawID) (scriptKey_row a rawID) (script_keys s) =
      (skID, skRows) /\
    upsert (fun r => bytes_eqb (raw_key r) (raw_key (taprootKey_row a)))
      (fun _ => taprootKey_row a) (taprootKey_row a) keys1 = (tkID, keys2) /\
    insertAddr a s =
      insertAddr_result
        (InsertAddr (newAddr a genID skID tkID)
           (mkStore keys2 skRows gpRows genRows (addrs s) (chain_txns s)
              (managed_utxos s) (addr_events s) (asset_proofs s))).
Proof.
  unfold insertAddr, bind, wrapf, upsertGenesisPoint, upsertGenesis,
    insertInternalKey, UpsertInternalKey, UpsertScriptKey.
  destruct (upsert (outpoint_eqb _) _ _ (genesis_points s))
    as [gpID gpRows] eqn:E1. simpl.
  destruct (upsert _ _ _ (genesis_assets s)) as [genID genRows] eqn:E2. simpl.
  destruct (upsert _ _ _ (internal_keys s)) as [rawID keys1] eqn:E3. simpl.
  destruct (upsert _ _ _ (script_keys s)) as [skID skRows] eqn:E4. simpl.
  destruct (upsert _ _ _ keys1) as [tkID keys2] eqn:E5. simpl.
  exists gpID, gpRows, genID, genRows, rawID, keys1, skID, skRows, tkID, keys2.
  repeat (split; [first [reflexivity|assumption]|]).
  unfold insertAddr_result, newAddr, addr_key, set_internal_keys,
    set_script_keys, set_genesis_points, set_genesis_assets. simpl.
  match goal with
  | |- context [InsertAddr ?x ?y] => destruct (InsertAddr x y) as [[n|e|p] s2]
  end; reflexivity.
Qed.

(** How [InsertAddr] answers. *)
Lemma InsertAddr_cases (arg : NewAddr) (s : Store) :
  (exists what, InsertAddr arg s = (Err (ConstraintError what), s)) \/
  (InsertAddr arg s =
     (Ok (next_id (addrs s)),
      set_addrs s (addrs s ++
        [mkAddrRow (na_Version arg) (na_GenesisAssetID arg) (na_FamKey arg)
           (na_ScriptKeyID arg) (na_TaprootKeyID arg) (na_TaprootOutputKey arg)
           (na_Amount arg) (na_AssetType arg) (na_CreationTime arg) None])) /\
   len (na_TaprootOutputKey arg) = 32 /\
   find_id (fun r => bytes_eqb (taproot_output_key r) (na_TaprootOutputKey arg))
     (addrs s) = None /\
   is_some (row_at (genesis_assets s) (na_GenesisAssetID arg)) = true /\
   is_some (row_at (script_keys s) (na_ScriptKeyID arg)) = true /\
   is_some (row_at (internal_keys s) (na_TaprootKeyID arg)) = true).
Proof.
  unfold InsertAddr.
  destruct (len (na_TaprootOutputKey arg) =? 32) eqn:L; simpl;
    [|left; eexists; reflexivity].
  destruct (find_id _ (addrs s)) eqn:F; simpl; [left; eexists; reflexivity|].
  destruct (is_some (row_at (genesis_assets s) _)) eqn:G; simpl;
    [|left; eexists; reflexivity].
  destruct (is_some (row_at (script_keys s) _)) eqn:K; simpl;
    [|left; eexists; reflexivity].
  destruct (is_some (row_at (internal_keys s) _)) eqn:T; simpl;
    [|left; eexists; reflexivity].
  right. apply Z.eqb_eq in L. repeat split; try assumption; reflexivity.
Qed.

Lemma InsertAddr_duplicate (arg : NewAddr) (s : Store) :
  key_stored s (na_TaprootOutputKey arg) ->
  exists what, InsertAddr arg s = (Err (ConstraintError what), s).
Proof.
  intros [row [I K]]. destruct (InsertAddr_cases arg s) as [H|[_ [_ [F _]]]];
    [exact H|].
  pose proof (find_id_None _ _ F row I) as N. simpl in N.
  rewrite K, bytes_eqb_refl in N. discriminate.
Qed.

(** A turn of the loop fails only on a constraint of [addrs]; when it
    succeeds it has appended one row, under the key of the address, and the
    key was new. *)
Lemma insertAddr_cases (a : AddrWithKeyInfo) (s : Store) :
  (exists e s1, insertAddr a s = (Err e, s1) /\ is_constraint_error e = true) \/
  (exists s1 row, insertAddr a s = (Ok tt, s1) /\
                  addrs s1 = addrs s ++ [row] /\
                  taproot_output_key row = addr_key a /\
                  ~ key_stored s (addr_key a)).
Proof.
  destruct (insertAddr_unfold a s)
    as [gpID [gpRows [genID [genRows [rawID [keys1 [skID [skRows [tkID [keys2
       [_ [_ [_ [_ [_ E]]]]]]]]]]]]]]].
  rewrite E.
  match goal with
  | |- context [InsertAddr ?x ?y] =>
      destruct (InsertAddr_cases x y) as [[what ->]|[-> [_ [F _]]]]
  end.
  - left. eexists _, _. split; reflexivity.
  - right. eexists _, _. split; [reflexivity|]. simpl. split; [reflexivity|].
    split; [reflexivity|]. intros [row [I K]]. simpl in F.
    pose proof (find_id_None _ _ F row I) as N. simpl in N.
    rewrite K, bytes_eqb_refl in N. discriminate.
Qed.

Lemma insertAddr_duplicate (a : AddrWithKeyInfo) (s : Store) :
  key_stored s (addr_key a) ->
  exists e s1, insertAddr a s = (Err e, s1) /\ is_constraint_error e = true.
Proof.
  intros K. destruct (insertAddr_cases a s) as [H|[s1 [row [_ [_ [_ N]]]]]];
    [exact H|contradiction].
Qed.

(** The loop fails only on a constraint; when it succeeds the keys of the
    batch were new and pairwise different, and each has its row. *)
Lemma insertAddrs_cases (l : list AddrWithKeyInfo) (s : Store) :
  (exists e s1, insertAddrs l s = (Err e, s1) /\ is_constraint_error e = true) \/
  (exists s1 rows, insertAddrs l s = (Ok tt, s1) /\
                   addrs s1 = addrs s ++ rows /\
                   map taproot_output_key rows = map addr_key l /\
                   NoDup (map addr_key l) /\
                   forall a, In a l -> ~ key_stored s (addr_key a)).
Proof.
  revert s. induction l as [|a l IH]; intros s; simpl.
  - right. exists s, []. unfold ret. rewrite app_nil_r.
    repeat split; auto. constructor.
  - unfold bind.
    destruct (insertAddr_cases a s)
      as [[e [s1 [-> C]]]|[s1 [row [-> [A1 [K1 N1]]]]]].
    + left. exists e, s1. auto.
    + destruct (IH s1) as [[e [s2 [-> C]]]|[s2 [rows [-> [A2 [K2 [D2 N2]]]]]]].
      * left. exists e, s2. auto.
      * right. exists s2, (row :: rows). split; [reflexivity|].
        assert (Fresh : forall b, In b l -> addr_key b <> addr_key a).
        { intros b I E. apply (N2 b I). exists row. split; [|congruence].
          rewrite A1. apply in_or_app. right. left. reflexivity. }
        repeat split.
        -- rewrite A2, A1, <- app_assoc. reflexivity.
        -- simpl. rewrite K1, K2. reflexivity.
        -- constructor; [|exact D2]. intros I. apply in_map_iff in I.
           destruct I as [b [E I]]. apply (Fresh b I E).
        -- intros b [<-|I]; [exact N1|]. intros [r [Ir Kr]].
           apply (N2 b I). exists r. split; [|exact Kr].
           rewrite A1. apply in_or_app. left. exact Ir.
Qed.

(** C3.  Two addresses with the same taproot output key cannot both be
    inserted: [InsertAddrs] fails with a constraint error when an address of
    the batch has a key that is already stored, or when two addresses of the
    batch share a key, and then the store is as it was; every failing
    [InsertAddrs] leaves the store, with its keys and geneses, as it was;
    and an address that was inserted is stored under its key. *)
Theorem InsertAddrs_unique_and_atomic :
  forall s batch,
    (((exists a, In a batch /\ key_stored s (addr_key a)) \/
      ~ NoDup (map addr_key batch)) ->
     exists e, InsertAddrs batch s = (Err e, s) /\
               is_constraint_error e = true) /\
    (forall r s1, InsertAddrs batch s = (r, s1) -> is_Ok r = false -> s1 = s) /\
    (forall s1 a, InsertAddrs batch s = (Ok tt, s1) -> In a batch ->
                  key_stored s1 (addr_key a)).
Proof.
  intros s batch. split; [|split].
  - intros H. unfold InsertAddrs, ExecTx.
    destruct (insertAddrs_cases batch s)
      as [[e [s1 [-> C]]]|[s1 [rows [_ [_ [_ [D N]]]]]]].
    + exists e. auto.
    + exfalso. destruct H as [[a [I K]]|ND].
      * apply (N a I K).
      * apply ND, D.
  - intros r s1 E N. unfold InsertAddrs in E.
    apply (ExecTx_rollback false _ _ _ _ E N).
  - intros s1 a E I. unfold InsertAddrs in E. apply (ExecTx_Ok false) in E.
    destruct (insertAddrs_cases batch s)
      as [[e [s2 [E' _]]]|[s2 [rows [E' [A [K _]]]]]].
    + rewrite E' in E. discriminate.
    + rewrite E' in E. injection E as <-.
      assert (In (addr_key a) (map taproot_output_key rows)).
      { rewrite K. apply in_map. exact I. }
      apply in_map_iff in H. destruct H as [row [Kr Ir]].
      exists row. split; [|exact Kr]. rewrite A. apply in_or_app. auto.
Qed.

(** ** The status of an event *)

Lemma UpsertChainTx_Ok (row : ChainTx_row) (s : Store) :
  exists id rows,
    upsert (fun r => bytes_eqb (txid r) (txid row)) (merge_chain_tx row) row
      (chain_txns s) = (id, rows) /\
    UpsertChainTx row s = (Ok id, set_chain_txns s rows).
Proof.
  unfold UpsertChainTx. destruct (upsert _ _ _ _) as [id rows].
  exists id, rows. auto.
Qed.

Lemma UpsertAddrEvent_invalid_status (arg : UpsertAddrEventParams) (s : Store) :
  valid_status (ue_Status arg) = false ->
  UpsertAddrEvent arg s =
    (Err (ConstraintError "CHECK constraint failed: status"), s).
Proof.
  intros V. unfold UpsertAddrEvent. rewrite V. reflexivity.
Qed.

Lemma UpsertManagedUTXO_cases (arg : RawManagedUTXO) (s : Store) :
  (exists what, UpsertManagedUTXO arg s = (Err (ConstraintError what), s)) \/
  (exists id rows, UpsertManagedUTXO arg s = (Ok id, set_managed_utxos s rows)).
Proof.
  unfold UpsertManagedUTXO. destruct (find_id _ (internal_keys s)).
  - destruct (upsert _ _ _ _) as [id rows]. right. exists id, rows. reflexivity.
  - left. eexists. reflexivity.
Qed.

(** With a status that the store rejects, the body of the transaction never
    succeeds; once the block hash parses and the commitment is derived, what
    stops it is a constraint of the store. *)
Lemma getOrCreateEventTx_invalid_status now status addr walletTx outputIdx sib
  txHash txBuf opb od s :
  valid_status (int16 status) = false ->
  exists r s1,
    getOrCreateEventTx now status addr walletTx outputIdx sib txHash txBuf
      opb od s = (r, s1) /\
    is_Ok r = false /\
    (forall row c,
        txUpsert walletTx txHash txBuf = Ok row ->
        TaroCommitment addr = Some c ->
        exists e, r = Err e /\ is_constraint_error e = true).
Proof.
  intros V. unfold getOrCreateEventTx, bind, lift, wrapf.
  destruct (txUpsert walletTx txHash txBuf) as [row|e|p].
  2: { eexists _, _. split; [reflexivity|]. split; [reflexivity|].
       intros ? ? H. discriminate. }
  2: { eexists _, _. split; [reflexivity|]. split; [reflexivity|].
       intros ? ? H. discriminate. }
  destruct (UpsertChainTx_Ok row s) as [chainTxID [rows [_ ->]]].
  destruct (TaroCommitment addr) as [c|]; simpl.
  2: { eexists _, _. split; [reflexivity|]. split; [reflexivity|].
       intros ? ? _ H. discriminate. }
  match goal with
  | |- context [UpsertManagedUTXO ?x ?y] =>
      destruct (UpsertManagedUTXO_cases x y) as [[what ->]|[id [rows' ->]]]
  end.
  - eexists _, _. split; [reflexivity|]. split; [reflexivity|].
    intros ? ? _ _. eexists. split; reflexivity.
  - rewrite UpsertAddrEvent_invalid_status by exact V.
    eexists _, _. split; [reflexivity|]. split; [reflexivity|].
    intros ? ? _ _. eexists. split; reflexivity.
Qed.

(** C4.  A status whose code, as it is stored, lies outside the codes from
    [TransactionDetected] to [Completed] never gives an event:
    [GetOrCreateEvent] does not return one and the store, with its event
    rows, is as before; and when the call gets as far as the store (the
    transaction and the outpoint are serialized, the output exists, the
    block hash parses, the commitment is derived) it fails with a
    constraint violation. *)
Theorem GetOrCreateEvent_invalid_status :
  forall now status addr walletTx outputIdx sib s,
    valid_status (int16 status) = false ->
    exists r,
      GetOrCreateEvent now status addr walletTx outputIdx sib s = (r, s) /\
      is_Ok r = false /\
      (forall txBuf opb od row c,
          Serialize (tx_Tx walletTx) = Some txBuf ->
          encodeOutpoint (mkOutPoint (TxHash (tx_Tx walletTx)) outputIdx) =
            Some opb ->
          index (tx_OutputDetails walletTx) outputIdx = Some od ->
          txUpsert walletTx (TxHash (tx_Tx walletTx)) txBuf = Ok row ->
          TaroCommitment addr = Some c ->
          exists e, r = Err e /\ is_constraint_error e = true).
Proof.
  intros now status addr walletTx outputIdx sib s V. unfold GetOrCreateEvent.
  destruct (Serialize (tx_Tx walletTx)) as [txBuf|].
  2: { eexists. split; [reflexivity|]. split; [reflexivity|].
       intros ? ? ? ? ? H. discriminate. }
  destruct (encodeOutpoint _) as [opb|].
  2: { eexists. split; [reflexivity|]. split; [reflexivity|].
       intros ? ? ? ? ? _ H. discriminate. }
  destruct (index _ _) as [od|].
  2: { eexists. split; [reflexivity|]. split; [reflexivity|].
       intros ? ? ? ? ? _ _ H. discriminate. }
  destruct (getOrCreateEventTx_invalid_status now status addr walletTx
              outputIdx sib (TxHash (tx_Tx walletTx)) txBuf opb od s V)
    as [r [s1 [E [N C]]]].
  exists r. unfold ExecTx. rewrite E.
  destruct r as [ev|e|p]; [discriminate| |].
  - split; [reflexivity|]. split; [reflexivity|].
    intros txBuf' opb' od' row c H1 H2 H3 H4 H5.
    injection H1 as <-. apply (C row c H4 H5).
  - split; [reflexivity|]. split; [reflexivity|].
    intros txBuf' opb' od' row c H1 H2 H3 H4 H5.
    injection H1 as <-. apply (C row c H4 H5).
Qed.

(** ** Completing an event *)

Lemma FetchAssetProof_absent (key : bytes) (s : Store) :
  (forall p, In p (asset_proofs s) -> ap_script_key p <> key) ->
  FetchAssetProof key s = Err sql_ErrNoRows.
Proof.
  intros H. unfold FetchAssetProof.
  destruct (find _ (asset_proofs s)) as [p|] eqn:F; [|reflexivity].
  apply find_some in F. destruct F as [I E]. apply bytes_eqb_eq in E.
  exfalso. apply (H p I E).
Qed.

(** An upsert of an event that brings no proof keeps the proof links. *)
Lemma upsert_event_links (conflict : AddrEvent_row -> bool)
  (arg : UpsertAddrEventParams) (addrID txnID : nat)
  (rows rows' : list AddrEvent_row) (id : nat) :
  ue_AssetProofID arg = None -> ue_AssetID arg = None ->
  upsert conflict (merge_event arg) (event_of arg addrID txnID) rows =
    (id, rows') ->
  forall j r',
    row_at rows' j = Some r' ->
    match row_at rows j with
    | Some r =>
        ae_asset_proof_id r' = ae_asset_proof_id r /\
        ae_asset_id r' = ae_asset_id r
    | None => ae_asset_proof_id r' = None /\ ae_asset_id r' = None
    end.
Proof.
  intros P1 P2 E j r' R. destruct (upsert_cases _ _ _ _ _ _ E)
    as [[old [F [Ro [C ->]]]]|[F [-> ->]]].
  - rewrite row_at_set_row in R. destruct (Nat.eqb id j) eqn:Q.
    + apply Nat.eqb_eq in Q. subst j. rewrite Ro in *.
      injection R as <-. simpl. rewrite P1, P2. auto.
    + rewrite R. auto.
  - destruct (row_at rows j) as [r|] eqn:Rj.
    + rewrite (row_at_app_l _ _ _ _ Rj) in R. injection R as <-. auto.
    + destruct j as [|j]; [discriminate|]. simpl in R, Rj.
      apply nth_error_None in Rj. rewrite nth_error_app2 in R by exact Rj.
      destruct (j - List.length rows)%nat as [|[|k]]; simpl in R;
        try discriminate.
      injection R as <-. simpl. auto.
Qed.

Lemma proof_links_kept_refl (s s' : Store) :
  addr_events s' = addr_events s -> proof_links_kept s s'.
Proof.
  intros E id r' R. rewrite E in R. rewrite R. auto.
Qed.

(** Whatever the body of [GetOrCreateEvent] does to the store, it keeps the
    proof links of the events. *)
Lemma getOrCreateEventTx_links now status addr walletTx outputIdx sib
  txHash txBuf opb od s :
  proof_links_kept s
    (snd (getOrCreateEventTx now status addr walletTx outputIdx sib txHash
            txBuf opb od s)).
Proof.
  unfold getOrCreateEventTx, bind, lift, wrapf.
  destruct (txUpsert walletTx txHash txBuf) as [row|e|p];
    try (apply proof_links_kept_refl; reflexivity).
  destruct (UpsertChainTx_Ok row s) as [chainTxID [rows [_ ->]]].
  destruct (TaroCommitment addr) as [c|]; simpl;
    [|apply proof_links_kept_refl; reflexivity].
  match goal with
  | |- context [UpsertManagedUTXO ?x ?y] =>
      destruct (UpsertManagedUTXO_cases x y) as [[what ->]|[id [rows' ->]]]
  end; [apply proof_links_kept_refl; reflexivity|].
  unfold UpsertAddrEvent. simpl.
  destruct (negb (valid_status (int16 status)));
    [apply proof_links_kept_refl; reflexivity|].
  destruct (find_id _ (addrs s)) as [addrID|];
    [|apply proof_links_kept_refl; reflexivity].
  destruct (find_id _ rows) as [txnID|];
    [|apply proof_links_kept_refl; reflexivity].
  destruct (upsert _ _ _ (addr_events s)) as [eventID evRows] eqn:U.
  assert (K : proof_links_kept s
                (set_addr_events
                   (set_managed_utxos (set_chain_txns s rows) rows') evRows)).
  { intros j r' R. simpl in R.
    refine (upsert_event_links _ _ _ _ _ _ _ _ _ U j r' R); reflexivity. }
  unfold query.
  match goal with
  | |- context [fetchEvent ?i ?a ?st] => destruct (fetchEvent i a st)
  end; exact K.
Qed.

Lemma ExecTx_links {A : Type} (ro : bool) (m : Tx A) (s : Store) :
  proof_links_kept s (snd (m s)) -> proof_links_kept s (snd (ExecTx ro m s)).
Proof.
  unfold ExecTx. destruct (m s) as [[a|e|p] s1]; simpl; intros H;
    [exact H| |]; apply proof_links_kept_refl; reflexivity.
Qed.

Lemma insertAddr_events (a : AddrWithKeyInfo) (s : Store) :
  addr_events (snd (insertAddr a s)) = addr_events s.
Proof.
  destruct (insertAddr_unfold a s)
    as [gpID [gpRows [genID [genRows [rawID [keys1 [skID [skRows [tkID [keys2
       [_ [_ [_ [_ [_ E]]]]]]]]]]]]]]].
  rewrite E.
  match goal with
  | |- context [InsertAddr ?x ?y] =>
      destruct (InsertAddr_cases x y) as [[what ->]|[-> _]]
  end; reflexivity.
Qed.

Lemma insertAddrs_events (l : list AddrWithKeyInfo) (s : Store) :
  addr_events (snd (insertAddrs l s)) = addr_events s.
Proof.
  revert s. induction l as [|a l IH]; intros s; simpl; [reflexivity|].
  unfold bind. pose proof (insertAddr_events a s) as E.
  destruct (insertAddr a s) as [[[]|e|p] s1]; simpl in *; try exact E.
  rewrite IH. exact E.
Qed.

(** C6, as the code has it.  [CompleteEvent] fails, and leaves the store as
    it was, when there is no asset proof for the script key of the address
    of the event.  When there is one, the status is a valid code and the
    anchor outpoint is the outpoint under which the event of that address is
    stored, it succeeds and rewrites that event: new status, references to
    the proof and the asset; the outpoint is the key of the row and stays.
    No other operation of the address book gives an event a reference to a
    proof or an asset. *)
Theorem CompleteEvent_attaches_proof :
  forall event status anchorPoint s,
    ((forall p, In p (asset_proofs s) -> ap_script_key p <> event_script_key event) ->
     exists e, CompleteEvent event status anchorPoint s = (Err e, s)) /\
    (forall pd addrID txnID old,
        FetchAssetProof (event_script_key event) s = Ok pd ->
        valid_status (int16 status) = true ->
        find_id (fun a => bytes_eqb (taproot_output_key a) (addr_key (ev_Addr event)))
          (addrs s) = Some addrID ->
        find_id (fun t => bytes_eqb (txid t) (op_Hash anchorPoint))
          (chain_txns s) = Some txnID ->
        find_id (event_key_eqb addrID txnID (int32 (op_Index anchorPoint)))
          (addr_events s) = Some (ev_ID event) ->
        row_at (addr_events s) (ev_ID event) = Some old ->
        CompleteEvent event status anchorPoint s =
          (Ok tt,
           set_addr_events s
             (set_row (addr_events s) (ev_ID event)
                (completed_row old status pd))) /\
        ae_output_index (completed_row old status pd) = int32 (op_Index anchorPoint) /\
        ae_chain_txn_id (completed_row old status pd) = txnID) /\
    (forall now st addr walletTx outputIdx sib,
        proof_links_kept s
          (snd (GetOrCreateEvent now st addr walletTx outputIdx sib s))) /\
    (forall batch, proof_links_kept s (snd (InsertAddrs batch s))) /\
    (forall addr t, proof_links_kept s (snd (SetAddrManaged addr t s))) /\
    (forall params q, snd (QueryAddrs params q s) = s) /\
    (forall params key, snd (AddrByTaprootOutput params key s) = s) /\
    (forall params q, snd (QueryAddrEvents params q s) = s).
Proof.
  intros event status anchorPoint s.
  split; [|split; [|split; [|split; [|split; [|split; [|split]]]]]].
  - intros H. unfold CompleteEvent, ExecTx, bind, wrapf, query.
    fold (event_script_key event).
    rewrite (FetchAssetProof_absent _ _ H). eexists. reflexivity.
  - intros pd addrID txnID old P V Fa Ft Fe Ro.
    assert (K : event_key_eqb addrID txnID (int32 (op_Index anchorPoint)) old = true).
    { destruct (find_id_Some _ _ _ Fe) as [r [R C]]. congruence. }
    split; [|split].
    + unfold CompleteEvent, ExecTx, bind, wrapf, query.
      fold (event_script_key event). rewrite P.
      unfold UpsertAddrEvent. simpl. rewrite V. simpl.
      fold (addr_key (ev_Addr event)). rewrite Fa, Ft.
      unfold upsert. rewrite Fe, Ro. reflexivity.
    + unfold event_key_eqb in K. apply andb_true_iff in K.
      destruct K as [_ K]. apply Z.eqb_eq in K. exact K.
    + unfold event_key_eqb in K. apply andb_true_iff in K.
      destruct K as [K _]. apply andb_true_iff in K. destruct K as [_ K].
      apply Nat.eqb_eq in K. exact K.
  - intros now st addr walletTx outputIdx sib. unfold GetOrCreateEvent.
    destruct (Serialize _); [|apply proof_links_kept_refl; reflexivity].
    destruct (encodeOutpoint _); [|apply proof_links_kept_refl; reflexivity].
    destruct (index _ _); [|apply proof_links_kept_refl; reflexivity].
    apply ExecTx_links, getOrCreateEventTx_links.
  - intros batch. unfold InsertAddrs. apply ExecTx_links.
    apply proof_links_kept_refl, insertAddrs_events.
  - intros addr t. apply proof_links_kept_refl. reflexivity.
  - intros params q. unfold QueryAddrs, ExecTx, bind, query. simpl.
    match goal with
    | |- context [queryAddrsLoop params s ?rows] =>
        destruct (queryAddrsLoop params s rows)
    end; reflexivity.
  - intros params key. unfold AddrByTaprootOutput, ExecTx, query.
    destruct (fetchAddr params key s); reflexivity.
  - intros params q. unfold QueryAddrEvents, ExecTx, bind, wrapf, query. simpl.
    match goal with
    | |- context [queryAddrEventsLoop params s ?ids] =>
        destruct (queryAddrEventsLoop params s ids)
    end; reflexivity.
Qed.

(** ** Creating an event and creating it again *)

Lemma GetOrCreateEvent_Ok now status addr walletTx outputIdx sib s ev s1 :
  GetOrCreateEvent now status addr walletTx outputIdx sib s = (Ok ev, s1) ->
  exists txBuf opb od,
    Serialize (tx_Tx walletTx) = Some txBuf /\
    encodeOutpoint (mkOutPoint (TxHash (tx_Tx walletTx)) outputIdx) = Some opb /\
    index (tx_OutputDetails walletTx) outputIdx = Some od /\
    getOrCreateEventTx now status addr walletTx outputIdx sib
      (TxHash (tx_Tx walletTx)) txBuf opb od s = (Ok ev, s1).
Proof.
  unfold GetOrCreateEvent. intros E.
  destruct (Serialize _) as [txBuf|]; [|discriminate].
  destruct (encodeOutpoint _) as [opb|]; [|discriminate].
  destruct (index _ _) as [od|]; [|discriminate].
  apply (ExecTx_Ok false) in E. exists txBuf, opb, od. auto.
Qed.

Lemma txUpsert_Ok (walletTx : Transaction) (txHash txBuf : bytes)
  (row : ChainTx_row) :
  txUpsert walletTx txHash txBuf = Ok row ->
  txid row = txHash /\
  block_height row =
    (if 0 <? tx_Confirmations walletTx
     then Some (tx_BlockHeight walletTx) else None).
Proof.
  unfold txUpsert. destruct (0 <? tx_Confirmations walletTx).
  - intros E. apply rbind_Ok in E. destruct E as [h [_ E]].
    injection E as <-. auto.
  - intros E. injection E as <-. auto.
Qed.

(** The successful run of the body of [GetOrCreateEvent], step by step. *)
Lemma getOrCreateEventTx_Ok now status addr walletTx outputIdx sib txHash
  txBuf opb od s ev s1 :
  getOrCreateEventTx now status addr walletTx outputIdx sib txHash txBuf opb
    od s = (Ok ev, s1) ->
  exists row chainTxID txRows c keyID utxoID utxoRows addrID txnID eventID evRows,
    txUpsert walletTx txHash txBuf = Ok row /\
    upsert (fun r => bytes_eqb (txid r) txHash) (merge_chain_tx row) row
      (chain_txns s) = (chainTxID, txRows) /\
    TaroCommitment addr = Some c /\
    find_id (fun k => bytes_eqb (raw_key k)
                        (SerializeCompressed (InternalKey (addr_Taro addr))))
      (internal_keys s) = Some keyID /\
    upsert (fun r => bytes_eqb (utxo_outpoint r) opb)
      (merge_utxo (utxoArg addr opb od sib c chainTxID) keyID)
      (utxo_of (utxoArg addr opb od sib c chainTxID) keyID)
      (managed_utxos s) = (utxoID, utxoRows) /\
    valid_status (int16 status) = true /\
    find_id (fun a => bytes_eqb (taproot_output_key a) (addr_key addr))
      (addrs s) = Some addrID /\
    find_id (fun t => bytes_eqb (txid t) txHash) txRows = Some txnID /\
    upsert (event_key_eqb addrID txnID (int32 outputIdx))
      (merge_event (eventArg now status addr txHash outputIdx utxoID))
      (event_of (eventArg now status addr txHash outputIdx utxoID) addrID txnID)
      (addr_events s) = (eventID, evRows) /\
    s1 = mkStore (internal_keys s) (script_keys s) (genesis_points s)
           (genesis_assets s) (addrs s) txRows utxoRows evRows
           (asset_proofs s) /\
    fetchEvent eventID addr s1 = Ok ev.
Proof.
  unfold getOrCreateEventTx, bind, lift, wrapf. intros E.
  destruct (txUpsert walletTx txHash txBuf) as [row|e|p] eqn:T;
    try discriminate.
  destruct (txUpsert_Ok _ _ _ _ T) as [Tid _].
  unfold UpsertChainTx in E. rewrite Tid in E.
  destruct (upsert _ _ _ (chain_txns s)) as [chainTxID txRows] eqn:U1.
  destruct (TaroCommitment addr) as [c|] eqn:C; simpl in E; [|discriminate].
  unfold UpsertManagedUTXO in E. simpl in E.
  destruct (find_id _ (internal_keys s)) as [keyID|] eqn:Fk; [|discriminate].
  destruct (upsert _ _ _ (managed_utxos s)) as [utxoID utxoRows] eqn:U2.
  unfold UpsertAddrEvent in E. simpl in E.
  destruct (valid_status (int16 status)) eqn:V; simpl in E; [|discriminate].
  destruct (find_id _ (addrs s)) as [addrID|] eqn:Fa; [|discriminate].
  destruct (find_id _ txRows) as [txnID|] eqn:Ft; [|discriminate].
  destruct (upsert _ _ _ (addr_events s)) as [eventID evRows] eqn:U3.
  unfold query in E.
  match type of E with
  | context [fetchEvent ?i ?a ?st] =>
      destruct (fetchEvent i a st) as [ev'|e|p] eqn:F; try discriminate
  end.
  injection E as <- <-.
  exists row, chainTxID, txRows, c, keyID, utxoID, utxoRows, addrID, txnID,
    eventID, evRows.
  repeat (split; [first [reflexivity|assumption]|]). exact F.
Qed.

(** What [fetchEvent] returns, in terms of the rows it reads. *)
Lemma fetchEvent_Ok (id : nat) (addr : AddrWithKeyInfo) (s : Store) (ev : Event) :
  fetchEvent id addr s = Ok ev ->
  exists row,
    row_at (addr_events s) id = Some row /\
    ev_ID ev = id /\
    ev_Status ev = ae_status row /\
    ev_CreationTime ev = ae_creation_time row /\
    ev_ConfirmationHeight ev =
      height_of (row_at (chain_txns s) (ae_chain_txn_id row)) /\
    ev_Amt ev =
      match row_at (managed_utxos s) (ae_managed_utxo_id row) with
      | Some u => amt_sats u
      | None => 0
      end /\
    ev_TapscriptSibling ev =
      match row_at (managed_utxos s) (ae_managed_utxo_id row) with
      | Some u => tapscript_sibling u
      | None => None
      end /\
    ev_HasProof ev = is_some (ae_asset_proof_id row) /\
    ParsePubKey (event_key_bytes s row) = Some (ev_InternalKey ev) /\
    len (event_txid s row) = 32.
Proof.
  unfold fetchEvent. intros E.
  apply rbind_Ok in E. destruct E as [db [D E]]. apply rwrapf_Ok in D.
  apply rbind_Ok in E. destruct E as [k [K E]]. apply rwrapf_Ok in K.
  apply rbind_Ok in E. destruct E as [h [H E]]. apply rwrapf_Ok in H.
  injection E as <-.
  unfold FetchAddrEvent in D.
  destruct (row_at (addr_events s) id) as [row|]; [|discriminate].
  injection D as <-. exists row. simpl in *.
  unfold btcec_ParsePubKey, orDecodeError in K.
  unfold chainhash_NewHash, orDecodeError in H.
  unfold height_of, event_key_bytes, event_txid.
  destruct (row_at (chain_txns s) (ae_chain_txn_id row)) as [t|];
    destruct (row_at (managed_utxos s) (ae_managed_utxo_id row)) as [u|];
    simpl in *; try discriminate;
    match type of K with
    | context [ParsePubKey ?b] =>
        destruct (ParsePubKey b) eqn:P; [injection K as <-|discriminate]
    end;
    match type of H with
    | context [len ?b =? 32] =>
        destruct (len b =? 32) eqn:L; [apply Z.eqb_eq in L|discriminate]
    end;
    repeat split; first [reflexivity|assumption].
Qed.

(** [fetchEvent] returns when the joined key parses and the joined txid has
    the length of a hash. *)
Lemma fetchEvent_run (id : nat) (addr : AddrWithKeyInfo) (s : Store)
  (row : AddrEvent_row) (k : PublicKey) :
  row_at (addr_events s) id = Some row ->
  ParsePubKey (event_key_bytes s row) = Some k ->
  len (event_txid s row) = 32 ->
  exists ev, fetchEvent id addr s = Ok ev.
Proof.
  intros R P L. unfold fetchEvent, FetchAddrEvent. rewrite R. simpl.
  unfold event_key_bytes in P. unfold event_txid in L.
  unfold btcec_ParsePubKey, chainhash_NewHash.
  destruct (row_at (chain_txns s) (ae_chain_txn_id row)) as [t|];
    destruct (row_at (managed_utxos s) (ae_managed_utxo_id row)) as [u|];
    simpl in *; try discriminate;
    rewrite P; simpl; apply Z.eqb_eq in L; rewrite L; simpl;
    eexists; reflexivity.
Qed.

Lemma txUpsert_succeeds (walletTx : Transaction) (txHash txBuf : bytes) :
  (0 < tx_Confirmations walletTx ->
   chainhash_NewHashFromStr (tx_BlockHash walletTx) <> None) ->
  exists row, txUpsert walletTx txHash txBuf = Ok row.
Proof.
  intros H. unfold txUpsert.
  destruct (0 <? tx_Confirmations walletTx) eqn:C.
  - apply Z.ltb_lt in C.
    destruct (chainhash_NewHashFromStr (tx_BlockHash walletTx)) as [h|] eqn:E;
      [|exfalso; apply (H C); reflexivity].
    simpl. eexists. reflexivity.
  - eexists. reflexivity.
Qed.

(** The body of [GetOrCreateEvent] run forwards: when every step succeeds
    it returns the event that [fetchEvent] reads from the store it wrote. *)
Lemma getOrCreateEventTx_run now status addr walletTx outputIdx sib txHash
  txBuf opb od s row chainTxID txRows c keyID utxoID utxoRows addrID txnID
  eventID evRows ev :
  txUpsert walletTx txHash txBuf = Ok row ->
  upsert (fun r => bytes_eqb (txid r) txHash) (merge_chain_tx row) row
    (chain_txns s) = (chainTxID, txRows) ->
  TaroCommitment addr = Some c ->
  find_id (fun k => bytes_eqb (raw_key k)
                      (SerializeCompressed (InternalKey (addr_Taro addr))))
    (internal_keys s) = Some keyID ->
  upsert (fun r => bytes_eqb (utxo_outpoint r) opb)
    (merge_utxo (utxoArg addr opb od sib c chainTxID) keyID)
    (utxo_of (utxoArg addr opb od sib c chainTxID) keyID)
    (managed_utxos s) = (utxoID, utxoRows) ->
  valid_status (int16 status) = true ->
  find_id (fun a => bytes_eqb (taproot_output_key a) (addr_key addr))
    (addrs s) = Some addrID ->
  find_id (fun t => bytes_eqb (txid t) txHash) txRows = Some txnID ->
  upsert (event_key_eqb addrID txnID (int32 outputIdx))
    (merge_event (eventArg now status addr txHash outputIdx utxoID))
    (event_of (eventArg now status addr txHash outputIdx utxoID) addrID txnID)
    (addr_events s) = (eventID, evRows) ->
  fetchEvent eventID addr
    (mkStore (internal_keys s) (script_keys s) (genesis_points s)
       (genesis_assets s) (addrs s) txRows utxoRows evRows (asset_proofs s)) =
    Ok ev ->
  getOrCreateEventTx now status addr walletTx outputIdx sib txHash txBuf opb
    od s =
    (Ok ev,
     mkStore (internal_keys s) (script_keys s) (genesis_points s)
       (genesis_assets s) (addrs s) txRows utxoRows evRows (asset_proofs s)).
Proof.
  intros T U1 C Fk U2 V Fa Ft U3 F.
  unfold getOrCreateEventTx, bind, lift, wrapf. rewrite T.
  destruct (txUpsert_Ok _ _ _ _ T) as [Tid _].
  unfold UpsertChainTx. rewrite Tid, U1, C. simpl.
  unfold UpsertManagedUTXO. simpl.
  match goal with
  | |- context [find_id ?p (internal_keys s)] =>
      replace (find_id p (internal_keys s)) with (Some keyID)
        by (symmetry; exact Fk)
  end.
  match goal with
  | |- context [upsert ?f ?m ?n (managed_utxos s)] =>
      replace (upsert f m n (managed_utxos s)) with (utxoID, utxoRows)
        by (symmetry; exact U2)
  end.
  unfold UpsertAddrEvent. simpl. rewrite V. simpl.
  match goal with
  | |- context [find_id ?p (addrs s)] =>
      replace (find_id p (addrs s)) with (Some addrID)
        by (symmetry; exact Fa)
  end.
  rewrite Ft.
  match goal with
  | |- context [upsert ?f ?m ?n (addr_events s)] =>
      replace (upsert f m n (addr_events s)) with (eventID, evRows)
        by (symmetry; exact U3)
  end.
  unfold query, set_addr_events, set_managed_utxos, set_chain_txns. simpl.
  rewrite F. reflexivity.
Qed.

Lemma find_id_None_filter {A : Type} (p : A -> bool) (rows : list A) :
  find_id p rows = None -> filter p rows = [].
Proof.
  induction rows as [|x rows IH]; simpl; [reflexivity|].
  destruct (p x); [discriminate|].
  destruct (find_id p rows); [discriminate|]. intros _. apply IH. reflexivity.
Qed.

Lemma set_row_last {A : Type} (rows : list A) (x y : A) :
  set_row (rows ++ [x]) (next_id rows) y = rows ++ [y].
Proof.
  unfold next_id. simpl. induction rows as [|r rows IH]; simpl;
    [reflexivity|]. rewrite IH. reflexivity.
Qed.

Lemma upsert_created {A : Type} (conflict : A -> bool) (merge : A -> A)
  (new : A) (rows rows' : list A) :
  upsert conflict merge new rows = (next_id rows, rows') ->
  find_id conflict rows = None /\ rows' = rows ++ [new].
Proof.
  intros E. destruct (upsert_cases _ _ _ _ _ _ E)
    as [[old [F [Ro _]]]|[F [_ ->]]].
  - apply row_at_lt in Ro. unfold next_id in Ro. lia.
  - auto.
Qed.

Lemma upsert_conflict {A : Type} (conflict : A -> bool) (merge : A -> A)
  (new : A) (rows rows' : list A) (id i : nat) :
  upsert conflict merge new rows = (id, rows') ->
  find_id conflict rows = Some i ->
  exists old, id = i /\ row_at rows i = Some old /\
              rows' = set_row rows i (merge old).
Proof.
  intros E F. destruct (upsert_cases _ _ _ _ _ _ E)
    as [[old [F' [Ro [_ ->]]]]|[F' _]].
  - assert (id = i) by congruence. subst. exists old. auto.
  - congruence.
Qed.


Lemma upsert_utxo_key (conflict : ManagedUTXO_row -> bool) (arg : RawManagedUTXO)
  (keyID : nat) (rows rows' : list ManagedUTXO_row) (id : nat) :
  upsert conflict (merge_utxo arg keyID) (utxo_of arg keyID) rows = (id, rows') ->
  exists u, row_at rows' id = Some u /\ utxo_internal_key_id u = keyID.
Proof.
  intros E. destruct (upsert_result _ _ _ _ _ _ E) as [u [R [->|[old [_ ->]]]]];
    eexists; (split; [exact R|reflexivity]).
Qed.

Lemma filter_set_nth_length {A : Type} (p : A -> bool) (rows : list A)
  (i : nat) (old r : A) :
  nth_error rows i = Some old -> p r = p old ->
  List.length (filter p (set_nth rows i r)) = List.length (filter p rows).
Proof.
  revert i. induction rows as [|x rows IH]; intros [|i] E Q; simpl in *;
    try discriminate.
  - injection E as ->. rewrite Q. destruct (p old); reflexivity.
  - destruct (p x); simpl; rewrite (IH i E Q); reflexivity.
Qed.

Lemma filter_set_row_length {A : Type} (p : A -> bool) (rows : list A)
  (id : nat) (old r : A) :
  row_at rows id = Some old -> p r = p old ->
  List.length (filter p (set_row rows id r)) = List.length (filter p rows).
Proof.
  destruct id; simpl; [discriminate|]. apply filter_set_nth_length.
Qed.

Lemma filter_row_at {A : Type} (p : A -> bool) (rows : list A) (id : nat)
  (r : A) :
  row_at rows id = Some r -> p r = true ->
  (1 <= List.length (filter p rows))%nat.
Proof.
  intros R P. apply row_at_In in R.
  assert (I : In r (filter p rows)) by (apply filter_In; auto).
  destruct (filter p rows); [contradiction|simpl; lia].
Qed.

Lemma event_key_merge (arg : UpsertAddrEventParams) (addrID txnID : nat)
  (idx : Z) (old : AddrEvent_row) :
  event_key_eqb addrID txnID idx (merge_event arg old) =
  event_key_eqb addrID txnID idx old.
Proof. reflexivity. Qed.

(** C1.  [GetOrCreateEvent] called again for the address, the transaction
    and the output index of an earlier call, with a valid status, other
    confirmation data (a block hash that parses) and another tapscript
    sibling, succeeds and returns the event of the earlier call, updated in
    place: the id is the same, no table has more rows than before, and the
    rows under that key are as many as the earlier call left, exactly one
    when the earlier call created the event.  The event has the status of
    the second call and the creation time it had; it has the block height
    of the second call when that call brings a confirmed transaction, and
    keeps its height when the second call brings an unconfirmed one.  The
    managed UTXO of the outpoint carries the amount, the commitment root
    and the chain transaction of the second call, with the sibling of the
    second call unless that is nil.  The event keeps its reference to a
    managed UTXO; linked with the UTXO of its outpoint, as an event is that
    the earlier call created, it reads its amount and its sibling there. *)
Theorem GetOrCreateEvent_twice :
  forall now1 now2 st1 st2 addr walletTx1 walletTx2 outputIdx sib1 sib2
         s s1 ev1 od2,
    tx_Tx walletTx2 = tx_Tx walletTx1 ->
    GetOrCreateEvent now1 st1 addr walletTx1 outputIdx sib1 s = (Ok ev1, s1) ->
    valid_status (int16 st2) = true ->
    index (tx_OutputDetails walletTx2) outputIdx = Some od2 ->
    (0 < tx_Confirmations walletTx2 ->
     chainhash_NewHashFromStr (tx_BlockHash walletTx2) <> None) ->
    exists ev2 s2,
      GetOrCreateEvent now2 st2 addr walletTx2 outputIdx sib2 s1 = (Ok ev2, s2) /\
      ev_ID ev2 = ev_ID ev1 /\
      List.length (addr_events s2) = List.length (addr_events s1) /\
      List.length (managed_utxos s2) = List.length (managed_utxos s1) /\
      List.length (chain_txns s2) = List.length (chain_txns s1) /\
      List.length (events_for s2 (addr_key addr) (TxHash (tx_Tx walletTx1))
                     (int32 outputIdx)) =
        List.length (events_for s1 (addr_key addr) (TxHash (tx_Tx walletTx1))
                       (int32 outputIdx)) /\
      (1 <= List.length (events_for s1 (addr_key addr)
                           (TxHash (tx_Tx walletTx1)) (int32 outputIdx)))%nat /\
      ev_Status ev2 = int16 st2 /\
      ev_CreationTime ev2 = ev_CreationTime ev1 /\
      ev_ConfirmationHeight ev2 =
        (if 0 <? tx_Confirmations walletTx2
         then uint32 (tx_BlockHeight walletTx2)
         else ev_ConfirmationHeight ev1) /\
      exists uid u1 u2 c row1 row2,
        row_at (managed_utxos s1) uid = Some u1 /\
        row_at (managed_utxos s2) uid = Some u2 /\
        row_at (addr_events s1) (ev_ID ev1) = Some row1 /\
        row_at (addr_events s2) (ev_ID ev2) = Some row2 /\
        TaroCommitment addr = Some c /\
        encodeOutpoint (mkOutPoint (TxHash (tx_Tx walletTx1)) outputIdx) =
          Some (utxo_outpoint u2) /\
        amt_sats u2 = od_Amount od2 /\
        taro_root u2 = TapscriptRoot c sib2 /\
        utxo_txn_id u2 = ae_chain_txn_id row2 /\
        tapscript_sibling u2 = coalesce sib2 (tapscript_sibling u1) /\
        ae_managed_utxo_id row2 = ae_managed_utxo_id row1 /\
        (ae_managed_utxo_id row1 = uid ->
         ev_Amt ev2 = od_Amount od2 /\
         ev_TapscriptSibling ev2 = coalesce sib2 (ev_TapscriptSibling ev1)) /\
        (ev_ID ev1 = next_id (addr_events s) ->
         List.length (events_for s2 (addr_key addr) (TxHash (tx_Tx walletTx1))
                        (int32 outputIdx)) = 1%nat /\
         ae_managed_utxo_id row1 = uid).
Proof.
  intros now1 now2 st1 st2 addr walletTx1 walletTx2 outputIdx sib1 sib2
    s s1 ev1 od2 HT H1 V2 I2 HB.
  apply GetOrCreateEvent_Ok in H1.
  destruct H1 as [txBuf [opb [od1 [S1 [O1 [I1 B1]]]]]].
  set (txHash := TxHash (tx_Tx walletTx1)) in *.
  apply getOrCreateEventTx_Ok in B1.
  destruct B1 as [row1 [ctx1 [txRows1 [c [key1 [utxo1 [utxoRows1 [addrID
    [txnID [eid1 [evRows1 [T1 [U1c [C1 [Fk [U1u [V1 [Fa [Ft1 [U1e [Es1 F1]]]]]]]]]]]]]]]]]]]]].
  subst s1.
  (* the event that the first call returned *)
  apply fetchEvent_Ok in F1.
  cbn [addr_events chain_txns managed_utxos] in F1.
  destruct F1 as [r1 [R1 [Id1 [St1 [Ct1 [Ch1 [Am1 [Sb1 [Hp1 [Pk1 Ln1]]]]]]]]]].
  set (arg1 := eventArg now1 st1 addr txHash outputIdx utxo1) in *.
  assert (Fe : find_id (event_key_eqb addrID txnID (int32 outputIdx)) evRows1 =
               Some eid1).
  { apply (upsert_find_conflict _ _ _ _ _ _ U1e).
    - intros old Co. rewrite event_key_merge. exact Co.
    - unfold event_key_eqb. simpl.
      rewrite !Nat.eqb_refl, Z.eqb_refl. reflexivity. }
  assert (K1 : event_key_eqb addrID txnID (int32 outputIdx) r1 = true).
  { destruct (find_id_Some _ _ _ Fe) as [r [Rr Kr]]. congruence. }
  assert (Tx1 : ae_chain_txn_id r1 = txnID).
  { unfold event_key_eqb in K1. apply andb_true_iff in K1.
    destruct K1 as [K1 _]. apply andb_true_iff in K1. destruct K1 as [_ K1].
    apply Nat.eqb_eq. exact K1. }
  (* the rows that the first call left *)
  destruct (find_id_Some _ _ _ Ft1) as [oldt [Rt Ctx]].
  assert (Fu : find_id (fun r => bytes_eqb (utxo_outpoint r) opb) utxoRows1 =
               Some utxo1).
  { apply (upsert_find_conflict _ _ _ _ _ _ U1u).
    - intros old Co. exact Co.
    - simpl. apply bytes_eqb_refl. }
  destruct (upsert_utxo_key _ _ _ _ _ _ U1u) as [oldu [Ru Ku]].
  assert (Ou : utxo_outpoint oldu = opb).
  { destruct (find_id_Some _ _ _ Fu) as [r [Rr Cr]].
    apply bytes_eqb_eq in Cr. congruence. }
  unfold event_key_bytes, event_txid in Pk1, Ln1.
  cbn [managed_utxos internal_keys chain_txns] in Pk1, Ln1.
  rewrite Tx1 in Ch1, Ln1. rewrite Rt in Ch1, Ln1.
  (* the second call, step by step *)
  set (s1 := mkStore (internal_keys s) (script_keys s) (genesis_points s)
               (genesis_assets s) (addrs s) txRows1 utxoRows1 evRows1
               (asset_proofs s)) in *.
  destruct (txUpsert_succeeds walletTx2 txHash txBuf HB) as [row2 T2].
  destruct (txUpsert_Ok _ _ _ _ T2) as [_ Bh2].
  destruct (upsert (fun r => bytes_eqb (txid r) txHash) (merge_chain_tx row2)
              row2 (chain_txns s1)) as [ctx2 txRows2] eqn:U2c.
  destruct (upsert_conflict _ _ _ _ _ _ _ U2c Ft1) as [oldt' [Ec [Rt' Er]]].
  cbn [s1 chain_txns] in Rt'. rewrite Rt in Rt'. injection Rt' as <-.
  subst ctx2.
  assert (Ft2 : find_id (fun t => bytes_eqb (txid t) txHash) txRows2 =
                Some txnID).
  { rewrite Er. cbn [s1 chain_txns].
    rewrite (find_id_set_row _ _ _ oldt _ Rt); [exact Ft1|reflexivity]. }
  destruct (upsert (fun r => bytes_eqb (utxo_outpoint r) opb)
              (merge_utxo (utxoArg addr opb od2 sib2 c txnID) key1)
              (utxo_of (utxoArg addr opb od2 sib2 c txnID) key1)
              (managed_utxos s1)) as [utxo2 utxoRows2] eqn:U2u.
  destruct (upsert_conflict _ _ _ _ _ _ _ U2u Fu) as [oldu' [Eu [Ru' Eur]]].
  cbn [s1 managed_utxos] in Ru'. rewrite Ru in Ru'. injection Ru' as <-.
  subst utxo2.
  destruct (upsert (event_key_eqb addrID txnID (int32 outputIdx))
              (merge_event (eventArg now2 st2 addr txHash outputIdx utxo1))
              (event_of (eventArg now2 st2 addr txHash outputIdx utxo1)
                 addrID txnID)
              (addr_events s1)) as [eid2 evRows2] eqn:U2e.
  destruct (upsert_conflict _ _ _ _ _ _ _ U2e Fe) as [olde [Ee [Re Eer]]].
  cbn [s1 addr_events] in Re, Eer. rewrite R1 in Re.
  injection Re as <-. subst eid2.
  set (row2e := merge_event (eventArg now2 st2 addr txHash outputIdx utxo1)
                  r1) in *.
  set (u2 := merge_utxo (utxoArg addr opb od2 sib2 c txnID) key1 oldu) in *.
  set (s2 := mkStore (internal_keys s1) (script_keys s1) (genesis_points s1)
               (genesis_assets s1) (addrs s1) txRows2 utxoRows2 evRows2
               (asset_proofs s1)).
  assert (Re2 : row_at (addr_events s2) eid1 = Some row2e).
  { cbn [s2 addr_events]. rewrite Eer.
    rewrite row_at_set_row, Nat.eqb_refl, R1. reflexivity. }
  assert (Ru2 : row_at (managed_utxos s2) utxo1 = Some u2).
  { cbn [s2 managed_utxos]. rewrite Eur. cbn [s1 managed_utxos].
    rewrite row_at_set_row, Nat.eqb_refl, Ru. reflexivity. }
  assert (Rt2 : row_at (chain_txns s2) txnID = Some (merge_chain_tx row2 oldt)).
  { cbn [s2 chain_txns]. rewrite Er. cbn [s1 chain_txns].
    rewrite row_at_set_row, Nat.eqb_refl, Rt. reflexivity. }
  (* the event row still reads the key that it read *)
  assert (Kb : event_key_bytes s2 row2e =
               match row_at utxoRows1 (ae_managed_utxo_id r1) with
               | Some u =>
                   match row_at (internal_keys s) (utxo_internal_key_id u) with
                   | Some k => raw_key k
                   | None => []
                   end
               | None => []
               end).
  { unfold event_key_bytes. cbn [row2e merge_event ae_managed_utxo_id].
    cbn [s2 managed_utxos internal_keys s1]. rewrite Eur.
    cbn [s1 managed_utxos]. rewrite row_at_set_row.
    destruct (Nat.eqb utxo1 (ae_managed_utxo_id r1)) eqn:Q; [|reflexivity].
    apply Nat.eqb_eq in Q. rewrite <- Q, Ru. cbn [u2 merge_utxo
      utxo_internal_key_id]. rewrite Ku. reflexivity. }
  destruct (fetchEvent_run eid1 addr s2 row2e (ev_InternalKey ev1) Re2)
    as [ev2 F2].
  { rewrite Kb. exact Pk1. }
  { unfold event_txid. cbn [row2e merge_event ae_chain_txn_id].
    rewrite Tx1, Rt2. exact Ln1. }
  exists ev2, s2. split.
  { unfold GetOrCreateEvent. rewrite HT. fold txHash. rewrite S1, O1, I2.
    unfold ExecTx.
    rewrite (getOrCreateEventTx_run now2 st2 addr walletTx2 outputIdx sib2
               txHash txBuf opb od2 s1 row2 txnID txRows2 c key1 utxo1
               utxoRows2 addrID txnID eid1 evRows2 ev2
               T2 U2c C1 Fk U2u V2 Fa Ft2 U2e F2).
    reflexivity. }
  apply fetchEvent_Ok in F2.
  destruct F2 as [r2 [R2 [Id2 [St2 [Ct2 [Ch2 [Am2 [Sb2 _]]]]]]]].
  rewrite Re2 in R2. injection R2 as <-.
  cbn [row2e merge_event ae_managed_utxo_id ae_chain_txn_id ae_status
       ae_creation_time eventArg ue_Status] in Ch2, Am2, Sb2, St2, Ct2.
  rewrite Tx1, Rt2 in Ch2.
  split; [congruence|].
  split; [cbn [s2 s1 addr_events]; rewrite Eer; apply length_set_row|].
  split; [cbn [s2 s1 managed_utxos]; rewrite Eur; apply length_set_row|].
  split; [cbn [s2 s1 chain_txns]; rewrite Er; apply length_set_row|].
  assert (Ev2 : events_for s2 (addr_key addr) txHash (int32 outputIdx) =
                filter (event_key_eqb addrID txnID (int32 outputIdx)) evRows2).
  { unfold events_for. cbn [s2 s1 addrs chain_txns addr_events].
    rewrite Fa, Ft2. reflexivity. }
  assert (Ev1 : events_for s1 (addr_key addr) txHash (int32 outputIdx) =
                filter (event_key_eqb addrID txnID (int32 outputIdx)) evRows1).
  { unfold events_for. cbn [s1 addrs chain_txns addr_events].
    rewrite Fa, Ft1. reflexivity. }
  split.
  { rewrite Ev2, Ev1, Eer.
    apply (filter_set_row_length _ _ _ r1); [exact R1|].
    apply event_key_merge. }
  split; [rewrite Ev1; apply (filter_row_at _ _ eid1 r1 R1 K1)|].
  split; [exact St2|].
  split; [congruence|].
  split.
  { rewrite Ch2, Ch1. unfold height_of. simpl. rewrite Bh2.
    destruct (0 <? tx_Confirmations walletTx2); reflexivity. }
  exists utxo1, oldu, u2, c, r1, row2e. rewrite Id2, Id1.
  split; [exact Ru|].
  split; [exact Ru2|].
  split; [exact R1|].
  split; [exact Re2|].
  split; [exact C1|].
  split; [simpl; rewrite Ou; exact O1|].
  split; [reflexivity|].
  split; [reflexivity|].
  split; [cbn [row2e merge_event ae_chain_txn_id]; rewrite Tx1; reflexivity|].
  split; [reflexivity|].
  split; [reflexivity|].
  split.
  { (* an event that is linked with the UTXO of its outpoint *)
    intros Lk. rewrite Lk in Am1, Sb1, Am2, Sb2.
    rewrite Ru in Am1, Sb1. rewrite Ru2 in Am2, Sb2.
    rewrite Sb1, Am2, Sb2. split; reflexivity. }
  (* an event that the first call created *)
  intros Hnew.
  assert (Hn : eid1 = next_id (addr_events s)) by congruence.
  rewrite Hn in U1e, R1, Eer.
  apply upsert_created in U1e. destruct U1e as [Fnone Erows].
  rewrite Erows in R1. rewrite row_at_app_new in R1. injection R1 as <-.
  split; [|reflexivity].
  rewrite Ev2, Eer, Erows, set_row_last.
  rewrite filter_app, (find_id_None_filter _ _ Fnone). simpl.
  unfold event_key_eqb. simpl.
  rewrite !Nat.eqb_refl, Z.eqb_refl. reflexivity.
Qed.

(** ** Round trip of an address *)

Lemma outpoint_eqb_eq (a b : OutPoint) : outpoint_eqb a b = true -> a = b.
Proof.
  unfold outpoint_eqb. intros E. apply andb_true_iff in E.
  destruct E as [E1 E2]. apply bytes_eqb_eq in E1. apply Z.eqb_eq in E2.
  destruct a, b. simpl in *. congruence.
Qed.

Lemma genesis_eqb_eq (a b : Genesis) : genesis_eqb a b = true -> a = b.
Proof.
  unfold genesis_eqb. intros E.
  apply andb_true_iff in E. destruct E as [E E5].
  apply andb_true_iff in E. destruct E as [E E4].
  apply andb_true_iff in E. destruct E as [E E3].
  apply andb_true_iff in E. destruct E as [E1 E2].
  apply outpoint_eqb_eq in E1. apply String.eqb_eq in E2.
  apply bytes_eqb_eq in E3. apply Z.eqb_eq in E4. apply Z.eqb_eq in E5.
  destruct a, b. simpl in *. congruence.
Qed.

Lemma find_app_Some {A : Type} (p : A -> bool) (l more : list A) (x : A) :
  find p l = Some x -> find p (l ++ more) = Some x.
Proof.
  induction l as [|y l IH]; simpl; [discriminate|].
  destruct (p y); auto.
Qed.

Lemma find_app_None {A : Type} (p : A -> bool) (l more : list A) :
  find p l = None -> find p (l ++ more) = find p more.
Proof.
  induction l as [|y l IH]; simpl; [reflexivity|].
  destruct (p y); [discriminate|auto].
Qed.

(** An upsert that writes the row that is there already changes nothing at
    that id. *)
Lemma upsert_same {A : Type} (conflict : A -> bool) (new : A)
  (rows rows' : list A) (id j : nat) (r : A) :
  upsert conflict (fun _ => new) new rows = (id, rows') ->
  row_at rows j = Some r ->
  (conflict r = true -> new = r) ->
  row_at rows' j = Some r.
Proof.
  intros E R H.
  destruct (upsert_cases _ _ _ _ _ _ E)
    as [[old [F [Ro [C ->]]]]|[F [-> ->]]].
  - rewrite row_at_set_row. destruct (Nat.eqb id j) eqn:Q.
    + apply Nat.eqb_eq in Q. subst j. rewrite R.
      assert (old = r) by congruence. subst old. rewrite (H C). reflexivity.
    + exact R.
  - apply row_at_app_l. exact R.
Qed.

(** An upsert that rewrites nothing keeps every row. *)
Lemma upsert_id {A : Type} (conflict : A -> bool) (new : A)
  (rows rows' : list A) (id j : nat) (r : A) :
  upsert conflict (fun old => old) new rows = (id, rows') ->
  row_at rows j = Some r -> row_at rows' j = Some r.
Proof.
  intros E R.
  destruct (upsert_stays _ _ _ _ _ _ _ _ E R) as [H|[_ H]]; exact H.
Qed.

Lemma internal_row_eq (d d' : KeyDescriptor) :
  same_locator d d' ->
  SerializeCompressed (kd_PubKey d) = SerializeCompressed (kd_PubKey d') ->
  mkInternalKey (SerializeCompressed (kd_PubKey d')) (int32 (kd_Family d'))
    (int32 (kd_Index d')) =
  mkInternalKey (SerializeCompressed (kd_PubKey d)) (int32 (kd_Family d))
    (int32 (kd_Index d)).
Proof.
  intros L E. destruct (L E) as [-> ->]. rewrite E. reflexivity.
Qed.

(** An upsert of an internal key keeps the row of a key descriptor whose
    locator it does not contradict. *)
Lemma upsert_key_keeps (d d' : KeyDescriptor)
  (rows rows' : list InternalKey_row) (id j : nat) :
  let new := mkInternalKey (SerializeCompressed (kd_PubKey d'))
               (int32 (kd_Family d')) (int32 (kd_Index d')) in
  let mine := mkInternalKey (SerializeCompressed (kd_PubKey d))
                (int32 (kd_Family d)) (int32 (kd_Index d)) in
  upsert (fun r => bytes_eqb (raw_key r) (raw_key new)) (fun _ => new) new rows =
    (id, rows') ->
  same_locator d d' ->
  row_at rows j = Some mine -> row_at rows' j = Some mine.
Proof.
  intros new mine E L R. apply (upsert_same _ _ _ _ _ _ _ E R).
  intros C. simpl in C. apply bytes_eqb_eq in C.
  apply internal_row_eq; [exact L|exact C].
Qed.

Lemma upsert_key_find (k : bytes) (new : InternalKey_row)
  (rows rows' : list InternalKey_row) (id i : nat) :
  upsert (fun r => bytes_eqb (raw_key r) (raw_key new)) (fun _ => new) new rows =
    (id, rows') ->
  find_id (fun r => bytes_eqb (raw_key r) k) rows = Some i ->
  find_id (fun r => bytes_eqb (raw_key r) k) rows' = Some i.
Proof.
  intros E F. apply (upsert_find_id _ _ _ _ _ _ _ _ E); [|exact F].
  intros old C. apply bytes_eqb_eq in C. rewrite C. reflexivity.
Qed.

Lemma keys_agree_fields (a b : AddrWithKeyInfo) :
  keys_agree a b ->
  same_locator (tsk_RawKey (ScriptKeyTweak a)) (tsk_RawKey (ScriptKeyTweak b)) /\
  same_locator (tsk_RawKey (ScriptKeyTweak a)) (InternalKeyDesc b) /\
  same_locator (InternalKeyDesc a) (tsk_RawKey (ScriptKeyTweak b)) /\
  same_locator (InternalKeyDesc a) (InternalKeyDesc b).
Proof. intros [H1 [H2 [H3 [H4 _]]]]. auto. Qed.

(** What a successful turn of the loop leaves in the store. *)
Lemma insertAddr_Ok (a : AddrWithKeyInfo) (s s1 : Store) :
  insertAddr a s = (Ok tt, s1) ->
  exists gpID gpRows genID genRows rawID keys1 skID skRows tkID keys2,
    upsert (outpoint_eqb (FirstPrevOut (Taro_Genesis (addr_Taro a))))
      (fun old => old) (FirstPrevOut (Taro_Genesis (addr_Taro a)))
      (genesis_points s) = (gpID, gpRows) /\
    upsert (fun r => genesis_eqb (gen_genesis r) (Taro_Genesis (addr_Taro a)))
      (fun old => old) (mkGenesisRow gpID (Taro_Genesis (addr_Taro a)))
      (genesis_assets s) = (genID, genRows) /\
    upsert (fun r => bytes_eqb (raw_key r) (raw_key (scriptKeyRaw_row a)))
      (fun _ => scriptKeyRaw_row a) (scriptKeyRaw_row a) (internal_keys s) =
      (rawID, keys1) /\
    upsert (fun r => bytes_eqb (tweaked_script_key r)
                       (tweaked_script_key (scriptKey_row a rawID)))
      (fun _ => scriptKey_row a rawID) (scriptKey_row a rawID) (script_keys s) =
      (skID, skRows) /\
    upsert (fun r => bytes_eqb (raw_key r) (raw_key (taprootKey_row a)))
      (fun _ => taprootKey_row a) (taprootKey_row a) keys1 = (tkID, keys2) /\
    find_id (fun r => bytes_eqb (taproot_output_key r) (addr_key a)) (addrs s) =
      None /\
    s1 = mkStore keys2 skRows gpRows genRows
           (addrs s ++ [addr_row a genID skID tkID]) (chain_txns s)
           (managed_utxos s) (addr_events s) (asset_proofs s).
Proof.
  intros H.
  destruct (insertAddr_unfold a s)
    as [gpID [gpRows [genID [genRows [rawID [keys1 [skID [skRows [tkID [keys2
       [E1 [E2 [E3 [E4 [E5 E]]]]]]]]]]]]]]].
  rewrite E in H.
  match type of H with
  | context [InsertAddr ?x ?y] =>
      destruct (InsertAddr_cases x y) as [[what C]|[C [_ [F _]]]];
      rewrite C in H; simpl in H; [discriminate|]
  end.
  injection H as <-.
  exists gpID, gpRows, genID, genRows, rawID, keys1, skID, skRows, tkID, keys2.
  repeat (split; [assumption|]). reflexivity.
Qed.

Lemma find_new_row (key : bytes) (rows : list Addr_row) (row : Addr_row) :
  find_id (fun r => bytes_eqb (taproot_output_key r) key) rows = None ->
  taproot_output_key row = key ->
  find (fun r => bytes_eqb (taproot_output_key r) key) (rows ++ [row]) =
    Some row.
Proof.
  intros F K. rewrite find_app_None.
  - simpl. rewrite K, bytes_eqb_refl. reflexivity.
  - rewrite find_find_id, F. reflexivity.
Qed.

(** After its turn of the loop an address is stored. *)
Lemma insertAddr_Stored (a : AddrWithKeyInfo) (s s1 : Store) :
  insertAddr a s = (Ok tt, s1) -> keys_agree a a -> Stored s1 a.
Proof.
  intros H A. apply insertAddr_Ok in H.
  destruct H as [gpID [gpRows [genID [genRows [rawID [keys1 [skID [skRows
    [tkID [keys2 [E1 [E2 [E3 [E4 [E5 [F ->]]]]]]]]]]]]]]]].
  destruct (keys_agree_fields _ _ A) as [_ [L _]].
  assert (G : exists grow, row_at genRows genID = Some grow /\
                           gen_genesis grow = Taro_Genesis (addr_Taro a)).
  { destruct (upsert_cases _ _ _ _ _ _ E2)
      as [[old [Fo [Ro [C ->]]]]|[Fo [-> ->]]].
    - exists old. split.
      + rewrite row_at_set_row, Nat.eqb_refl, Ro. reflexivity.
      + apply genesis_eqb_eq. exact C.
    - eexists. split; [apply row_at_app_new|reflexivity]. }
  destruct G as [grow [G1 G2]].
  exists genID, skID, rawID, tkID, grow. simpl.
  split; [apply find_new_row; [exact F|reflexivity]|].
  split; [exact G1|]. split; [exact G2|].
  split.
  { destruct (upsert_result _ _ _ _ _ _ E4) as [r [R [->|[old [_ ->]]]]];
      exact R. }
  assert (R3 : row_at keys1 rawID = Some (scriptKeyRaw_row a)).
  { destruct (upsert_result _ _ _ _ _ _ E3) as [r [R [->|[old [_ ->]]]]];
      exact R. }
  split.
  { apply (upsert_key_find _ _ _ _ _ _ E5).
    apply (upsert_find_conflict _ _ _ _ _ _ E3).
    - intros old _. apply bytes_eqb_refl.
    - apply bytes_eqb_refl. }
  split.
  { apply (upsert_key_keeps (tsk_RawKey (ScriptKeyTweak a)) (InternalKeyDesc a)
             _ _ _ _ E5 L R3). }
  destruct (upsert_result _ _ _ _ _ _ E5) as [r [R [->|[old [_ ->]]]]];
    exact R.
Qed.

(** A later turn of the loop, for an address whose keys agree, keeps it. *)
Lemma insertAddr_keeps (a b : AddrWithKeyInfo) (s s1 : Store) :
  Stored s a -> insertAddr b s = (Ok tt, s1) -> keys_agree a b -> Stored s1 a.
Proof.
  intros [genID [skID [rawID [tkID [grow [F [G1 [G2 [Sk [Fr [Rr Rt]]]]]]]]]]] H A.
  apply insertAddr_Ok in H.
  destruct H as [gpID [gpRows [genID' [genRows [rawID' [keys1 [skID' [skRows
    [tkID' [keys2 [E1 [E2 [E3 [E4 [E5 [_ ->]]]]]]]]]]]]]]]].
  destruct A as [L1 [L2 [L3 [L4 L5]]]].
  exists genID, skID, rawID, tkID, grow. simpl.
  split; [apply find_app_Some; exact F|].
  split; [apply (upsert_id _ _ _ _ _ _ _ E2 G1)|].
  split; [exact G2|].
  split.
  { apply (upsert_same _ _ _ _ _ _ _ E4 Sk). intros C. simpl in C.
    apply bytes_eqb_eq in C. destruct (L5 C) as [Tw Raw].
    assert (rawID' = rawID).
    { assert (Fr' : find_id
                      (fun r => bytes_eqb (raw_key r)
                                  (raw_key (scriptKeyRaw_row b)))
                      (internal_keys s) = Some rawID).
      { simpl. simpl in Fr. rewrite <- Raw. exact Fr. }
      destruct (upsert_conflict _ _ _ _ _ _ _ E3 Fr') as [old [Eq _]].
      exact Eq. }
    subst rawID'. unfold scriptKey_row. rewrite <- C, Tw. reflexivity. }
  split.
  { apply (upsert_key_find _ _ _ _ _ _ E5).
    apply (upsert_key_find _ _ _ _ _ _ E3). exact Fr. }
  split.
  { apply (upsert_key_keeps (tsk_RawKey (ScriptKeyTweak a)) (InternalKeyDesc b)
             _ _ _ _ E5 L2).
    apply (upsert_key_keeps (tsk_RawKey (ScriptKeyTweak a))
             (tsk_RawKey (ScriptKeyTweak b)) _ _ _ _ E3 L1 Rr). }
  apply (upsert_key_keeps (InternalKeyDesc a) (InternalKeyDesc b)
           _ _ _ _ E5 L4).
  apply (upsert_key_keeps (InternalKeyDesc a) (tsk_RawKey (ScriptKeyTweak b))
           _ _ _ _ E3 L3 Rt).
Qed.

Lemma insertAddrs_keeps (a : AddrWithKeyInfo) (l : list AddrWithKeyInfo)
  (s s1 : Store) :
  Stored s a -> insertAddrs l s = (Ok tt, s1) ->
  (forall b, In b l -> keys_agree a b) -> Stored s1 a.
Proof.
  revert s. induction l as [|b l IH]; intros s St H A; simpl in H.
  - injection H as <-. exact St.
  - apply bind_Ok in H. destruct H as [[] [s' [Hb H]]].
    apply (IH s'); [|exact H|intros c I; apply A; right; exact I].
    apply (insertAddr_keeps a b s s' St Hb). apply A. left. reflexivity.
Qed.

(** Every address of a batch that was inserted is stored, when the keys of
    the batch agree with its keys. *)
Lemma insertAddrs_Stored (l : list AddrWithKeyInfo) (s s1 : Store)
  (a : AddrWithKeyInfo) :
  insertAddrs l s = (Ok tt, s1) -> In a l ->
  (forall b, In b l -> keys_agree a b) -> Stored s1 a.
Proof.
  revert s. induction l as [|b l IH]; intros s H I A; simpl in H.
  - contradiction.
  - apply bind_Ok in H. destruct H as [[] [s' [Hb H]]].
    destruct I as [->|I].
    + apply (insertAddrs_keeps a l s' s1); [|exact H|].
      * apply (insertAddr_Stored a s s' Hb). apply A. left. reflexivity.
      * intros c Ic. apply A. right. exact Ic.
    + apply (IH s' H I). intros c Ic. apply A. right. exact Ic.
Qed.

Lemma parseFamKey_valid (msg : string) (fam : option PublicKey) :
  (forall k, fam = Some k -> valid_key k) ->
  parseFamKey msg (option_map SerializeCompressed fam) = Ok fam.
Proof.
  intros V. destruct fam as [k|]; simpl; [|reflexivity].
  unfold btcec_ParsePubKey. rewrite (V k eq_refl). reflexivity.
Qed.

(** The loop body of [QueryAddrs] gives a valid address back from its
    joined row. *)
Lemma queryAddr_valid (params : ChainParams) (s : Store) (a : AddrWithKeyInfo)
  (genID : nat) :
  valid_addr params a ->
  fetchGenesis genID s = Ok (Taro_Genesis (addr_Taro a)) ->
  queryAddr params s (joined_row a genID) = Ok a.
Proof.
  intros [Vv [Va [Vp [Vf [Vs [[Vr1 [Vr2 Vr3]] [[Vi1 [Vi2 Vi3]] [Vk [Vt [Vm _]]]]]]]]]] G.
  unfold queryAddr, joined_row. simpl. rewrite G. simpl.
  rewrite (parseFamKey_valid _ _ Vf). simpl.
  unfold btcec_ParsePubKey, schnorr_ParsePubKey_r.
  unfold valid_key in *. rewrite Vr1, Vi1, Vs, Vt. simpl.
  rewrite (uint8_int16 _ Vv), (uint64_int64 _ Va), !uint32_int32 by assumption.
  destruct a as [[v g fam sk ik amt cp] [[rf ri rk] tw] [tf ti tk] tok ct ma].
  simpl in *. subst. reflexivity.
Qed.

Lemma Stored_join (s : Store) (a : AddrWithKeyInfo) :
  Stored s a ->
  exists genID skID tkID,
    find (fun r => bytes_eqb (taproot_output_key r) (addr_key a)) (addrs s) =
      Some (addr_row a genID skID tkID) /\
    join_addr s (addr_row a genID skID tkID) = Some (joined_row a genID) /\
    fetchGenesis genID s = Ok (Taro_Genesis (addr_Taro a)).
Proof.
  intros [genID [skID [rawID [tkID [grow [F [G1 [G2 [Sk [Fr [Rr Rt]]]]]]]]]]].
  exists genID, skID, tkID. split; [exact F|]. split.
  - unfold join_addr. simpl. rewrite Sk. simpl. rewrite Rr, Rt. reflexivity.
  - unfold fetchGenesis. rewrite G1, G2. reflexivity.
Qed.

(** [fetchAddr] gives a valid stored address back. *)
Lemma fetchAddr_valid (params : ChainParams) (s : Store) (a : AddrWithKeyInfo) :
  valid_addr params a -> Stored s a ->
  fetchAddr params (TaprootOutputKey a) s = Ok a.
Proof.
  intros V St. destruct (Stored_join s a St) as [genID [skID [tkID [F [J G]]]]].
  destruct V as [Vv [Va [Vp [Vf [Vs [[Vr1 [Vr2 Vr3]] [[Vi1 [Vi2 Vi3]] [Vk [Vt [Vm _]]]]]]]]]].
  unfold fetchAddr, FetchAddrByTaprootOutputKey. fold (addr_key a).
  rewrite F, J. unfold joined_row. simpl. rewrite G. simpl.
  rewrite (parseFamKey_valid _ _ Vf). simpl.
  unfold btcec_ParsePubKey. unfold valid_key in *. rewrite Vr1, Vi1, Vs. simpl.
  rewrite (uint8_int16 _ Vv), (uint64_int64 _ Va), !uint32_int32 by assumption.
  destruct a as [[v g fam sk ik amt cp] [[rf ri rk] tw] [tf ti tk] tok ct ma].
  simpl in *. subst. reflexivity.
Qed.

Lemma assertEqualAddr_refl (a : AddrWithKeyInfo) : assertEqualAddr a a.
Proof. split; reflexivity. Qed.

(** The rows that a successful loop appends, one per address, in order. *)
Lemma insertAddrs_rows (l : list AddrWithKeyInfo) (s s1 : Store) :
  insertAddrs l s = (Ok tt, s1) ->
  exists rows,
    addrs s1 = addrs s ++ rows /\
    Forall2 (fun a row => exists g sk tk, row = addr_row a g sk tk) l rows.
Proof.
  revert s. induction l as [|a l IH]; intros s H; simpl in H.
  - injection H as <-. exists []. rewrite app_nil_r. split; [reflexivity|constructor].
  - apply bind_Ok in H. destruct H as [[] [s' [Ha H]]].
    destruct (IH s' H) as [rows [A R]].
    apply insertAddr_Ok in Ha.
    destruct Ha as [gpID [gpRows [genID [genRows [rawID [keys1 [skID [skRows
      [tkID [keys2 [_ [_ [_ [_ [_ [_ ->]]]]]]]]]]]]]]]].
    simpl in A. exists (addr_row a genID skID tkID :: rows). split.
    + rewrite A, <- app_assoc. reflexivity.
    + constructor; [|exact R]. exists genID, skID, tkID. reflexivity.
Qed.

Lemma NoDup_map_find {A : Type} (key : A -> bytes) (rows : list A)
  (k : bytes) (r r' : A) :
  NoDup (map key rows) -> In r rows -> key r = k ->
  find (fun x => bytes_eqb (key x) k) rows = Some r' -> r' = r.
Proof.
  induction rows as [|x rows IH]; intros D I K F; simpl in *; [contradiction|].
  inversion D as [|? ? N D']; subst.
  destruct (bytes_eqb (key x) (key r)) eqn:E.
  - injection F as <-. destruct I as [->|I]; [reflexivity|].
    apply bytes_eqb_eq in E. exfalso. apply N. rewrite E.
    apply in_map. exact I.
  - destruct I as [->|I]; [rewrite bytes_eqb_refl in E; discriminate|].
    apply (IH D' I eq_refl F).
Qed.

Lemma addr_row_matches (params : ChainParams) (a : AddrWithKeyInfo)
  (g sk tk : nat) :
  valid_addr params a ->
  addr_matches defaultAddrQuery (addr_row a g sk tk) = true.
Proof.
  intros [_ [_ [_ [_ [_ [_ [_ [_ [_ [_ [T R]]]]]]]]]]].
  unfold addr_matches, defaultAddrQuery. simpl.
  rewrite T, (time_leb_sentinel _ R). reflexivity.
Qed.

(** ** The filters of [QueryAddrEvents] *)


Lemma sqlQuery_key (k : bytes) (from to : option Z) :
  0 < len k ->
  q_AddrTaprootKey (sqlQuery (mkEventQueryParams (Some k) from to)) = Some k.
Proof.
  intros L. unfold sqlQuery. simpl.
  destruct (0 <? len k) eqn:E; [|apply Z.ltb_ge in E; lia].
  destruct from, to; reflexivity.
Qed.

Lemma fetchEvent_iff (id : nat) (addr : AddrWithKeyInfo) (s : Store) (ev : Event) :
  fetchEvent id addr s = Ok ev <->
  exists row k,
    row_at (addr_events s) id = Some row /\
    ParsePubKey (event_key_bytes s row) = Some k /\
    len (event_txid s row) = 32 /\
    ev = event_of_row s id addr row k.
Proof.
  unfold fetchEvent, FetchAddrEvent, event_of_row, event_key_bytes, event_txid,
    height_of, btcec_ParsePubKey, chainhash_NewHash.
  split.
  - intros E. destruct (row_at (addr_events s) id) as [row|]; [|discriminate].
    simpl in E. exists row.
    destruct (row_at (chain_txns s) (ae_chain_txn_id row)) as [t|];
      destruct (row_at (managed_utxos s) (ae_managed_utxo_id row)) as [u|];
      simpl in *;
      match type of E with
      | context [ParsePubKey ?b] =>
          destruct (ParsePubKey b) as [k|] eqn:P; simpl in E; [|discriminate]
      end;
      try discriminate;
      match type of E with
      | context [len ?b =? 32] =>
          destruct (len b =? 32) eqn:L; simpl in E;
          [apply Z.eqb_eq in L|discriminate]
      end;
      injection E as <-; exists k; repeat split; assumption.
  - intros [row [k [R [P [L ->]]]]]. rewrite R. simpl.
    destruct (row_at (chain_txns s) (ae_chain_txn_id row)) as [t|];
      destruct (row_at (managed_utxos s) (ae_managed_utxo_id row)) as [u|];
      simpl in *; try discriminate; rewrite P; simpl;
      apply Z.eqb_eq in L; rewrite L; reflexivity.
Qed.

Lemma In_with_ids_from {A : Type} (n : nat) (rows : list A) (id : nat) (r : A) :
  In (id, r) (with_ids_from n rows) <->
  (n <= id)%nat /\ nth_error rows (id - n) = Some r.
Proof.
  revert n. induction rows as [|x rows IH]; intros n; simpl.
  - split; [contradiction|]. intros [_ E].
    destruct (id - n)%nat; discriminate.
  - rewrite IH. split.
    + intros [E|[L E]].
      * injection E as <- <-. rewrite Nat.sub_diag. auto.
      * split; [lia|]. replace (id - n)%nat with (S (id - S n)) by lia.
        exact E.
    + intros [L E]. destruct (Nat.eq_dec id n) as [->|N].
      * rewrite Nat.sub_diag in E. injection E as <-. left. reflexivity.
      * right. split; [lia|].
        replace (id - n)%nat with (S (id - S n)) in E by lia. exact E.
Qed.

Lemma In_with_ids {A : Type} (rows : list A) (id : nat) (r : A) :
  In (id, r) (with_ids rows) <-> row_at rows id = Some r.
Proof.
  unfold with_ids. rewrite In_with_ids_from. destruct id as [|i]; simpl.
  - split; [intros [L _]; lia|discriminate].
  - rewrite Nat.sub_0_r. split; [intros [_ E]; exact E|].
    intros E. split; [lia|exact E].
Qed.

Lemma filter_map_sorted {A B : Type} (f : nat * A -> option B) (key : B -> nat)
  (n : nat) (rows : list A) :
  (forall id r y, f (id, r) = Some y -> key y = id) ->
  StronglySorted lt (map key (filter_map f (with_ids_from n rows))) /\
  Forall (fun i => n <= i)%nat (map key (filter_map f (with_ids_from n rows))).
Proof.
  intros K. revert n. induction rows as [|x rows IH]; intros n; simpl.
  - split; constructor.
  - destruct (IH (S n)) as [S1 F1].
    assert (F2 : Forall (fun i => n <= i)%nat
                   (map key (filter_map f (with_ids_from (S n) rows)))).
    { eapply Forall_impl; [|exact F1]. simpl. intros. lia. }
    destruct (f (n, x)) as [y|] eqn:E; [|auto]. simpl.
    rewrite (K _ _ _ E). split.
    + constructor; [exact S1|]. eapply Forall_impl; [|exact F1].
      simpl. intros. lia.
    + constructor; [lia|exact F2].
Qed.

Lemma filter_map_nil {A B : Type} (f : A -> option B) (l : list A) :
  (forall x, In x l -> f x = None) -> filter_map f l = [].
Proof.
  induction l as [|x l IH]; intros H; simpl; [reflexivity|].
  rewrite (H x (or_introl eq_refl)). apply IH. intros y I. apply H.
  right. exact I.
Qed.

Lemma QueryAddrEvents_unfold (cp : ChainParams) (q : EventQueryParams)
  (s : Store) :
  QueryAddrEvents cp q s =
  (match QueryEventIDs (sqlQuery q) s with
   | Ok ids => queryAddrEventsLoop cp s ids
   | Err e => Err (Errorf "error fetching event IDs" e)
   | Panic p => Panic p
   end, s).
Proof.
  unfold QueryAddrEvents, ExecTx, bind, wrapf, query.
  destruct (QueryEventIDs (sqlQuery q) s) as [ids|e|p]; try reflexivity.
  destruct (queryAddrEventsLoop cp s ids); reflexivity.
Qed.

Lemma queryAddrEventsLoop_Ok (cp : ChainParams) (s : Store)
  (ids : list AddrEventID) (l : list Event) :
  queryAddrEventsLoop cp s ids = Ok l ->
  Forall2 (fun i e => queryAddrEvent cp s i = Ok e) ids l.
Proof.
  revert l. induction ids as [|i ids IH]; intros l E; simpl in E.
  - injection E as <-. constructor.
  - apply rbind_Ok in E. destruct E as [e [Ee E]].
    apply rbind_Ok in E. destruct E as [l' [El E]]. injection E as <-.
    constructor; [exact Ee|apply IH; exact El].
Qed.

Lemma queryAddrEvent_Ok (cp : ChainParams) (s : Store) (i : AddrEventID)
  (e : Event) :
  queryAddrEvent cp s i = Ok e ->
  ev_ID e = id_EventID i /\
  schnorr_ParsePubKey (id_TaprootOutputKey i) =
    Some (TaprootOutputKey (ev_Addr e)) /\
  fetchAddr cp (TaprootOutputKey (ev_Addr e)) s = Ok (ev_Addr e) /\
  fetchEvent (id_EventID i) (ev_Addr e) s = Ok e.
Proof.
  unfold queryAddrEvent. intros E.
  apply rbind_Ok in E. destruct E as [key [Ek E]]. apply rwrapf_Ok in Ek.
  apply rbind_Ok in E. destruct E as [addr [Ea E]].
  apply rwrapf_Ok in Ea. apply rwrapf_Ok in E.
  unfold schnorr_ParsePubKey_r, orDecodeError in Ek.
  destruct (schnorr_ParsePubKey (id_TaprootOutputKey i)) as [k|] eqn:P;
    [|discriminate].
  injection Ek as ->.
  pose proof E as E'. apply fetchEvent_iff in E'.
  destruct E' as [row [k [_ [_ [_ ->]]]]]. cbn [ev_ID ev_Addr event_of_row].
  pose proof Ea as Ea'. apply fetchAddr_Ok in Ea'.
  destruct Ea' as [? [? [? [? [? [? [_ [_ [_ [_ [_ [_ Eq]]]]]]]]]]]].
  assert (Tk : TaprootOutputKey addr = key) by (rewrite Eq; reflexivity).
  rewrite Tk. auto.
Qed.

Lemma QueryEventIDs_In (q : AddrEventQuery) (s : Store) (i : AddrEventID) :
  In i (match QueryEventIDs q s with Ok ids => ids | _ => [] end) <->
  exists row a,
    row_at (addr_events s) (id_EventID i) = Some row /\
    row_at (addrs s) (ae_addr_id row) = Some a /\
    id_TaprootOutputKey i = taproot_output_key a /\
    event_matches q (taproot_output_key a) row = true.
Proof.
  unfold QueryEventIDs. rewrite In_filter_map. split.
  - intros [[id row] [I F]]. apply In_with_ids in I.
    destruct (row_at (addrs s) (ae_addr_id row)) as [a|] eqn:Ra;
      [|discriminate].
    destruct (event_matches q (taproot_output_key a) row) eqn:M;
      [|discriminate].
    injection F as <-. exists row, a. auto.
  - intros [row [a [R [Ra [K M]]]]]. exists (id_EventID i, row).
    split; [apply In_with_ids; exact R|].
    rewrite Ra, M. destruct i as [id k]. simpl in *. congruence.
Qed.






End Properties.

(** * Further properties of the address book *)

Section MoreProperties.

Context {ext : External} {pkgs : TaroPackages}.

(** ** Pages of [QueryAddrs] *)

Lemma QueryAddrs_unfold (cp : ChainParams) (q : QueryParams) (s : Store) :
  QueryAddrs cp q s =
  (match FetchAddrs (addrQuery q) s with
   | Ok rows => queryAddrsLoop cp s rows
   | Err e => Err e
   | Panic p => Panic p
   end, s).
Proof.
  unfold QueryAddrs, ExecTx, bind, query, addrQuery. simpl.
  match goal with
  | |- context [queryAddrsLoop cp s ?rows] =>
      destruct (queryAddrsLoop cp s rows); reflexivity
  end.
Qed.

Lemma queryAddrsLoop_firstn (cp : ChainParams) (s : Store) (n : nat)
  (rows : list Addresses) (l : list AddrWithKeyInfo) :
  queryAddrsLoop cp s rows = Ok l ->
  queryAddrsLoop cp s (firstn n rows) = Ok (firstn n l).
Proof.
  revert rows l. induction n as [|n IH]; intros rows l E; [reflexivity|].
  destruct rows as [|r rows]; simpl in E.
  - injection E as <-. reflexivity.
  - apply rbind_Ok in E. destruct E as [a [Ea E]].
    apply rbind_Ok in E. destruct E as [l' [El E]]. injection E as <-.
    simpl. rewrite Ea. simpl. rewrite (IH _ _ El). reflexivity.
Qed.

Lemma queryAddrsLoop_skipn (cp : ChainParams) (s : Store) (n : nat)
  (rows : list Addresses) (l : list AddrWithKeyInfo) :
  queryAddrsLoop cp s rows = Ok l ->
  queryAddrsLoop cp s (skipn n rows) = Ok (skipn n l).
Proof.
  revert rows l. induction n as [|n IH]; intros rows l E; [exact E|].
  destruct rows as [|r rows]; simpl in E.
  - injection E as <-. reflexivity.
  - apply rbind_Ok in E. destruct E as [a [Ea E]].
    apply rbind_Ok in E. destruct E as [l' [El E]]. injection E as <-.
    simpl. apply IH. exact El.
Qed.

Lemma queryAddrsLoop_length (cp : ChainParams) (s : Store)
  (rows : list Addresses) (l : list AddrWithKeyInfo) :
  queryAddrsLoop cp s rows = Ok l -> List.length l = List.length rows.
Proof.
  intros E. apply queryAddrsLoop_Ok in E.
  induction E; simpl; congruence.
Qed.

Lemma int32_small (x : Z) : - 2 ^ 31 <= x < 2 ^ 31 -> int32 x = x.
Proof.
  intros R. unfold int32, wrapS. replace (32 - 1) with 31 by reflexivity.
  rewrite Z.mod_small; [lia|].
  change (2 ^ 31) with 2147483648 in *. change (2 ^ 32) with 4294967296. lia.
Qed.

(** X1.  [QueryAddrs] pages through one listing: when the query without
    offset and limit returns [all], the same query with an offset and a
    limit returns the addresses of [all] from the offset on, at most as many
    as the limit says; the limit 0 stands for no limit. *)
Theorem QueryAddrs_pagination :
  forall cp after before unmanagedOnly offset limit s all,
    0 <= offset < 2 ^ 31 ->
    0 <= limit ->
    QueryAddrs cp (mkQueryParams after before 0 0 unmanagedOnly) s = (Ok all, s) ->
    QueryAddrs cp (mkQueryParams after before offset limit unmanagedOnly) s =
      (Ok (if limit =? 0
           then skipn (Z.to_nat offset) all
           else firstn (Z.to_nat limit) (skipn (Z.to_nat offset) all)), s).
Proof.
  intros cp after before um offset limit s all Ho Hl E.
  rewrite QueryAddrs_unfold in *. unfold FetchAddrs, addrQuery in *.
  simpl in *. injection E as E.
  rewrite (int32_small offset) by lia.
  change (int32 0) with 0 in E. unfold sql_offset in *. simpl in E.
  unfold sql_limit in *. simpl in E.
  f_equal.
  match type of E with
  | queryAddrsLoop cp s (filter_map _ (filter ?f _)) = _ =>
      match goal with
      | |- context [filter ?g (addrs s)] =>
          replace (filter g (addrs s)) with (filter f (addrs s))
            by (apply filter_ext; intros a; reflexivity)
      end
  end.
  destruct (limit =? 0) eqn:L; simpl.
  - apply queryAddrsLoop_skipn. exact E.
  - destruct (limit <? 0) eqn:N; [apply Z.ltb_lt in N; lia|].
    apply queryAddrsLoop_firstn, queryAddrsLoop_skipn. exact E.
Qed.

(** ** The filters of [QueryAddrs] *)

Lemma QueryAddrs_rows (cp : ChainParams) (q : QueryParams) (s : Store)
  (l : list AddrWithKeyInfo) :
  fst (QueryAddrs cp q s) = Ok l ->
  exists rows,
    FetchAddrs (addrQuery q) s = Ok rows /\
    queryAddrsLoop cp s rows = Ok l.
Proof.
  rewrite QueryAddrs_unfold. cbn [fst].
  destruct (FetchAddrs (addrQuery q) s) as [rows|e|p]; intros E;
    try discriminate.
  exists rows. auto.
Qed.

(** An address that [QueryAddrs] returns comes from a row that passes the
    filter of the query. *)
Lemma QueryAddrs_In (cp : ChainParams) (q : QueryParams) (s : Store)
  (l : list AddrWithKeyInfo) (a : AddrWithKeyInfo) :
  fst (QueryAddrs cp q s) = Ok l -> In a l ->
  exists row r,
    In row (addrs s) /\ addr_matches (addrQuery q) row = true /\
    join_addr s row = Some r /\ queryAddr cp s r = Ok a.
Proof.
  intros E I. apply QueryAddrs_rows in E. destruct E as [rows [F L]].
  apply queryAddrsLoop_Ok in L.
  assert (H : exists r, In r rows /\ queryAddr cp s r = Ok a).
  { clear F. induction L as [|r a' rows l Q L IH]; [contradiction|].
    destruct I as [<-|I].
    - exists r. split; [left; reflexivity|exact Q].
    - destruct (IH I) as [r' [I' Q']]. exists r'. split; [right|]; assumption. }
  destruct H as [r [Ir Q]].
  destruct (FetchAddrs_In _ _ _ _ F Ir) as [row [Irow [M J]]].
  exists row, r. auto.
Qed.

Lemma queryAddr_fields (cp : ChainParams) (s : Store) (row : Addr_row)
  (r : Addresses) (a : AddrWithKeyInfo) :
  join_addr s row = Some r -> queryAddr cp s r = Ok a ->
  CreationTime a = creation_time row /\
  ManagedAfter a = managed_time row /\
  schnorr_ParsePubKey (taproot_output_key row) = Some (TaprootOutputKey a).
Proof.
  intros J Q. apply join_addr_fields in J.
  destruct J as [_ [_ [_ [Jk [_ [Jc Jm]]]]]].
  apply queryAddr_Ok in Q.
  destruct Q as [? [? [? [? [? [tok [_ [_ [_ [_ [_ [Pt ->]]]]]]]]]]]].
  simpl. unfold managed_time. rewrite <- Jk, <- Jm, <- Jc. auto.
Qed.

(** X2.  Every address that [QueryAddrs] returns passes the filters of the
    query: it was created at or after [CreatedAfter], at or before
    [CreatedBefore] when that is set, and it has no managed-after time when
    only unmanaged addresses are asked for; a limit above zero bounds the
    number of addresses returned. *)
Theorem QueryAddrs_respects_filters :
  forall cp q s l,
    fst (QueryAddrs cp q s) = Ok l ->
    Forall (fun a =>
              time_leb (qp_CreatedAfter q) (CreationTime a) = true /\
              (IsZero (qp_CreatedBefore q) = false ->
               time_leb (CreationTime a) (qp_CreatedBefore q) = true) /\
              (qp_UnmanagedOnly q = true -> ManagedAfter a = zeroTime)) l /\
    (0 < qp_Limit q -> Z.of_nat (List.length l) <= qp_Limit q).
Proof.
  intros cp q s l E. split.
  - apply Forall_forall. intros a I.
    destruct (QueryAddrs_In _ _ _ _ _ E I) as [row [r [_ [M [J Q]]]]].
    destruct (queryAddr_fields _ _ _ _ _ J Q) as [Ec [Em _]].
    unfold addr_matches, addrQuery in M. simpl in M.
    apply andb_true_iff in M. destruct M as [M Mu].
    apply andb_true_iff in M. destruct M as [Ma Mb].
    rewrite Ec, Em. split; [exact Ma|split].
    + intros Z0. rewrite Z0 in Mb. exact Mb.
    + intros U. rewrite U in Mu. simpl in Mu. unfold managed_time.
      destruct (managed_from row); [discriminate|reflexivity].
  - intros L. apply QueryAddrs_rows in E. destruct E as [rows [F Q]].
    rewrite (queryAddrsLoop_length _ _ _ _ Q).
    unfold FetchAddrs in F. injection F as <-.
    unfold sql_limit, addrQuery. simpl.
    destruct (qp_Limit q =? 0) eqn:L0; [apply Z.eqb_eq in L0; lia|]. simpl.
    destruct (qp_Limit q <? 0) eqn:L1; [apply Z.ltb_lt in L1; lia|].
    rewrite length_firstn. lia.
Qed.

(** ** Managed addresses *)

Lemma SetAddrManaged_run (addr : AddrWithKeyInfo) (t : Time) (s : Store) :
  SetAddrManaged addr t s =
  (Ok tt,
   set_addrs s
     (map (fun a =>
             if bytes_eqb (taproot_output_key a) (addr_key addr) then
               mkAddrRow (version a) (genesis_asset_id a) (fam_key a)
                 (script_key_id a) (taproot_key_id a) (taproot_output_key a)
                 (amount a) (asset_type a) (creation_time a) (Some t)
             else a)
        (addrs s))).
Proof. reflexivity. Qed.

(** X3.  [SetAddrManaged] succeeds and adds no row.  Afterwards [QueryAddrs]
    reports the address under the given taproot output key with the given
    managed-after time, never among the unmanaged ones, and every other
    address with the time it had.  The x-only encoding is taken to be
    canonical. *)
Theorem SetAddrManaged_then_QueryAddrs :
  forall cp addr t s,
    xonly_canonical ->
    exists s1,
      SetAddrManaged addr t s = (Ok tt, s1) /\
      List.length (addrs s1) = List.length (addrs s) /\
      forall q l,
        fst (QueryAddrs cp q s1) = Ok l ->
        Forall (fun a =>
                  (addr_key a = addr_key addr ->
                   ManagedAfter a = t /\ qp_UnmanagedOnly q = false) /\
                  (addr_key a <> addr_key addr ->
                   exists row, In row (addrs s) /\
                               taproot_output_key row = addr_key a /\
                               ManagedAfter a = managed_time row)) l.
Proof.
  intros cp addr t s C. eexists. split; [apply SetAddrManaged_run|].
  split; [simpl; apply length_map|].
  intros q l E. apply Forall_forall. intros a I.
  destruct (QueryAddrs_In _ _ _ _ _ E I) as [row1 [r [I1 [M [J Q]]]]].
  destruct (queryAddr_fields _ _ _ _ _ J Q) as [_ [Em P]].
  apply C in P. fold (addr_key a) in P.
  simpl in I1. apply in_map_iff in I1. destruct I1 as [row [Er Irow]].
  destruct (bytes_eqb (taproot_output_key row) (addr_key addr)) eqn:K.
  - apply bytes_eqb_eq in K. subst row1. simpl in *. split.
    + intros _. split; [exact Em|].
      unfold addr_matches in M. simpl in M.
      apply andb_true_iff in M. destruct M as [_ M].
      destruct (qp_UnmanagedOnly q); [discriminate|reflexivity].
    + intros N. congruence.
  - apply bytes_eqb_neq in K. subst row1. split.
    + intros Ek. congruence.
    + intros _. exists row. auto.
Qed.

(** ** One address, read both ways *)

Lemma fetchAddr_of_row (cp : ChainParams) (s : Store) (row : Addr_row)
  (r : Addresses) (a : AddrWithKeyInfo) :
  find (fun x => bytes_eqb (taproot_output_key x)
                   (schnorr_SerializePubKey (TaprootOutputKey a))) (addrs s) =
    Some row ->
  join_addr s row = Some r -> queryAddr cp s r = Ok a ->
  fetchAddr cp (TaprootOutputKey a) s = Ok (withoutManagedAfter a).
Proof.
  intros F J Q. unfold fetchAddr, FetchAddrByTaprootOutputKey.
  rewrite F, J. apply queryAddr_Ok in Q.
  destruct Q as [g [fam [rsk [ik [sk [tok [Eg [Ef [P1 [P2 [P3 [P4 ->]]]]]]]]]]]].
  rewrite Eg, Ef. unfold btcec_ParsePubKey. rewrite P1, P2, P3. reflexivity.
Qed.

(** X4.  The two ways to read an address agree: in a book without two rows
    under one key, [AddrByTaprootOutput], asked with the taproot output key
    of an address that [QueryAddrs] returned, returns that address, except
    for the managed-after time, which it leaves zero. *)
Theorem QueryAddrs_then_AddrByTaprootOutput :
  forall cp q s l,
    xonly_canonical ->
    NoDup (map taproot_output_key (addrs s)) ->
    fst (QueryAddrs cp q s) = Ok l ->
    Forall (fun a =>
              AddrByTaprootOutput cp (TaprootOutputKey a) s =
                (Ok (withoutManagedAfter a), s)) l.
Proof.
  intros cp q s l C U E. apply Forall_forall. intros a I.
  destruct (QueryAddrs_In _ _ _ _ _ E I) as [row [r [Irow [_ [J Q]]]]].
  destruct (queryAddr_fields _ _ _ _ _ J Q) as [_ [_ P]].
  apply C in P.
  assert (F : find (fun x => bytes_eqb (taproot_output_key x)
                               (schnorr_SerializePubKey (TaprootOutputKey a)))
                (addrs s) = Some row).
  { destruct (find_present
                (fun x => bytes_eqb (taproot_output_key x)
                            (schnorr_SerializePubKey (TaprootOutputKey a)))
                (addrs s) row Irow) as [row' F].
    - apply bytes_eqb_eq. symmetry. exact P.
    - rewrite F. f_equal.
      apply (NoDup_map_find taproot_output_key (addrs s)
               (schnorr_SerializePubKey (TaprootOutputKey a)) row row');
        auto. }
  unfold AddrByTaprootOutput, ExecTx, query.
  rewrite (fetchAddr_of_row _ _ _ _ _ F J Q). reflexivity.
Qed.

(** ** Batches of [InsertAddrs] *)

Lemma insertAddrs_app (l1 l2 : list AddrWithKeyInfo) (s : Store) :
  insertAddrs (l1 ++ l2) s =
  match insertAddrs l1 s with
  | (Ok _, s1) => insertAddrs l2 s1
  | (Err e, s1) => (Err e, s1)
  | (Panic p, s1) => (Panic p, s1)
  end.
Proof.
  revert s. induction l1 as [|a l1 IH]; intros s; simpl; [reflexivity|].
  unfold bind. destruct (insertAddr a s) as [[[]|e|p] s1]; [|reflexivity..].
  apply IH.
Qed.

(** X6.  A batch is the sequence of its parts, in one transaction:
    inserting [l1] and then [l2] with success equals inserting [l1 ++ l2];
    when [l2] fails after [l1] was inserted, the batch [l1 ++ l2] fails with
    the same error and leaves nothing of [l1]; when [l1] fails so does the
    batch; and a batch that succeeds is its two parts succeeding in turn. *)
Theorem InsertAddrs_batches :
  forall l1 l2 s,
    (forall s1 s2,
        InsertAddrs l1 s = (Ok tt, s1) ->
        InsertAddrs l2 s1 = (Ok tt, s2) ->
        InsertAddrs (l1 ++ l2) s = (Ok tt, s2)) /\
    (forall s1 r s2,
        InsertAddrs l1 s = (Ok tt, s1) ->
        InsertAddrs l2 s1 = (r, s2) -> is_Ok r = false ->
        InsertAddrs (l1 ++ l2) s = (r, s)) /\
    (forall r s1,
        InsertAddrs l1 s = (r, s1) -> is_Ok r = false ->
        InsertAddrs (l1 ++ l2) s = (r, s)) /\
    (forall s2,
        InsertAddrs (l1 ++ l2) s = (Ok tt, s2) ->
        exists s1,
          InsertAddrs l1 s = (Ok tt, s1) /\ InsertAddrs l2 s1 = (Ok tt, s2)).
Proof.
  intros l1 l2 s. unfold InsertAddrs, ExecTx. rewrite insertAddrs_app.
  split; [|split; [|split]].
  - intros s1 s2.
    destruct (insertAddrs l1 s) as [[[]|e|p] s1'] eqn:E1; intros H1 H2;
      try discriminate.
    injection H1 as <-.
    destruct (insertAddrs l2 s1') as [[[]|e|p] s2']; try discriminate.
    exact H2.
  - intros s1 r s2.
    destruct (insertAddrs l1 s) as [[[]|e|p] s1'] eqn:E1; intros H1 H2 N;
      try discriminate.
    injection H1 as <-.
    destruct (insertAddrs l2 s1') as [[[]|e|p] s2'];
      injection H2 as <- <-; [discriminate|reflexivity..].
  - intros r s1.
    destruct (insertAddrs l1 s) as [[[]|e|p] s1'] eqn:E1; intros H1 N;
      injection H1 as <- <-; [discriminate|reflexivity..].
  - intros s2.
    destruct (insertAddrs l1 s) as [[[]|e|p] s1'] eqn:E1; intros H;
      try discriminate.
    exists s1'. split; [reflexivity|].
    destruct (insertAddrs l2 s1') as [[[]|e|p] s2']; try discriminate.
    exact H.
Qed.

(** One turn of the loop leaves the transactions, the UTXOs, the events and
    the proofs alone. *)
Lemma insertAddr_frame (a : AddrWithKeyInfo) (s : Store) :
  chain_txns (snd (insertAddr a s)) = chain_txns s /\
  managed_utxos (snd (insertAddr a s)) = managed_utxos s /\
  addr_events (snd (insertAddr a s)) = addr_events s /\
  asset_proofs (snd (insertAddr a s)) = asset_proofs s.
Proof.
  destruct (insertAddr_unfold a s)
    as [gpID [gpRows [genID [genRows [rawID [keys1 [skID [skRows [tkID [keys2
       [_ [_ [_ [_ [_ E]]]]]]]]]]]]]]].
  rewrite E.
  match goal with
  | |- context [InsertAddr ?x ?y] =>
      destruct (InsertAddr_cases x y) as [[what ->]|[-> _]]
  end; simpl; auto.
Qed.

Lemma insertAddrs_frame (l : list AddrWithKeyInfo) (s : Store) :
  chain_txns (snd (insertAddrs l s)) = chain_txns s /\
  managed_utxos (snd (insertAddrs l s)) = managed_utxos s /\
  addr_events (snd (insertAddrs l s)) = addr_events s /\
  asset_proofs (snd (insertAddrs l s)) = asset_proofs s.
Proof.
  revert s. induction l as [|a l IH]; intros s; simpl; [auto|].
  unfold bind. pose proof (insertAddr_frame a s) as E.
  destruct (insertAddr a s) as [[[]|e|p] s1]; simpl in *; try exact E.
  destruct (IH s1) as [H1 [H2 [H3 H4]]]. destruct E as [E1 [E2 [E3 E4]]].
  rewrite H1, H2, H3, H4. auto.
Qed.

(** X7.  A successful [InsertAddrs] appends one row per address to [addrs],
    in the order of the batch, each with the fields of its address and not
    managed; it leaves the chain transactions, the UTXOs, the events and the
    proofs alone, and an empty batch leaves the whole store alone. *)
Theorem InsertAddrs_appends :
  forall batch s s1,
    InsertAddrs batch s = (Ok tt, s1) ->
    (exists rows,
        addrs s1 = addrs s ++ rows /\
        Forall2 (fun a row => exists g sk tk, row = addr_row a g sk tk)
          batch rows) /\
    chain_txns s1 = chain_txns s /\
    managed_utxos s1 = managed_utxos s /\
    addr_events s1 = addr_events s /\
    asset_proofs s1 = asset_proofs s /\
    (batch = [] -> s1 = s).
Proof.
  intros batch s s1 E. unfold InsertAddrs in E. apply (ExecTx_Ok false) in E.
  split; [apply insertAddrs_rows; exact E|].
  pose proof (insertAddrs_frame batch s) as F. rewrite E in F. simpl in F.
  destruct F as [F1 [F2 [F3 F4]]]. repeat (split; [assumption|]).
  intros ->. simpl in E. unfold ret in E. congruence.
Qed.

(** ** The constraints of the [addrs] table *)

Lemma upsert_is_some {A : Type} (conflict : A -> bool) (merge : A -> A)
  (new : A) (rows rows' : list A) (id j : nat) :
  upsert conflict merge new rows = (id, rows') ->
  is_some (row_at rows j) = true -> is_some (row_at rows' j) = true.
Proof.
  intros E H. destruct (row_at rows j) as [r|] eqn:R; [|discriminate].
  destruct (upsert_stays _ _ _ _ _ _ _ _ E R) as [->|[_ ->]]; reflexivity.
Qed.

Lemma NoDup_snoc {A : Type} (l : list A) (x : A) :
  NoDup l -> ~ In x l -> NoDup (l ++ [x]).
Proof.
  induction l as [|y l IH]; intros D N; simpl.
  - constructor; [intros []|constructor].
  - inversion D as [|? ? Ny Dl]. subst. constructor.
    + intros I. apply in_app_or in I. destruct I as [I|[<-|[]]].
      * contradiction.
      * apply N. left. reflexivity.
    + apply IH; [exact Dl|]. intros I. apply N. right. exact I.
Qed.

Lemma addrs_constraints_frame (s s1 : Store) :
  addrs s1 = addrs s -> genesis_assets s1 = genesis_assets s ->
  script_keys s1 = script_keys s -> internal_keys s1 = internal_keys s ->
  addrs_constraints s -> addrs_constraints s1.
Proof.
  unfold addrs_constraints, addr_row_ok. intros -> -> -> ->. auto.
Qed.

Lemma insertAddr_constraints (a : AddrWithKeyInfo) (s s1 : Store) :
  insertAddr a s = (Ok tt, s1) -> addrs_constraints s -> addrs_constraints s1.
Proof.
  intros E [D F].
  destruct (insertAddr_unfold a s)
    as [gpID [gpRows [genID [genRows [rawID [keys1 [skID [skRows [tkID [keys2
       [U1 [U2 [U3 [U4 [U5 E']]]]]]]]]]]]]]].
  rewrite E' in E.
  match type of E with
  | context [InsertAddr ?x ?y] =>
      destruct (InsertAddr_cases x y) as [[what H]|[H [L [N [G [K T]]]]]];
      rewrite H in E; simpl in E; [discriminate|]
  end.
  injection E as <-. simpl in *. split; simpl.
  - rewrite map_app. simpl. apply NoDup_snoc; [exact D|].
    intros I. apply in_map_iff in I. destruct I as [row [Ek I]].
    pose proof (find_id_None _ _ N row I) as B. simpl in B.
    rewrite Ek, bytes_eqb_refl in B. discriminate.
  - apply Forall_app. split.
    + eapply Forall_impl; [|exact F]. intros row [R1 [R2 [R3 R4]]].
      unfold addr_row_ok. simpl. split; [exact R1|].
      split; [apply (upsert_is_some _ _ _ _ _ _ _ U2 R2)|].
      split; [apply (upsert_is_some _ _ _ _ _ _ _ U4 R3)|].
      apply (upsert_is_some _ _ _ _ _ _ _ U5).
      apply (upsert_is_some _ _ _ _ _ _ _ U3 R4).
    + constructor; [|constructor]. unfold addr_row_ok. simpl. auto.
Qed.

Lemma insertAddrs_constraints (l : list AddrWithKeyInfo) (s s1 : Store) :
  insertAddrs l s = (Ok tt, s1) -> addrs_constraints s -> addrs_constraints s1.
Proof.
  revert s. induction l as [|a l IH]; intros s E C; simpl in E.
  - unfold ret in E. congruence.
  - unfold bind in E. destruct (insertAddr a s) as [[[]|e|p] s'] eqn:Ea;
      try discriminate.
    apply (IH s' E). apply (insertAddr_constraints a s s' Ea C).
Qed.

Lemma GetOrCreateEvent_rollback now status addr walletTx outputIdx sib s r s1 :
  GetOrCreateEvent now status addr walletTx outputIdx sib s = (r, s1) ->
  is_Ok r = false -> s1 = s.
Proof.
  unfold GetOrCreateEvent. destruct (Serialize _); [|congruence].
  destruct (encodeOutpoint _); [|congruence].
  destruct (index _ _); [|congruence].
  apply ExecTx_rollback.
Qed.

Lemma upsert_length_S {A : Type} (conflict : A -> bool) (merge : A -> A)
  (new : A) (rows rows' : list A) (id : nat) :
  upsert conflict merge new rows = (id, rows') ->
  (List.length rows' <= S (List.length rows))%nat.
Proof.
  intros E. destruct (upsert_cases _ _ _ _ _ _ E)
    as [[old [F [Ro [C ->]]]]|[F [-> ->]]].
  - rewrite length_set_row. lia.
  - rewrite length_app. simpl. lia.
Qed.

(** What a call of [GetOrCreateEvent] leaves alone, and the tables it
    writes, as they are after a call that returned an event. *)
Lemma GetOrCreateEvent_tables now status addr walletTx outputIdx sib s r s1 :
  GetOrCreateEvent now status addr walletTx outputIdx sib s = (r, s1) ->
  s1 = s \/
  exists txID txRows utxoID utxoRows eventID evRows
         conflict1 merge1 new1 conflict2 merge2 new2 conflict3 merge3 new3,
    upsert conflict1 merge1 new1 (chain_txns s) = (txID, txRows) /\
    upsert conflict2 merge2 new2 (managed_utxos s) = (utxoID, utxoRows) /\
    upsert conflict3 merge3 new3 (addr_events s) = (eventID, evRows) /\
    s1 = mkStore (internal_keys s) (script_keys s) (genesis_points s)
           (genesis_assets s) (addrs s) txRows utxoRows evRows
           (asset_proofs s).
Proof.
  intros E. destruct r as [ev|e|p];
    try (left; apply (GetOrCreateEvent_rollback _ _ _ _ _ _ _ _ _ E eq_refl)).
  right. apply GetOrCreateEvent_Ok in E.
  destruct E as [txBuf [opb [od [_ [_ [_ E]]]]]].
  apply getOrCreateEventTx_Ok in E.
  destruct E as [row [chainTxID [txRows [c [keyID [utxoID [utxoRows [addrID
    [txnID [eventID [evRows [_ [U1 [_ [_ [U2 [_ [_ [_ [U3 [-> _]]]]]]]]]]]]]]]]]]]]].
  eexists chainTxID, txRows, utxoID, utxoRows, eventID, evRows,
    _, _, _, _, _, _, _, _, _.
  repeat split; eassumption.
Qed.

(** X10.  [GetOrCreateEvent] is all or nothing and touches the event side
    only: when it does not return an event the store is as before, also
    when a later step fails after the chain transaction or the UTXO was
    upserted; in any case the keys, the geneses, the addresses and the
    proofs are as before, and the chain transactions, the UTXOs and the
    events lose no row and gain at most one each. *)
Theorem GetOrCreateEvent_frame :
  forall now status addr walletTx outputIdx sib s r s1,
    GetOrCreateEvent now status addr walletTx outputIdx sib s = (r, s1) ->
    (is_Ok r = false -> s1 = s) /\
    internal_keys s1 = internal_keys s /\
    script_keys s1 = script_keys s /\
    genesis_points s1 = genesis_points s /\
    genesis_assets s1 = genesis_assets s /\
    addrs s1 = addrs s /\
    asset_proofs s1 = asset_proofs s /\
    (List.length (chain_txns s) <= List.length (chain_txns s1)
       <= S (List.length (chain_txns s)))%nat /\
    (List.length (managed_utxos s) <= List.length (managed_utxos s1)
       <= S (List.length (managed_utxos s)))%nat /\
    (List.length (addr_events s) <= List.length (addr_events s1)
       <= S (List.length (addr_events s)))%nat.
Proof.
  intros now status addr walletTx outputIdx sib s r s1 E.
  split; [apply (GetOrCreateEvent_rollback _ _ _ _ _ _ _ _ _ E)|].
  destruct (GetOrCreateEvent_tables _ _ _ _ _ _ _ _ _ E)
    as [->|[txID [txRows [utxoID [utxoRows [eventID [evRows
         [c1 [m1 [n1 [c2 [m2 [n2 [c3 [m3 [n3 [U1 [U2 [U3 ->]]]]]]]]]]]]]]]]]]].
  - repeat split; lia.
  - simpl.
    pose proof (upsert_length _ _ _ _ _ _ U1).
    pose proof (upsert_length _ _ _ _ _ _ U2).
    pose proof (upsert_length _ _ _ _ _ _ U3).
    pose proof (upsert_length_S _ _ _ _ _ _ U1).
    pose proof (upsert_length_S _ _ _ _ _ _ U2).
    pose proof (upsert_length_S _ _ _ _ _ _ U3).
    repeat split; lia.
Qed.

Lemma UpsertAddrEvent_frame (arg : UpsertAddrEventParams) (s : Store) :
  addrs (snd (UpsertAddrEvent arg s)) = addrs s /\
  genesis_assets (snd (UpsertAddrEvent arg s)) = genesis_assets s /\
  script_keys (snd (UpsertAddrEvent arg s)) = script_keys s /\
  internal_keys (snd (UpsertAddrEvent arg s)) = internal_keys s.
Proof.
  unfold UpsertAddrEvent. destruct (negb _); [auto|].
  destruct (find_id _ (addrs s)); [|auto].
  destruct (find_id _ (chain_txns s)); [|auto].
  destruct (upsert _ _ _ _). simpl. auto.
Qed.

Lemma CompleteEvent_frame (event : Event) (status : Z) (anchorPoint : OutPoint)
  (s : Store) :
  addrs (snd (CompleteEvent event status anchorPoint s)) = addrs s /\
  genesis_assets (snd (CompleteEvent event status anchorPoint s)) =
    genesis_assets s /\
  script_keys (snd (CompleteEvent event status anchorPoint s)) = script_keys s /\
  internal_keys (snd (CompleteEvent event status anchorPoint s)) =
    internal_keys s.
Proof.
  unfold CompleteEvent, ExecTx, bind, wrapf, query, ret.
  destruct (FetchAssetProof _ s) as [pd|e|p]; simpl; auto.
  match goal with
  | |- context [UpsertAddrEvent ?x s] =>
      pose proof (UpsertAddrEvent_frame x s) as F;
      destruct (UpsertAddrEvent x s) as [[id|e|p] s1]
  end; simpl in *; auto.
Qed.

(** X8.  The constraints that the schema declares on [addrs] (a taproot
    output key of 32 bytes that no other row has, references that resolve)
    are kept by every operation of the address book that writes: a book
    that satisfies them satisfies them after [InsertAddrs], [SetAddrManaged],
    [GetOrCreateEvent] and [CompleteEvent], whatever these return. *)
Theorem addrs_constraints_kept :
  forall s,
    addrs_constraints s ->
    (forall batch, addrs_constraints (snd (InsertAddrs batch s))) /\
    (forall addr t, addrs_constraints (snd (SetAddrManaged addr t s))) /\
    (forall now status addr walletTx outputIdx sib,
        addrs_constraints
          (snd (GetOrCreateEvent now status addr walletTx outputIdx sib s))) /\
    (forall event status anchorPoint,
        addrs_constraints (snd (CompleteEvent event status anchorPoint s))).
Proof.
  intros s C. split; [|split; [|split]].
  - intros batch. unfold InsertAddrs, ExecTx.
    destruct (insertAddrs batch s) as [[[]|e|p] s1] eqn:E; simpl;
      [|exact C..].
    apply (insertAddrs_constraints batch s s1 E C).
  - intros addr t. rewrite SetAddrManaged_run. simpl.
    destruct C as [D F]. split; simpl.
    + rewrite map_map.
      rewrite (map_ext _ taproot_output_key); [exact D|].
      intros a. destruct (bytes_eqb _ _); reflexivity.
    + apply Forall_map. eapply Forall_impl; [|exact F].
      intros a H. unfold addr_row_ok in *. simpl.
      destruct (bytes_eqb _ _); simpl; exact H.
  - intros now status addr walletTx outputIdx sib.
    destruct (GetOrCreateEvent now status addr walletTx outputIdx sib s)
      as [r s1] eqn:E.
    destruct (GetOrCreateEvent_tables _ _ _ _ _ _ _ _ _ E)
      as [->|[? [? [? [? [? [? [? [? [? [? [? [? [? [? [? [_ [_ [_ ->]]]]]]]]]]]]]]]]]]];
      [exact C|].
    apply (addrs_constraints_frame s _); auto.
  - intros event status anchorPoint.
    destruct (CompleteEvent_frame event status anchorPoint s)
      as [A [G [K I]]].
    apply (addrs_constraints_frame s _); auto.
Qed.

(** ** Creating an event *)

Lemma filter_nil_find_id {A : Type} (p : A -> bool) (rows : list A) :
  filter p rows = [] -> find_id p rows = None.
Proof.
  induction rows as [|x rows IH]; simpl; [reflexivity|].
  destruct (p x); [discriminate|]. intros E. rewrite (IH E). reflexivity.
Qed.

Lemma find_id_all_false {A : Type} (p : A -> bool) (rows : list A) :
  (forall r, In r rows -> p r = false) -> find_id p rows = None.
Proof.
  induction rows as [|x rows IH]; intros H; simpl; [reflexivity|].
  rewrite (H x (or_introl eq_refl)), IH; [reflexivity|].
  intros r I. apply H. right. exact I.
Qed.

(** After the chain transaction is upserted, no event is stored yet under
    the key of a new event. *)
Lemma no_event_yet (s : Store) (key txHash : bytes) (idx : Z)
  (row : ChainTx_row) (addrID chainTxID : nat) (txRows : list ChainTx_row) :
  events_constraints s ->
  events_for s key txHash idx = [] ->
  find_id (fun a => bytes_eqb (taproot_output_key a) key) (addrs s) =
    Some addrID ->
  upsert (fun r => bytes_eqb (txid r) txHash) (merge_chain_tx row) row
    (chain_txns s) = (chainTxID, txRows) ->
  find_id (event_key_eqb addrID chainTxID idx) (addr_events s) = None.
Proof.
  intros W N Fa U. unfold events_for in N. rewrite Fa in N.
  destruct (upsert_cases _ _ _ _ _ _ U)
    as [[old [F [Ro [C ->]]]]|[F [-> ->]]].
  - rewrite F in N. apply filter_nil_find_id. exact N.
  - apply find_id_all_false. intros e I.
    unfold events_constraints in W. rewrite Forall_forall in W.
    destruct (W e I) as [_ [T _]].
    destruct (row_at (chain_txns s) (ae_chain_txn_id e)) as [t|] eqn:R;
      [|discriminate].
    apply row_at_lt in R. unfold event_key_eqb, next_id.
    destruct (Nat.eqb (ae_chain_txn_id e) (S (List.length (chain_txns s))))
      eqn:Q; [apply Nat.eqb_eq in Q; lia|].
    rewrite andb_false_r. reflexivity.
Qed.

(** The first call of [GetOrCreateEvent] for an address, a transaction and
    an output index, step by step. *)
Lemma GetOrCreateEvent_new :
  forall now status addr walletTx outputIdx sib s txBuf opb od c addrID keyID,
    Serialize (tx_Tx walletTx) = Some txBuf ->
    encodeOutpoint (mkOutPoint (TxHash (tx_Tx walletTx)) outputIdx) = Some opb ->
    index (tx_OutputDetails walletTx) outputIdx = Some od ->
    outputIdx < 2 ^ 32 ->
    len (TxHash (tx_Tx walletTx)) = 32 ->
    (0 < tx_Confirmations walletTx ->
     chainhash_NewHashFromStr (tx_BlockHash walletTx) <> None) ->
    TaroCommitment addr = Some c ->
    valid_status (int16 status) = true ->
    find_id (fun a => bytes_eqb (taproot_output_key a) (addr_key addr))
      (addrs s) = Some addrID ->
    find_id (fun k => bytes_eqb (raw_key k)
                        (SerializeCompressed (InternalKey (addr_Taro addr))))
      (internal_keys s) = Some keyID ->
    valid_key (InternalKey (addr_Taro addr)) ->
    events_constraints s ->
    events_for s (addr_key addr) (TxHash (tx_Tx walletTx)) (int32 outputIdx) = [] ->
    exists ev s1,
      GetOrCreateEvent now status addr walletTx outputIdx sib s = (Ok ev, s1) /\
      ev_ID ev = next_id (addr_events s) /\
      List.length (addr_events s1) = S (List.length (addr_events s)) /\
      List.length (events_for s1 (addr_key addr) (TxHash (tx_Tx walletTx))
                     (int32 outputIdx)) = 1%nat /\
      ev_Addr ev = addr /\
      ev_CreationTime ev = now /\
      ev_Status ev = int16 status /\
      ev_Outpoint ev = mkOutPoint (TxHash (tx_Tx walletTx)) outputIdx /\
      ev_Amt ev = od_Amount od /\
      ev_InternalKey ev = InternalKey (addr_Taro addr) /\
      ev_HasProof ev = false /\
      (0 < tx_Confirmations walletTx ->
       ev_ConfirmationHeight ev = uint32 (tx_BlockHeight walletTx)) /\
      (tx_Confirmations walletTx <= 0 ->
       find_id (fun t => bytes_eqb (txid t) (TxHash (tx_Tx walletTx)))
         (chain_txns s) = None ->
       ev_ConfirmationHeight ev = 0) /\
      (find_id (fun u => bytes_eqb (utxo_outpoint u) opb) (managed_utxos s) = None ->
       ev_TapscriptSibling ev = sib).
Proof.
  intros now status addr walletTx outputIdx sib s txBuf opb od c addrID keyID
    HS HO HI Hidx HL HB HC HV Fa Fk Vk W N.
  set (txHash := TxHash (tx_Tx walletTx)) in *.
  destruct (txUpsert_succeeds walletTx txHash txBuf HB) as [row T].
  destruct (txUpsert_Ok _ _ _ _ T) as [Tid Bh].
  destruct (upsert (fun r => bytes_eqb (txid r) txHash) (merge_chain_tx row)
              row (chain_txns s)) as [chainTxID txRows] eqn:U1.
  assert (Ft : find_id (fun t => bytes_eqb (txid t) txHash) txRows =
               Some chainTxID).
  { apply (upsert_find_conflict _ _ _ _ _ _ U1).
    - intros old Co. exact Co.
    - rewrite Tid. apply bytes_eqb_refl. }
  destruct (upsert (fun r => bytes_eqb (utxo_outpoint r) opb)
              (merge_utxo (utxoArg addr opb od sib c chainTxID) keyID)
              (utxo_of (utxoArg addr opb od sib c chainTxID) keyID)
              (managed_utxos s)) as [utxoID utxoRows] eqn:U2.
  pose proof (no_event_yet s (addr_key addr) txHash (int32 outputIdx) row
                addrID chainTxID txRows W N Fa U1) as Fe.
  set (new := event_of (eventArg now status addr txHash outputIdx utxoID)
                addrID chainTxID).
  assert (U3 : upsert (event_key_eqb addrID chainTxID (int32 outputIdx))
                 (merge_event (eventArg now status addr txHash outputIdx utxoID))
                 new (addr_events s) =
               (next_id (addr_events s), addr_events s ++ [new])).
  { unfold upsert. rewrite Fe. reflexivity. }
  set (s1 := mkStore (internal_keys s) (script_keys s) (genesis_points s)
               (genesis_assets s) (addrs s) txRows utxoRows
               (addr_events s ++ [new]) (asset_proofs s)).
  (* the rows that the new event is joined with *)
  destruct (find_id_Some _ _ _ Ft) as [t [Rt Ct]]. apply bytes_eqb_eq in Ct.
  destruct (upsert_result _ _ _ _ _ _ U2) as [u [Ru Hu]].
  assert (Ku : utxo_internal_key_id u = keyID /\ amt_sats u = od_Amount od).
  { destruct Hu as [->|[old [_ ->]]]; split; reflexivity. }
  destruct Ku as [Ku Au].
  destruct (find_id_Some _ _ _ Fk) as [kr [Rk Ck]]. apply bytes_eqb_eq in Ck.
  assert (Re : row_at (addr_events s1) (next_id (addr_events s)) = Some new).
  { apply row_at_app_new. }
  assert (Pk : ParsePubKey (event_key_bytes s1 new) =
               Some (InternalKey (addr_Taro addr))).
  { unfold event_key_bytes. cbn [s1 new event_of eventArg ae_managed_utxo_id
                                   ue_ManagedUtxoID managed_utxos internal_keys].
    rewrite Ru, Ku, Rk, Ck. exact Vk. }
  assert (Lt : event_txid s1 new = txHash).
  { unfold event_txid. cbn [s1 new event_of ae_chain_txn_id chain_txns].
    rewrite Rt. exact Ct. }
  assert (F : fetchEvent (next_id (addr_events s)) addr s1 =
              Ok (event_of_row s1 (next_id (addr_events s)) addr new
                    (InternalKey (addr_Taro addr)))).
  { apply fetchEvent_iff. exists new, (InternalKey (addr_Taro addr)).
    repeat split; [exact Re|exact Pk|rewrite Lt; exact HL]. }
  eexists _, s1. split.
  { unfold GetOrCreateEvent. fold txHash. rewrite HS, HO, HI. unfold ExecTx.
    rewrite (getOrCreateEventTx_run now status addr walletTx outputIdx sib
               txHash txBuf opb od s row chainTxID txRows c keyID utxoID
               utxoRows addrID chainTxID (next_id (addr_events s))
               (addr_events s ++ [new]) _ T U1 HC Fk U2 HV Fa Ft U3 F).
    reflexivity. }
  unfold event_of_row.
  cbn [ev_ID ev_Addr ev_CreationTime ev_Status ev_Outpoint ev_Amt
       ev_InternalKey ev_HasProof ev_ConfirmationHeight ev_TapscriptSibling].
  rewrite Lt.
  cbn [new event_of eventArg ae_creation_time ae_status ae_output_index
       ae_managed_utxo_id ae_chain_txn_id ae_asset_proof_id ue_CreationTime
       ue_Status ue_ChainTxnOutputIndex ue_ManagedUtxoID ue_AssetProofID
       s1 managed_utxos chain_txns addr_events].
  rewrite Ru, Rt.
  assert (Ix : 0 <= outputIdx).
  { unfold index in HI. destruct (outputIdx <? 0) eqn:Q; [discriminate|].
    apply Z.ltb_ge in Q. exact Q. }
  repeat split.
  - rewrite length_app. simpl. lia.
  - unfold events_for. cbn [s1 addrs chain_txns addr_events].
    rewrite Fa, Ft, filter_app, (find_id_None_filter _ _ Fe). simpl.
    unfold event_key_eqb. simpl. rewrite !Nat.eqb_refl, Z.eqb_refl.
    reflexivity.
  - rewrite uint32_int32 by lia. reflexivity.
  - exact Au.
  - intros Cf. unfold height_of.
    assert (Hh : block_height t = Some (tx_BlockHeight walletTx)).
    { apply Z.ltb_lt in Cf. rewrite Cf in Bh.
      destruct (upsert_result _ _ _ _ _ _ U1) as [t' [Rt' Ht']].
      rewrite Rt in Rt'. injection Rt' as <-.
      destruct Ht' as [->|[old [_ ->]]]; [exact Bh|].
      simpl. rewrite Bh. reflexivity. }
    rewrite Hh. reflexivity.
  - intros Cf Fn. unfold height_of.
    assert (Hh : block_height t = None).
    { assert (Q : (0 <? tx_Confirmations walletTx) = false)
        by (apply Z.ltb_ge; exact Cf).
      rewrite Q in Bh.
      destruct (upsert_cases _ _ _ _ _ _ U1)
        as [[old [F' _]]|[_ [E1 E2]]]; [congruence|].
      subst chainTxID txRows. rewrite row_at_app_new in Rt.
      injection Rt as <-. exact Bh. }
    rewrite Hh. reflexivity.
  - intros Fu.
    destruct (upsert_cases _ _ _ _ _ _ U2)
      as [[old [F' _]]|[_ [E1 E2]]]; [congruence|].
    subst utxoID utxoRows. rewrite row_at_app_new in Ru.
    injection Ru as <-. reflexivity.
Qed.

Lemma find_id_present {A : Type} (p : A -> bool) (rows : list A) (x : A) :
  In x rows -> p x = true -> exists i, find_id p rows = Some i.
Proof.
  intros I P. destruct (find_id p rows) as [i|] eqn:F; [exists i; reflexivity|].
  rewrite (find_id_None _ _ F x I) in P. discriminate.
Qed.

(** X11.  The first call of [GetOrCreateEvent] for a stored address, a
    transaction and an output index creates the event: with a transaction
    that serializes, an output index within the output details, a valid
    status, a commitment, and the internal key of the address in the key
    registry, it returns a new event, the only one under that key, with the
    next id, the address it was given, the time of the call, the status, the
    outpoint, the amount of the output, the internal key, no proof, the
    block height of a confirmed transaction (0 for a new unconfirmed one),
    and the sibling for a new UTXO. *)
Theorem GetOrCreateEvent_creates :
  forall now status addr walletTx outputIdx sib s txBuf opb od c,
    Serialize (tx_Tx walletTx) = Some txBuf ->
    encodeOutpoint (mkOutPoint (TxHash (tx_Tx walletTx)) outputIdx) = Some opb ->
    index (tx_OutputDetails walletTx) outputIdx = Some od ->
    outputIdx < 2 ^ 32 ->
    len (TxHash (tx_Tx walletTx)) = 32 ->
    (0 < tx_Confirmations walletTx ->
     chainhash_NewHashFromStr (tx_BlockHash walletTx) <> None) ->
    TaroCommitment addr = Some c ->
    valid_status (int16 status) = true ->
    key_stored s (addr_key addr) ->
    (exists kr, In kr (internal_keys s) /\
                raw_key kr = SerializeCompressed (InternalKey (addr_Taro addr))) ->
    valid_key (InternalKey (addr_Taro addr)) ->
    events_constraints s ->
    events_for s (addr_key addr) (TxHash (tx_Tx walletTx)) (int32 outputIdx) = [] ->
    exists ev s1,
      GetOrCreateEvent now status addr walletTx outputIdx sib s = (Ok ev, s1) /\
      ev_ID ev = next_id (addr_events s) /\
      List.length (addr_events s1) = S (List.length (addr_events s)) /\
      List.length (events_for s1 (addr_key addr) (TxHash (tx_Tx walletTx))
                     (int32 outputIdx)) = 1%nat /\
      ev_Addr ev = addr /\
      ev_CreationTime ev = now /\
      ev_Status ev = int16 status /\
      ev_Outpoint ev = mkOutPoint (TxHash (tx_Tx walletTx)) outputIdx /\
      ev_Amt ev = od_Amount od /\
      ev_InternalKey ev = InternalKey (addr_Taro addr) /\
      ev_HasProof ev = false /\
      (0 < tx_Confirmations walletTx ->
       ev_ConfirmationHeight ev = uint32 (tx_BlockHeight walletTx)) /\
      (tx_Confirmations walletTx <= 0 ->
       find_id (fun t => bytes_eqb (txid t) (TxHash (tx_Tx walletTx)))
         (chain_txns s) = None ->
       ev_ConfirmationHeight ev = 0) /\
      (find_id (fun u => bytes_eqb (utxo_outpoint u) opb) (managed_utxos s) = None ->
       ev_TapscriptSibling ev = sib).
Proof.
  intros now status addr walletTx outputIdx sib s txBuf opb od c
    HS HO HI Hidx HL HB HC HV [row [Ir Kr]] [kr [Ik Kk]] Vk W N.
  destruct (find_id_present
              (fun a => bytes_eqb (taproot_output_key a) (addr_key addr))
              (addrs s) row Ir) as [addrID Fa].
  { apply bytes_eqb_eq. exact Kr. }
  destruct (find_id_present
              (fun k => bytes_eqb (raw_key k)
                          (SerializeCompressed (InternalKey (addr_Taro addr))))
              (internal_keys s) kr Ik) as [keyID Fk].
  { apply bytes_eqb_eq. exact Kk. }
  apply (GetOrCreateEvent_new now status addr walletTx outputIdx sib s txBuf
           opb od c addrID keyID); assumption.
Qed.

(** ** What [QueryAddrEvents] returns *)

(** X14.  What [QueryAddrEvents] returns: the events come by ascending id,
    each is the stored event row under its id as [fetchEvent] reads it, with
    a status within the bounds of the query and an address read from the
    row's address; and every stored event whose status is within the bounds
    and whose address has the key of the filter, when there is one, is
    returned. *)
Theorem QueryAddrEvents_result :
  forall cp q s l,
    fst (QueryAddrEvents cp q s) = Ok l ->
    StronglySorted lt (map ev_ID l) /\
    Forall (fun e =>
              exists row a k,
                row_at (addr_events s) (ev_ID e) = Some row /\
                row_at (addrs s) (ae_addr_id row) = Some a /\
                schnorr_ParsePubKey (taproot_output_key a) =
                  Some (TaprootOutputKey (ev_Addr e)) /\
                e = event_of_row s (ev_ID e) (ev_Addr e) row k /\
                q_StatusFrom (sqlQuery q) <= ev_Status e <= q_StatusTo (sqlQuery q))
      l /\
    (forall id row a,
        row_at (addr_events s) id = Some row ->
        row_at (addrs s) (ae_addr_id row) = Some a ->
        q_StatusFrom (sqlQuery q) <= ae_status row <= q_StatusTo (sqlQuery q) ->
        (forall k, q_AddrTaprootKey (sqlQuery q) = Some k ->
                   taproot_output_key a = k) ->
        In id (map ev_ID l)).
Proof.
  intros cp q s l E. rewrite QueryAddrEvents_unfold in E. cbn [fst] in E.
  pose proof (QueryEventIDs_In (sqlQuery q) s) as HI.
  assert (HS : StronglySorted lt
                 (map id_EventID
                    (match QueryEventIDs (sqlQuery q) s with
                     | Ok ids => ids
                     | _ => []
                     end))).
  { unfold QueryEventIDs, with_ids. apply filter_map_sorted.
    intros id r y F. destruct (row_at (addrs s) (ae_addr_id r)); [|discriminate].
    destruct (event_matches _ _ _); [|discriminate].
    injection F as <-. reflexivity. }
  destruct (QueryEventIDs (sqlQuery q) s) as [ids|e|p]; try discriminate.
  apply queryAddrEventsLoop_Ok in E.
  assert (M : map ev_ID l = map id_EventID ids).
  { clear HI HS. induction E as [|i e ids l Q E IH]; [reflexivity|].
    simpl. destruct (queryAddrEvent_Ok _ _ _ _ Q) as [-> _]. congruence. }
  split; [rewrite M; exact HS|]. split.
  - apply Forall_forall. intros e Ie.
    assert (H : exists i, In i ids /\ queryAddrEvent cp s i = Ok e).
    { clear HI HS M. induction E as [|i e' ids l Q E IH]; [contradiction|].
      destruct Ie as [<-|Ie].
      - exists i. split; [left; reflexivity|exact Q].
      - destruct (IH Ie) as [i' [I' Q']]. exists i'. split; [right|]; assumption. }
    destruct H as [i [Ii Q]].
    destruct (queryAddrEvent_Ok _ _ _ _ Q) as [Eid [Pk [_ F]]].
    apply HI in Ii. destruct Ii as [row [a [R [Ra [K Mt]]]]].
    apply fetchEvent_iff in F. destruct F as [row' [k [R' [_ [_ Ee]]]]].
    rewrite R in R'. injection R' as <-.
    assert (St : ev_Status e = ae_status row) by (rewrite Ee; reflexivity).
    unfold event_matches in Mt.
    apply andb_true_iff in Mt. destruct Mt as [Mt _].
    apply andb_true_iff in Mt. destruct Mt as [M1 M2].
    apply Z.leb_le in M1. apply Z.leb_le in M2.
    exists row, a, k.
    split; [rewrite Eid; exact R|].
    split; [exact Ra|].
    split; [rewrite <- K; exact Pk|].
    split; [rewrite Eid; exact Ee|].
    rewrite St. split; assumption.
  - intros id row a R Ra [S1 S2] Hk. rewrite M.
    apply in_map_iff. exists (mkAddrEventID id (taproot_output_key a)).
    split; [reflexivity|]. apply HI. exists row, a. simpl.
    repeat split; try assumption. unfold event_matches.
    apply Z.leb_le in S1. apply Z.leb_le in S2. rewrite S1, S2. simpl.
    destruct (q_AddrTaprootKey (sqlQuery q)) as [k|]; [|reflexivity].
    apply orb_true_iff. right. apply bytes_eqb_eq. apply Hk. reflexivity.
Qed.

(** X15.  A query that nothing matches is no error: with a lower status
    bound above the upper one, or with a key filter, not made of zero bytes
    only, that is the key of no address, [QueryAddrEvents] returns the
    empty list. *)
Theorem QueryAddrEvents_no_match :
  forall cp q s,
    (q_StatusTo (sqlQuery q) < q_StatusFrom (sqlQuery q) ->
     QueryAddrEvents cp q s = (Ok [], s)) /\
    (forall k,
        eq_AddrTaprootOutputKey q = Some k -> all_zero k = false ->
        (forall a, In a (addrs s) -> taproot_output_key a <> k) ->
        QueryAddrEvents cp q s = (Ok [], s)).
Proof.
  intros cp q s.
  assert (H : (forall x, In x (with_ids (addr_events s)) ->
                 (let '(id, ev) := x in
                  match row_at (addrs s) (ae_addr_id ev) with
                  | Some a =>
                      if event_matches (sqlQuery q) (taproot_output_key a) ev
                      then Some (mkAddrEventID id (taproot_output_key a))
                      else None
                  | None => None
                  end) = None) ->
              QueryAddrEvents cp q s = (Ok [], s)).
  { intros H. rewrite QueryAddrEvents_unfold. unfold QueryEventIDs.
    rewrite (filter_map_nil _ _ H). reflexivity. }
  split.
  - intros R. apply H. intros [id ev] _.
    destruct (row_at (addrs s) (ae_addr_id ev)) as [a|]; [|reflexivity].
    unfold event_matches.
    destruct (q_StatusFrom (sqlQuery q) <=? ae_status ev) eqn:A;
      [|reflexivity].
    destruct (ae_status ev <=? q_StatusTo (sqlQuery q)) eqn:B;
      [|reflexivity].
    apply Z.leb_le in A. apply Z.leb_le in B. lia.
  - intros k K Z0 N. apply H. intros [id ev] _.
    destruct (row_at (addrs s) (ae_addr_id ev)) as [a|] eqn:Ra; [|reflexivity].
    unfold event_matches.
    destruct q as [key from to]. simpl in K. subst key.
    assert (L : 0 < len k).
    { destruct k as [|b k]; [discriminate|]. unfold len. simpl. lia. }
    rewrite (sqlQuery_key k from to L).
    apply row_at_In in Ra. apply N in Ra. apply bytes_eqb_neq in Ra.
    rewrite Ra, Z0, andb_false_r. reflexivity.
Qed.

(** ** The block of the transaction *)

(** X13.  [GetOrCreateEvent] reads the block of the transaction only when
    the transaction has confirmations: without confirmations the block hash
    and the block height do not matter, with confirmations a block hash that
    does not parse makes the call fail with the error wrapped as error
    parsing block hash, and the store is as before. *)
Theorem GetOrCreateEvent_block_hash :
  forall now status addr tx conf hash height ods outputIdx sib s,
    (conf <= 0 ->
     forall hash' height',
       GetOrCreateEvent now status addr
         (mkTransaction tx conf hash height ods) outputIdx sib s =
       GetOrCreateEvent now status addr
         (mkTransaction tx conf hash' height' ods) outputIdx sib s) /\
    (0 < conf ->
     chainhash_NewHashFromStr hash = None ->
     forall txBuf opb,
       Serialize tx = Some txBuf ->
       encodeOutpoint (mkOutPoint (TxHash tx) outputIdx) = Some opb ->
       0 <= outputIdx < Z.of_nat (List.length ods) ->
       exists e,
         GetOrCreateEvent now status addr
           (mkTransaction tx conf hash height ods) outputIdx sib s =
         (Err (Errorf "error parsing block hash" e), s)).
Proof.
  intros now status addr tx conf hash height ods outputIdx sib s. split.
  - intros C hash' height'. unfold GetOrCreateEvent. simpl.
    destruct (Serialize tx) as [txBuf|]; [|reflexivity].
    destruct (encodeOutpoint _) as [opb|]; [|reflexivity].
    destruct (index ods outputIdx) as [od|]; [|reflexivity].
    unfold ExecTx, getOrCreateEventTx, bind, lift, txUpsert. simpl.
    assert (Q : (0 <? conf) = false) by (apply Z.ltb_ge; exact C).
    rewrite Q. reflexivity.
  - intros C N txBuf opb HS HO HI. unfold GetOrCreateEvent. simpl.
    rewrite HS, HO. destruct (index_Some ods outputIdx HI) as [od ->].
    unfold ExecTx, getOrCreateEventTx, bind, lift, txUpsert. simpl.
    assert (Q : (0 <? conf) = true) by (apply Z.ltb_lt; exact C).
    rewrite Q, N. eexists. reflexivity.
Qed.

(** ** Completing an event again *)

Lemma set_nth_same {A : Type} (rows : list A) (i : nat) (r : A) :
  nth_error rows i = Some r -> set_nth rows i r = rows.
Proof.
  revert i. induction rows as [|x rows IH]; intros [|i] E; simpl in *;
    try discriminate.
  - congruence.
  - rewrite (IH i E). reflexivity.
Qed.

Lemma set_row_same {A : Type} (rows : list A) (id : nat) (r : A) :
  row_at rows id = Some r -> set_row rows id r = rows.
Proof.
  destruct id; simpl; [discriminate|]. apply set_nth_same.
Qed.

(** An upsert that is repeated finds the row of the first time; when the
    merge does not change that row any more, neither does the upsert. *)
Lemma upsert_again {A : Type} (conflict : A -> bool) (merge : A -> A) (new : A)
  (rows rows' : list A) (id : nat) :
  upsert conflict merge new rows = (id, rows') ->
  (forall old, conflict old = true -> conflict (merge old) = true) ->
  conflict new = true ->
  merge new = new ->
  (forall old, merge (merge old) = merge old) ->
  upsert conflict merge new rows' = (id, rows').
Proof.
  intros U Hc Hn Mn Mm.
  pose proof (upsert_find_conflict _ _ _ _ _ _ U Hc Hn) as F.
  destruct (upsert_result _ _ _ _ _ _ U) as [r [R Hr]].
  unfold upsert. rewrite F, R. f_equal. apply set_row_same.
  destruct Hr as [->|[old [_ ->]]]; [rewrite Mn|rewrite Mm]; exact R.
Qed.

(** X17.  [CompleteEvent] can be repeated: called again with the same
    arguments on the store that a successful call left, it succeeds and
    leaves that store as it is. *)
Theorem CompleteEvent_twice :
  forall event status anchorPoint s s1,
    CompleteEvent event status anchorPoint s = (Ok tt, s1) ->
    CompleteEvent event status anchorPoint s1 = (Ok tt, s1).
Proof.
  intros event status anchorPoint s s1.
  unfold CompleteEvent, ExecTx, bind, wrapf, query, ret, FetchAssetProof.
  destruct (find _ (asset_proofs s)) as [p|] eqn:Fp; [|discriminate].
  unfold UpsertAddrEvent. cbn [ue_Status ue_TaprootOutputKey ue_Txid
                                 ue_ChainTxnOutputIndex].
  destruct (negb (valid_status (int16 status))) eqn:V; [discriminate|].
  destruct (find_id _ (addrs s)) as [addrID|] eqn:Fa; [|discriminate].
  destruct (find_id _ (chain_txns s)) as [txnID|] eqn:Ft; [|discriminate].
  destruct (upsert _ _ _ (addr_events s)) as [id rows'] eqn:U.
  intros E. injection E as <-.
  cbn [set_addr_events asset_proofs addrs chain_txns addr_events].
  rewrite Fp. unfold set_addr_events.
  cbn [addrs chain_txns addr_events]. rewrite Fa, Ft.
  rewrite (upsert_again _ _ _ _ _ _ U).
  - reflexivity.
  - intros old C. exact C.
  - unfold event_key_eqb, event_of. simpl.
    rewrite !Nat.eqb_refl, Z.eqb_refl. reflexivity.
  - reflexivity.
  - intros old. reflexivity.
Qed.

(** ** The references of the events *)

Lemma event_row_ok_frame (s s1 : Store) (e : AddrEvent_row) :
  (forall j, is_some (row_at (addrs s) j) = true ->
             is_some (row_at (addrs s1) j) = true) ->
  (forall j, is_some (row_at (chain_txns s) j) = true ->
             is_some (row_at (chain_txns s1) j) = true) ->
  event_row_ok s e -> event_row_ok s1 e.
Proof.
  intros Ha Ht [A [T V]]. unfold event_row_ok. auto.
Qed.

Lemma Forall_set_nth {A : Type} (P : A -> Prop) (rows : list A) (i : nat) (r : A) :
  Forall P rows -> P r -> Forall P (set_nth rows i r).
Proof.
  intros F Pr. revert i. induction F as [|x rows Px F IH]; intros [|i]; simpl;
    constructor; auto.
Qed.

Lemma Forall_upsert {A : Type} (P : A -> Prop) (conflict : A -> bool)
  (merge : A -> A) (new : A) (rows rows' : list A) (id : nat) :
  upsert conflict merge new rows = (id, rows') ->
  Forall P rows -> (forall old, P old -> P (merge old)) -> P new ->
  Forall P rows'.
Proof.
  intros U F Hm Hn. destruct (upsert_cases _ _ _ _ _ _ U)
    as [[old [_ [Ro [_ ->]]]]|[_ [_ ->]]].
  - destruct id as [|i]; [exact F|]. simpl. apply Forall_set_nth; [exact F|].
    apply Hm. rewrite Forall_forall in F. apply F.
    apply (row_at_In _ _ _ Ro).
  - apply Forall_app. split; [exact F|]. constructor; [exact Hn|constructor].
Qed.

Lemma UpsertAddrEvent_constraints (arg : UpsertAddrEventParams) (s : Store) :
  events_constraints s -> events_constraints (snd (UpsertAddrEvent arg s)).
Proof.
  intros W. unfold UpsertAddrEvent.
  destruct (valid_status (ue_Status arg)) eqn:V; simpl; [|exact W].
  destruct (find_id _ (addrs s)) as [addrID|] eqn:Fa; [|exact W].
  destruct (find_id _ (chain_txns s)) as [txnID|] eqn:Ft; [|exact W].
  destruct (upsert _ _ _ (addr_events s)) as [id rows'] eqn:U.
  unfold events_constraints. simpl.
  apply (Forall_upsert (event_row_ok s) _ _ _ _ _ _ U W).
  - intros old [A [T _]]. unfold event_row_ok. simpl. auto.
  - destruct (find_id_Some _ _ _ Fa) as [a [Ra _]].
    destruct (find_id_Some _ _ _ Ft) as [t [Rt _]].
    unfold event_row_ok. simpl. rewrite Ra, Rt. auto.
Qed.

Lemma is_some_row_at_app {A : Type} (rows more : list A) (j : nat) :
  is_some (row_at rows j) = true -> is_some (row_at (rows ++ more) j) = true.
Proof.
  destruct (row_at rows j) as [r|] eqn:R; [|discriminate].
  rewrite (row_at_app_l _ _ _ _ R). reflexivity.
Qed.

Lemma is_some_row_at_map {A : Type} (f : A -> A) (rows : list A) (j : nat) :
  is_some (row_at rows j) = true -> is_some (row_at (map f rows) j) = true.
Proof.
  destruct j as [|j]; simpl; [discriminate|]. rewrite nth_error_map.
  destruct (nth_error rows j); [reflexivity|discriminate].
Qed.

Lemma insertAddrs_events_constraints (l : list AddrWithKeyInfo) (s s1 : Store) :
  insertAddrs l s = (Ok tt, s1) ->
  events_constraints s -> events_constraints s1.
Proof.
  intros E W. destruct (insertAddrs_rows _ _ _ E) as [rows [A _]].
  pose proof (insertAddrs_frame l s) as F. rewrite E in F. simpl in F.
  destruct F as [F1 [_ [F3 _]]].
  unfold events_constraints. rewrite F3.
  eapply Forall_impl; [|exact W]. intros e0. apply event_row_ok_frame.
  - intros j. rewrite A. apply is_some_row_at_app.
  - intros j. rewrite F1. auto.
Qed.

(** X9.  Every event row refers to an address and to a chain transaction
    that exist and has a valid status code; the operations of the address
    book that write keep this, whatever they return. *)
Theorem events_constraints_kept :
  forall s,
    events_constraints s ->
    (forall batch, events_constraints (snd (InsertAddrs batch s))) /\
    (forall addr t, events_constraints (snd (SetAddrManaged addr t s))) /\
    (forall now status addr walletTx outputIdx sib,
        events_constraints
          (snd (GetOrCreateEvent now status addr walletTx outputIdx sib s))) /\
    (forall event status anchorPoint,
        events_constraints (snd (CompleteEvent event status anchorPoint s))).
Proof.
  intros s W. split; [|split; [|split]].
  - intros batch. unfold InsertAddrs, ExecTx.
    destruct (insertAddrs batch s) as [[[]|e|p] s1] eqn:E; simpl;
      [|exact W..].
    apply (insertAddrs_events_constraints batch s s1 E W).
  - intros addr t. rewrite SetAddrManaged_run. unfold events_constraints.
    simpl. eapply Forall_impl; [|exact W]. intros e0.
    apply event_row_ok_frame; simpl; [|auto].
    intros j. apply is_some_row_at_map.
  - intros now status addr walletTx outputIdx sib.
    destruct (GetOrCreateEvent now status addr walletTx outputIdx sib s)
      as [[ev|e|p] s1] eqn:E;
      try (rewrite (GetOrCreateEvent_rollback _ _ _ _ _ _ _ _ _ E eq_refl);
           exact W).
    apply GetOrCreateEvent_Ok in E.
    destruct E as [txBuf [opb [od [_ [_ [_ E]]]]]].
    apply getOrCreateEventTx_Ok in E.
    destruct E as [row [chainTxID [txRows [c [keyID [utxoID [utxoRows [addrID
      [txnID [eventID [evRows [_ [U1 [_ [_ [_ [V [Fa [Ft [U3 [-> _]]]]]]]]]]]]]]]]]]]]].
    unfold events_constraints. simpl.
    set (s1 := mkStore (internal_keys s) (script_keys s) (genesis_points s)
                 (genesis_assets s) (addrs s) txRows utxoRows evRows
                 (asset_proofs s)).
    assert (W1 : Forall (event_row_ok s1) (addr_events s)).
    { eapply Forall_impl; [|exact W]. intros e0.
      apply event_row_ok_frame; simpl; [auto|].
      intros j. apply (upsert_is_some _ _ _ _ _ _ _ U1). }
    apply (Forall_upsert (event_row_ok s1) _ _ _ _ _ _ U3 W1).
    + intros old [A [T _]]. unfold event_row_ok. simpl. auto.
    + destruct (find_id_Some _ _ _ Fa) as [a [Ra _]].
      destruct (find_id_Some _ _ _ Ft) as [t [Rt _]].
      unfold event_row_ok. simpl. rewrite Ra, Rt. auto.
  - intros event status anchorPoint.
    unfold CompleteEvent, ExecTx, bind, wrapf, query, ret.
    destruct (FetchAssetProof _ s) as [pd|e|p]; simpl; try exact W.
    match goal with
    | |- context [UpsertAddrEvent ?x s] =>
        pose proof (UpsertAddrEvent_constraints x s W) as K;
        destruct (UpsertAddrEvent x s) as [[id|e|p] s1]
    end; simpl in *; auto.
Qed.

(** ** An event for an address that was just inserted *)

Lemma insertAddr_key_find (k : bytes) (b : AddrWithKeyInfo) (s s1 : Store)
  (i : nat) :
  find_id (fun r => bytes_eqb (raw_key r) k) (internal_keys s) = Some i ->
  insertAddr b s = (Ok tt, s1) ->
  find_id (fun r => bytes_eqb (raw_key r) k) (internal_keys s1) = Some i.
Proof.
  intros F E. apply insertAddr_Ok in E.
  destruct E as [gpID [gpRows [genID [genRows [rawID [keys1 [skID [skRows
    [tkID [keys2 [_ [_ [U3 [_ [U5 [_ ->]]]]]]]]]]]]]]]].
  simpl. apply (upsert_key_find k _ _ _ _ _ U5).
  apply (upsert_key_find k _ _ _ _ _ U3). exact F.
Qed.

Lemma insertAddrs_key_find (k : bytes) (l : list AddrWithKeyInfo)
  (s s1 : Store) (i : nat) :
  find_id (fun r => bytes_eqb (raw_key r) k) (internal_keys s) = Some i ->
  insertAddrs l s = (Ok tt, s1) ->
  find_id (fun r => bytes_eqb (raw_key r) k) (internal_keys s1) = Some i.
Proof.
  revert s. induction l as [|b l IH]; intros s F E; simpl in E.
  - unfold ret in E. congruence.
  - unfold bind in E. destruct (insertAddr b s) as [[[]|e|p] s'] eqn:Eb;
      try discriminate.
    apply (IH s'); [|exact E]. apply (insertAddr_key_find k b s s' i F Eb).
Qed.

(** The taproot internal key of an address that was inserted is in the
    key registry. *)
Lemma insertAddrs_registers_key (l : list AddrWithKeyInfo) (s s1 : Store)
  (a : AddrWithKeyInfo) :
  insertAddrs l s = (Ok tt, s1) -> In a l ->
  exists i,
    find_id (fun r => bytes_eqb (raw_key r)
                        (SerializeCompressed (kd_PubKey (InternalKeyDesc a))))
      (internal_keys s1) = Some i.
Proof.
  revert s. induction l as [|b l IH]; intros s E I; [contradiction|].
  simpl in E. unfold bind in E.
  destruct (insertAddr b s) as [[[]|e|p] s'] eqn:Eb; try discriminate.
  destruct I as [->|I]; [|apply (IH s' E I)].
  pose proof Eb as Eb'. apply insertAddr_Ok in Eb'.
  destruct Eb' as [gpID [gpRows [genID [genRows [rawID [keys1 [skID [skRows
    [tkID [keys2 [_ [_ [_ [_ [U5 [_ Es]]]]]]]]]]]]]]]].
  exists tkID. apply (insertAddrs_key_find _ l s' s1 tkID); [|exact E].
  rewrite Es. simpl.
  apply (upsert_find_conflict _ _ _ _ _ _ U5).
  - intros old C. simpl. apply bytes_eqb_refl.
  - simpl. apply bytes_eqb_refl.
Qed.

(** X12.  An address that [InsertAddrs] has just inserted can receive an
    event, provided its [InternalKey] is the key of its [InternalKeyDesc]
    (the key that [InsertAddrs] registers, and the one under which
    [GetOrCreateEvent] looks the owner of the UTXO up): the call succeeds
    and returns the first event of that address. *)
Theorem InsertAddrs_then_GetOrCreateEvent :
  forall batch s s1 addr now status walletTx outputIdx sib txBuf opb od c,
    InsertAddrs batch s = (Ok tt, s1) ->
    In addr batch ->
    InternalKey (addr_Taro addr) = kd_PubKey (InternalKeyDesc addr) ->
    valid_key (InternalKey (addr_Taro addr)) ->
    events_constraints s ->
    Serialize (tx_Tx walletTx) = Some txBuf ->
    encodeOutpoint (mkOutPoint (TxHash (tx_Tx walletTx)) outputIdx) = Some opb ->
    index (tx_OutputDetails walletTx) outputIdx = Some od ->
    outputIdx < 2 ^ 32 ->
    len (TxHash (tx_Tx walletTx)) = 32 ->
    (0 < tx_Confirmations walletTx ->
     chainhash_NewHashFromStr (tx_BlockHash walletTx) <> None) ->
    TaroCommitment addr = Some c ->
    valid_status (int16 status) = true ->
    exists ev s2,
      GetOrCreateEvent now status addr walletTx outputIdx sib s1 = (Ok ev, s2) /\
      ev_ID ev = next_id (addr_events s) /\
      List.length (addr_events s2) = S (List.length (addr_events s)) /\
      ev_Addr ev = addr /\
      ev_CreationTime ev = now /\
      ev_Status ev = int16 status /\
      ev_Outpoint ev = mkOutPoint (TxHash (tx_Tx walletTx)) outputIdx /\
      ev_Amt ev = od_Amount od /\
      ev_InternalKey ev = InternalKey (addr_Taro addr) /\
      ev_HasProof ev = false.
Proof.
  intros batch s s1 addr now status walletTx outputIdx sib txBuf opb od c
    E I Ek Vk W HS HO HI Hidx HL HB HC HV.
  unfold InsertAddrs in E. apply (ExecTx_Ok false) in E.
  (* the row of the address is new *)
  destruct (insertAddrs_cases batch s)
    as [[e [s' [E' _]]]|[s' [rows [E' [A [K [_ Nw]]]]]]];
    rewrite E in E'; [discriminate|].
  injection E' as <-.
  assert (F0 : find_id (fun a => bytes_eqb (taproot_output_key a) (addr_key addr))
                 (addrs s) = None).
  { apply find_id_all_false. intros r Ir. apply bytes_eqb_neq. intros Kr.
    apply (Nw addr I). exists r. auto. }
  assert (Hr : exists row, In row rows /\ taproot_output_key row = addr_key addr).
  { assert (Ik : In (addr_key addr) (map taproot_output_key rows)).
    { rewrite K. apply in_map. exact I. }
    apply in_map_iff in Ik. destruct Ik as [row [Kr Ir]]. exists row. auto. }
  destruct Hr as [row [Ir Kr]].
  destruct (find_id_present
              (fun a => bytes_eqb (taproot_output_key a) (addr_key addr))
              rows row Ir) as [i Fi].
  { apply bytes_eqb_eq. exact Kr. }
  assert (Fa : find_id (fun a => bytes_eqb (taproot_output_key a) (addr_key addr))
                 (addrs s1) = Some (List.length (addrs s) + i)%nat).
  { rewrite A, find_id_app, F0, Fi. reflexivity. }
  assert (Pi : (0 < i)%nat).
  { destruct (find_id_Some _ _ _ Fi) as [r [R _]]. apply row_at_lt in R. lia. }
  (* its internal key is registered *)
  destruct (insertAddrs_registers_key batch s s1 addr E I) as [keyID Fk].
  rewrite <- Ek in Fk.
  (* the events are those of before, and none of them is an event of the
     new address *)
  pose proof (insertAddrs_events_constraints batch s s1 E W) as W1.
  pose proof (insertAddrs_frame batch s) as Fr. rewrite E in Fr. simpl in Fr.
  destruct Fr as [_ [_ [Fe _]]].
  assert (N : events_for s1 (addr_key addr) (TxHash (tx_Tx walletTx))
                (int32 outputIdx) = []).
  { unfold events_for. rewrite Fa.
    destruct (find_id _ (chain_txns s1)) as [txnID|]; [|reflexivity].
    rewrite Fe. apply find_id_None_filter. apply find_id_all_false.
    intros e0 I0. unfold events_constraints in W. rewrite Forall_forall in W.
    destruct (W e0 I0) as [Ra _].
    destruct (row_at (addrs s) (ae_addr_id e0)) as [r|] eqn:R; [|discriminate].
    apply row_at_lt in R. unfold event_key_eqb.
    destruct (Nat.eqb (ae_addr_id e0) (List.length (addrs s) + i)) eqn:Q;
      [apply Nat.eqb_eq in Q; lia|].
    reflexivity. }
  destruct (GetOrCreateEvent_new now status addr walletTx outputIdx sib s1
              txBuf opb od c _ keyID HS HO HI Hidx HL HB HC HV Fa Fk Vk W1 N)
    as [ev [s2 [G [H1 [H2 [_ [H4 [H5 [H6 [H7 [H8 [H9 [H10 _]]]]]]]]]]]]].
  exists ev, s2. rewrite Fe in H1, H2. repeat split; assumption.
Qed.

(** ** An event, created and then queried *)

Lemma Forall2_In_r {A B : Type} (R : A -> B -> Prop) (l : list A) (l' : list B)
  (y : B) :
  Forall2 R l l' -> In y l' -> exists x, In x l /\ R x y.
Proof.
  intros F. induction F as [|a b l l' Rab F IH]; intros I; [contradiction|].
  destruct I as [<-|I].
  - exists a. split; [left; reflexivity|exact Rab].
  - destruct (IH I) as [x [Ix Rx]]. exists x. split; [right|]; assumption.
Qed.

Lemma Forall2_In_l {A B : Type} (R : A -> B -> Prop) (l : list A) (l' : list B)
  (x : A) :
  Forall2 R l l' -> In x l -> exists y, In y l' /\ R x y.
Proof.
  intros F. induction F as [|a b l l' Rab F IH]; intros I; [contradiction|].
  destruct I as [<-|I].
  - exists b. split; [left; reflexivity|exact Rab].
  - destruct (IH I) as [y [Iy Ry]]. exists y. split; [right|]; assumption.
Qed.

(** X16.  An event that [GetOrCreateEvent] returned is found by
    [QueryAddrEvents]: a query whose status bounds include the status of the
    event and whose key filter, if any, is the key of the address returns an
    event that is equal to it in every field but the address, which the
    query reads from the book. *)
Theorem GetOrCreateEvent_then_QueryAddrEvents :
  forall now status addr walletTx outputIdx sib s ev s1 cp q l,
    GetOrCreateEvent now status addr walletTx outputIdx sib s = (Ok ev, s1) ->
    fst (QueryAddrEvents cp q s1) = Ok l ->
    q_StatusFrom (sqlQuery q) <= ev_Status ev <= q_StatusTo (sqlQuery q) ->
    (forall k, q_AddrTaprootKey (sqlQuery q) = Some k -> k = addr_key addr) ->
    exists e,
      In e l /\
      fetchAddr cp (TaprootOutputKey (ev_Addr e)) s1 = Ok (ev_Addr e) /\
      schnorr_ParsePubKey (addr_key addr) = Some (TaprootOutputKey (ev_Addr e)) /\
      e = mkEvent (ev_ID ev) (ev_CreationTime ev) (ev_Addr e) (ev_Status ev)
            (ev_Outpoint ev) (ev_Amt ev) (ev_InternalKey ev)
            (ev_TapscriptSibling ev) (ev_ConfirmationHeight ev)
            (ev_HasProof ev).
Proof.
  intros now status addr walletTx outputIdx sib s ev s1 cp q l G Q [S1 S2] Hk.
  apply GetOrCreateEvent_Ok in G.
  destruct G as [txBuf [opb [od [_ [_ [_ G]]]]]].
  apply getOrCreateEventTx_Ok in G.
  destruct G as [row0 [chainTxID [txRows [c [keyID [utxoID [utxoRows [addrID
    [txnID [eventID [evRows [_ [_ [_ [_ [_ [_ [Fa [_ [U3 [Es F]]]]]]]]]]]]]]]]]]]]].
  apply fetchEvent_iff in F. destruct F as [row [k [R [P [L Ee]]]]].
  (* the row belongs to the address *)
  assert (Ra : ae_addr_id row = addrID).
  { rewrite Es in R. simpl in R.
    destruct (upsert_result _ _ _ _ _ _ U3) as [r [R' [->|[old [Ro ->]]]]];
      rewrite R in R'; injection R' as ->; [reflexivity|].
    simpl. destruct (upsert_cases _ _ _ _ _ _ U3)
      as [[old' [_ [Ro' [C _]]]]|[_ [Eid _]]].
    - rewrite Ro in Ro'. injection Ro' as <-. unfold event_key_eqb in C.
      apply andb_true_iff in C. destruct C as [C _].
      apply andb_true_iff in C. destruct C as [C _].
      apply Nat.eqb_eq. exact C.
    - apply row_at_lt in Ro. unfold next_id in Eid. lia. }
  destruct (find_id_Some _ _ _ Fa) as [a [Raddr Ka]]. apply bytes_eqb_eq in Ka.
  assert (Raddr1 : row_at (addrs s1) (ae_addr_id row) = Some a).
  { rewrite Es, Ra. exact Raddr. }
  assert (St : ev_Status ev = ae_status row) by (rewrite Ee; reflexivity).
  (* the query finds it *)
  rewrite QueryAddrEvents_unfold in Q. cbn [fst] in Q.
  pose proof (QueryEventIDs_In (sqlQuery q) s1
                (mkAddrEventID eventID (taproot_output_key a))) as HI.
  destruct (QueryEventIDs (sqlQuery q) s1) as [ids|e0|p0]; try discriminate.
  apply queryAddrEventsLoop_Ok in Q.
  assert (Ii : In (mkAddrEventID eventID (taproot_output_key a)) ids).
  { apply HI. exists row, a. simpl. repeat split; try assumption.
    unfold event_matches. rewrite <- St.
    apply Z.leb_le in S1. apply Z.leb_le in S2. rewrite S1, S2. simpl.
    destruct (q_AddrTaprootKey (sqlQuery q)) as [k'|]; [|reflexivity].
    apply orb_true_iff. right.
    apply bytes_eqb_eq. rewrite Ka. symmetry. apply Hk. reflexivity. }
  destruct (Forall2_In_l _ _ _ _ Q Ii) as [e [Ie Qe]].
  destruct (queryAddrEvent_Ok _ _ _ _ Qe) as [Eid [Pk [Fad Fe]]].
  simpl in Eid, Pk, Fe.
  apply fetchEvent_iff in Fe. destruct Fe as [row' [k' [R' [P' [_ Ee']]]]].
  rewrite R in R'. injection R' as <-. rewrite P in P'. injection P' as <-.
  exists e. split; [exact Ie|]. split; [exact Fad|].
  split; [rewrite <- Ka; exact Pk|].
  rewrite Ee' at 1. rewrite Ee. reflexivity.
Qed.

(** ** What an address read from the book does not take from the store *)

(** X5.  What a read does not take from the store: [AddrByTaprootOutput]
    returns the key it was given as the taproot output key, and every
    address read by [AddrByTaprootOutput], [QueryAddrs] or [QueryAddrEvents]
    carries the chain parameters of the book, not those the address was
    inserted with. *)
Theorem read_address_fields :
  forall cp s,
    (forall key a,
        fst (AddrByTaprootOutput cp key s) = Ok a ->
        TaprootOutputKey a = key /\ Taro_ChainParams (addr_Taro a) = cp) /\
    (forall q l,
        fst (QueryAddrs cp q s) = Ok l ->
        Forall (fun a => Taro_ChainParams (addr_Taro a) = cp) l) /\
    (forall q l,
        fst (QueryAddrEvents cp q s) = Ok l ->
        Forall (fun e => Taro_ChainParams (addr_Taro (ev_Addr e)) = cp) l).
Proof.
  intros cp s. split; [|split].
  - intros key a E. unfold AddrByTaprootOutput, ExecTx, query in E.
    destruct (fetchAddr cp key s) as [a'|e|p] eqn:F; simpl in E;
      try discriminate.
    injection E as <-. apply fetchAddr_Ok in F.
    destruct F as [? [? [? [? [? [? [_ [_ [_ [_ [_ [_ ->]]]]]]]]]]]].
    split; reflexivity.
  - intros q l E. apply Forall_forall. intros a I.
    destruct (QueryAddrs_In _ _ _ _ _ E I) as [row [r [_ [_ [_ Q]]]]].
    apply queryAddr_Ok in Q.
    destruct Q as [? [? [? [? [? [? [_ [_ [_ [_ [_ [_ ->]]]]]]]]]]]].
    reflexivity.
  - intros q l E. rewrite QueryAddrEvents_unfold in E. cbn [fst] in E.
    destruct (QueryEventIDs (sqlQuery q) s) as [ids|e0|p0]; try discriminate.
    apply queryAddrEventsLoop_Ok in E. apply Forall_forall. intros e I.
    destruct (Forall2_In_r _ _ _ _ E I) as [i [_ Qe]].
    destruct (queryAddrEvent_Ok _ _ _ _ Qe) as [_ [_ [F _]]].
    apply fetchAddr_Ok in F.
    destruct F as [? [? [? [? [? [? [_ [_ [_ [_ [_ [_ Eq]]]]]]]]]]]].
    rewrite Eq. reflexivity.
Qed.

End MoreProperties.

(** * The key codec, the keys of the tests and the root key store *)

Section CodecProperties.

Context {ext : External}.

Lemma copy_into_length (n : nat) (src : bytes) :
  List.length (copy_into n src) = n.
Proof.
  unfold copy_into. rewrite length_app, length_firstn, repeat_length. lia.
Qed.

Lemma copy_into_full (n : nat) (src : bytes) :
  List.length src = n -> copy_into n src = src.
Proof.
  intros <-. unfold copy_into.
  rewrite firstn_all, Nat.sub_diag. simpl. apply app_nil_r.
Qed.

Lemma io_ReadFull_enough (b rest : bytes) (n : nat) :
  List.length b = n -> io_ReadFull (b ++ rest) n = (Ok b, rest).
Proof.
  intros <-. unfold io_ReadFull. destruct b as [|x b]; [reflexivity|].
  change (List.length (x :: b)) with (S (List.length b)).
  change ((x :: b) ++ rest) with (x :: (b ++ rest)). cbv iota beta.
  destruct (List.length (x :: b ++ rest) <? S (List.length b))%nat eqn:L.
  - apply Nat.ltb_lt in L. simpl in L. rewrite length_app in L. lia.
  - change (x :: b ++ rest) with ((x :: b) ++ rest).
    change (S (List.length b)) with (List.length (x :: b)).
    rewrite firstn_app, firstn_all, Nat.sub_diag, skipn_app, skipn_all,
      Nat.sub_diag.
    simpl. rewrite app_nil_r. reflexivity.
Qed.

Lemma io_ReadFull_short (r : bytes) (n : nat) :
  (List.length r < n)%nat ->
  io_ReadFull r n =
    (Err (match r with [] => io_EOF | _ => io_ErrUnexpectedEOF end), []).
Proof.
  intros L. unfold io_ReadFull. destruct n as [|n]; [lia|].
  destruct r as [|x r]; [reflexivity|].
  apply Nat.ltb_lt in L. rewrite L. reflexivity.
Qed.

(** X18.  A key whose compressed encoding has 33 bytes, not all zero, and
    parses back is written as these 33 bytes by [compressedPubKeyEncoder],
    and [compressedPubKeyDecoder] reads the key back from them, consumes
    nothing else, and does so whatever record length it is told. *)
Theorem compressedPubKey_round_trip :
  forall emptyKey k w rest target l,
    compressed_key k ->
    compressedPubKeyEncoder w (PublicKeyPtr (Some k)) =
      (Ok tt, w ++ SerializeCompressed k) /\
    compressedPubKeyDecoder emptyKey (SerializeCompressed k ++ rest)
      (PublicKeyPtr (Some target)) l =
      (Ok (PublicKeyPtr (Some k)), rest).
Proof.
  intros emptyKey k w rest target l [L [Z0 P]]. split.
  - unfold compressedPubKeyEncoder, tlv_EBytes33, PubKeyBytesLenCompressed.
    rewrite (copy_into_full _ _ L). reflexivity.
  - unfold compressedPubKeyDecoder, tlv_DBytes33, PubKeyBytesLenCompressed.
    change (Z.of_nat 33 =? 33) with true. cbv iota.
    rewrite (io_ReadFull_enough _ rest 33 L). rewrite Z0.
    unfold btcec_ParsePubKey. rewrite P. reflexivity.
Qed.

(** X19.  What [compressedPubKeyDecoder] reads, [compressedPubKeyEncoder]
    writes back: when the decoder returns a key for 33 bytes that are not
    all zero, it has consumed exactly these bytes, the key is the one they
    parse to, and the encoder writes the same bytes for it (the compressed
    encoding of 33 bytes being canonical). *)
Theorem compressedPubKey_decode_encode :
  forall emptyKey b rest target l k r' w,
    (forall b' k', List.length b' = 33%nat -> ParsePubKey b' = Some k' ->
                   SerializeCompressed k' = b') ->
    List.length b = 33%nat ->
    all_zero b = false ->
    compressedPubKeyDecoder emptyKey (b ++ rest) (PublicKeyPtr (Some target)) l =
      (Ok (PublicKeyPtr (Some k)), r') ->
    r' = rest /\
    ParsePubKey b = Some k /\
    compressedPubKeyEncoder w (PublicKeyPtr (Some k)) = (Ok tt, w ++ b).
Proof.
  intros emptyKey b rest target l k r' w C L Z0.
  unfold compressedPubKeyDecoder, tlv_DBytes33, PubKeyBytesLenCompressed.
  change (Z.of_nat 33 =? 33) with true. cbv iota.
  rewrite (io_ReadFull_enough _ rest 33 L). rewrite Z0.
  unfold btcec_ParsePubKey.
  destruct (ParsePubKey b) as [k'|] eqn:P; simpl; [|discriminate].
  intros E. injection E as <- <-. split; [reflexivity|].
  split; [reflexivity|].
  unfold compressedPubKeyEncoder, tlv_EBytes33, PubKeyBytesLenCompressed.
  pose proof (C b k' L P) as S. rewrite S.
  rewrite (copy_into_full _ _ L). reflexivity.
Qed.

Lemma all_zero_repeat (n : nat) : all_zero (repeat x00 n) = true.
Proof. induction n as [|n IH]; simpl; [reflexivity|exact IH]. Qed.

(** X20.  The edges of [compressedPubKeyDecoder]: fewer than 33 bytes are
    an error ([io.EOF] for none, [io.ErrUnexpectedEOF] otherwise); 33 zero
    bytes are the key without coordinates, not a parse error; 33 bytes that
    do not parse are an error; a nil key pointer panics once the bytes are
    read; a value of another type is a type error and nothing is read; and
    for a key pointer the length of the record is never looked at. *)
Theorem compressedPubKeyDecoder_edges :
  forall emptyKey r target l,
    ((List.length r < 33)%nat ->
     compressedPubKeyDecoder emptyKey r (PublicKeyPtr target) l =
       (Err (match r with [] => io_EOF | _ => io_ErrUnexpectedEOF end), [])) /\
    (forall rest k0,
        r = repeat x00 33 ++ rest -> target = Some k0 ->
        compressedPubKeyDecoder emptyKey r (PublicKeyPtr target) l =
          (Ok (PublicKeyPtr (Some emptyKey)), rest)) /\
    (forall b rest,
        r = b ++ rest -> List.length b = 33%nat -> all_zero b = false ->
        ParsePubKey b = None ->
        exists e,
          compressedPubKeyDecoder emptyKey r (PublicKeyPtr target) l =
            (Err e, rest)) /\
    (forall b rest,
        r = b ++ rest -> List.length b = 33%nat ->
        (all_zero b = true \/ ParsePubKey b <> None) ->
        target = None ->
        exists p,
          compressedPubKeyDecoder emptyKey r (PublicKeyPtr target) l =
            (Panic p, rest)) /\
    compressedPubKeyDecoder emptyKey r OtherVal l =
      (Err (tlv_ErrTypeForDecoding "*btcec.PublicKey"), r) /\
    (forall l',
        compressedPubKeyDecoder emptyKey r (PublicKeyPtr target) l' =
        compressedPubKeyDecoder emptyKey r (PublicKeyPtr target) l).
Proof.
  intros emptyKey r target l.
  unfold compressedPubKeyDecoder, tlv_DBytes33, PubKeyBytesLenCompressed.
  change (Z.of_nat 33 =? 33) with true. cbv iota.
  split; [|split; [|split; [|split; [|split]]]].
  - intros L. rewrite (io_ReadFull_short _ _ L). reflexivity.
  - intros rest k0 -> ->.
    rewrite (io_ReadFull_enough _ rest 33 (repeat_length _ _)).
    rewrite all_zero_repeat. reflexivity.
  - intros b rest -> L Z0 P. rewrite (io_ReadFull_enough _ rest 33 L), Z0.
    unfold btcec_ParsePubKey. rewrite P. simpl. eexists. reflexivity.
  - intros b rest -> L H ->. rewrite (io_ReadFull_enough _ rest 33 L).
    destruct (all_zero b) eqn:Z0; [eexists; reflexivity|].
    destruct H as [H|H]; [discriminate|].
    unfold btcec_ParsePubKey.
    destruct (ParsePubKey b); [|contradiction]. simpl. eexists. reflexivity.
  - reflexivity.
  - intros l'. reflexivity.
Qed.

(** X21.  [compressedPubKeyEncoder] writes exactly 33 bytes for a key, the
    bytes of its compressed encoding, cut or filled with zeros, whatever
    length that encoding has; a nil key pointer panics and a value of
    another type is a type error, and then nothing is written. *)
Theorem compressedPubKeyEncoder_writes_33 :
  forall w,
    (forall k,
        exists b,
          compressedPubKeyEncoder w (PublicKeyPtr (Some k)) = (Ok tt, w ++ b) /\
          List.length b = 33%nat /\
          forall i, (i < 33)%nat ->
            nth i b x00 = nth i (SerializeCompressed k) x00) /\
    (exists p, compressedPubKeyEncoder w (PublicKeyPtr None) = (Panic p, w)) /\
    compressedPubKeyEncoder w OtherVal =
      (Err (tlv_ErrTypeForEncoding "*btcec.PublicKey"), w).
Proof.
  intros w. split; [|split].
  - intros k. eexists. split; [reflexivity|].
    split; [apply copy_into_length|].
    intros i Hi. unfold copy_into, PubKeyBytesLenCompressed.
    destruct (Nat.lt_ge_cases i (List.length (SerializeCompressed k)))
      as [Lt|Ge].
    + rewrite app_nth1 by (rewrite length_firstn; lia).
      rewrite nth_firstn.
      destruct (i <? 33)%nat eqn:Q; [reflexivity|].
      apply Nat.ltb_ge in Q. lia.
    + rewrite (nth_overflow (SerializeCompressed k)) by exact Ge.
      rewrite app_nth2 by (rewrite length_firstn; lia).
      destruct (nth_in_or_default
                  (i - List.length (firstn 33 (SerializeCompressed k)))
                  (repeat x00 (33 - List.length (SerializeCompressed k))) x00)
        as [I|E]; [|exact E].
      apply repeat_spec in I. exact I.
  - eexists. reflexivity.
  - reflexivity.
Qed.

(** ** Keys of the tests *)

(** X22.  [SchnorrKey] brings a key into the form that the address book
    gives back: the key it returns has the x-only encoding of the key it
    was given, it is a fixed point of [SchnorrKey], and it parses back from
    its own x-only encoding (the x-only encoding being canonical). *)
Theorem SchnorrKey_normal_form :
  forall k k',
    xonly_canonical ->
    SchnorrKey k = Ok k' ->
    schnorr_SerializePubKey k' = schnorr_SerializePubKey k /\
    SchnorrKey k' = Ok k' /\
    schnorr_ParsePubKey (schnorr_SerializePubKey k') = Some k'.
Proof.
  intros k k' C E. unfold SchnorrKey, schnorr_ParsePubKey_r, orDecodeError in *.
  destruct (schnorr_ParsePubKey (schnorr_SerializePubKey k)) as [x|] eqn:P;
    [|discriminate].
  injection E as ->. pose proof (C _ _ P) as S. rewrite S, P. auto.
Qed.

End CodecProperties.

(** ** The macaroon root key store *)

Section RootKeyStoreProperties.

Context {DB : Type} {ks : KeyStore DB}.

Lemma error_eqb_ErrNoRows (e : error) :
  error_eqb e sql_ErrNoRows = true -> e = sql_ErrNoRows.
Proof. destruct e; simpl; intros E; try discriminate. reflexivity. Qed.

Lemma RootKey_Ok (ctxID : result bytes) (rand rand' : bytes) (db db' : DB)
  (rootKey id : bytes) :
  RootKeyStore_RootKey ctxID rand db = (Ok (rootKey, id), (rand', db')) ->
  ctxID = Ok id /\
  ((exists mac, GetRootKey id db = Ok mac /\ rootKey = mac_RootKey mac /\
                rand' = rand /\ db' = db) \/
   (GetRootKey id db = Err sql_ErrNoRows /\
    io_ReadFull rand RootKeyLen = (Ok rootKey, rand') /\
    InsertRootKey (mkMacaroonID id rootKey) db = (Ok tt, db'))).
Proof.
  unfold RootKeyStore_RootKey. destruct ctxID as [i|e|p]; try discriminate.
  destruct (GetRootKey i db) as [mac|e|p] eqn:G; try discriminate.
  - intros E. injection E as <- <- <- <-. split; [reflexivity|].
    left. exists mac. auto.
  - destruct (error_eqb e sql_ErrNoRows) eqn:Q; [|discriminate].
    apply error_eqb_ErrNoRows in Q. subst e.
    destruct (io_ReadFull rand RootKeyLen) as [[k|e|p] r1] eqn:R;
      try discriminate.
    destruct (InsertRootKey (mkMacaroonID i k) db) as [[[]|e|p] d1] eqn:I;
      try discriminate.
    intros E. injection E as <- <- <- <-. split; [reflexivity|].
    right. rewrite G. auto.
Qed.

(** X23.  Over a key store that keeps what it is given, the root key that
    [RootKey] returns for the id of the context is the one that [Get]
    returns for that id afterwards, and every later [RootKey] for that id
    returns the same key, reads no random bytes and writes nothing. *)
Theorem RootKey_then_Get :
  forall ctxID rand db rootKey id rand' db',
    keeps_root_keys ->
    RootKeyStore_RootKey ctxID rand db = (Ok (rootKey, id), (rand', db')) ->
    ctxID = Ok id /\
    RootKeyStore_Get id db' = Ok rootKey /\
    forall rand2,
      RootKeyStore_RootKey ctxID rand2 db' = (Ok (rootKey, id), (rand2, db')).
Proof.
  intros ctxID rand db rootKey id rand' db' K E.
  destruct (RootKey_Ok _ _ _ _ _ _ _ E) as [-> H]. split; [reflexivity|].
  assert (G : GetRootKey id db' = Ok (mkMacaroonRootKey id rootKey) \/
              exists mac, GetRootKey id db' = Ok mac /\
                          mac_RootKey mac = rootKey).
  { destruct H as [[mac [G [-> [_ ->]]]]|[_ [_ I]]].
    - right. exists mac. auto.
    - left. apply (K _ _ _ I). }
  unfold RootKeyStore_Get, RootKeyStore_RootKey.
  destruct G as [G|[mac [G M]]]; rewrite G; simpl.
  - auto.
  - rewrite M. auto.
Qed.

(** X24.  The outcomes of [RootKey]: without an id in the context it fails
    and touches nothing; a root key that is stored is returned without
    reading random bytes; an error of the store is returned as it is, and
    only [sql.ErrNoRows] itself makes a new key; a new key is the next 32
    random bytes, inserted under the id, and the call fails when there are
    fewer or when the insertion fails.  [Get] passes the [sql.ErrNoRows] of
    a missing id on. *)
Theorem RootKey_outcomes :
  forall rand db,
    (forall e, RootKeyStore_RootKey (Err e) rand db = (Err e, (rand, db))) /\
    (forall id mac,
        GetRootKey id db = Ok mac ->
        RootKeyStore_RootKey (Ok id) rand db =
          (Ok (mac_RootKey mac, id), (rand, db))) /\
    (forall id e,
        GetRootKey id db = Err e -> e <> sql_ErrNoRows ->
        RootKeyStore_RootKey (Ok id) rand db = (Err e, (rand, db)) /\
        RootKeyStore_Get id db = Err e) /\
    (forall id,
        GetRootKey id db = Err sql_ErrNoRows ->
        RootKeyStore_Get id db = Err sql_ErrNoRows /\
        ((List.length rand < 32)%nat ->
         exists e, RootKeyStore_RootKey (Ok id) rand db = (Err e, ([], db))) /\
        (forall key rest r db',
            rand = key ++ rest -> List.length key = 32%nat ->
            InsertRootKey (mkMacaroonID id key) db = (r, db') ->
            RootKeyStore_RootKey (Ok id) rand db =
              (match r with
               | Ok _ => Ok (key, id)
               | Err e => Err e
               | Panic p => Panic p
               end, (rest, db')))).
Proof.
  intros rand db. split; [|split; [|split]].
  - reflexivity.
  - intros id mac G. unfold RootKeyStore_RootKey. rewrite G. reflexivity.
  - intros id e G N. unfold RootKeyStore_RootKey, RootKeyStore_Get.
    rewrite G. destruct (error_eqb e sql_ErrNoRows) eqn:Q; [|auto].
    apply error_eqb_ErrNoRows in Q. contradiction.
  - intros id G. unfold RootKeyStore_Get, RootKeyStore_RootKey. rewrite G.
    cbn [error_eqb]. cbv iota. unfold RootKeyLen.
    split; [reflexivity|]. split.
    + intros L. rewrite (io_ReadFull_short _ _ L). eexists. reflexivity.
    + intros key rest r db' -> L I.
      rewrite (io_ReadFull_enough _ rest 32 L), I.
      destruct r as [[]|e|p]; reflexivity.
Qed.

End RootKeyStoreProperties.

(** * The round trip of an address *)

Section RoundTrip.

Context {ext : External} {pkgs : TaroPackages}.

(** ** Rows that can be listed *)

Lemma valid_key_parses (k : PublicKey) :
  valid_key k -> ParsePubKey (SerializeCompressed k) <> None.
Proof. unfold valid_key. intros ->. discriminate. Qed.

Lemma key_parses_upsert (new : InternalKey_row)
  (rows rows' : list InternalKey_row) (id j : nat) :
  upsert (fun r => bytes_eqb (raw_key r) (raw_key new)) (fun _ => new) new
    rows = (id, rows') ->
  ParsePubKey (raw_key new) <> None ->
  key_parses rows j -> key_parses rows' j.
Proof.
  intros E P [k [R Pk]].
  destruct (upsert_stays _ _ _ _ _ _ _ _ E R) as [H|[_ H]].
  - exists k. auto.
  - exists new. auto.
Qed.

Lemma key_parses_new (new : InternalKey_row)
  (rows rows' : list InternalKey_row) (id : nat) :
  upsert (fun r => bytes_eqb (raw_key r) (raw_key new)) (fun _ => new) new
    rows = (id, rows') ->
  ParsePubKey (raw_key new) <> None ->
  key_parses rows' id.
Proof.
  intros E P.
  destruct (upsert_result _ _ _ _ _ _ E) as [r [R [->|[old [_ ->]]]]];
    exists new; auto.
Qed.

(** A turn of the loop of [InsertAddrs] for a valid address leaves a book
    that can be listed: the rows that were there keep keys that parse, also
    where an upsert has rewritten a key row, and the new row refers to the
    rows of its address. *)
Lemma insertAddr_lists (params : ChainParams) (b : AddrWithKeyInfo)
  (s s1 : Store) :
  valid_addr params b -> insertAddr b s = (Ok tt, s1) ->
  book_lists s -> book_lists s1.
Proof.
  intros V H B. apply insertAddr_Ok in H.
  destruct H as [gpID [gpRows [genID [genRows [rawID [keys1 [skID [skRows
    [tkID [keys2 [E1 [E2 [E3 [E4 [E5 [_ ->]]]]]]]]]]]]]]]].
  destruct V as [_ [_ [_ [Vf [Vs [[Vr _] [[Vi _] [_ [Vt _]]]]]]]]].
  apply valid_key_parses in Vs, Vr, Vi.
  assert (K : forall j, key_parses (internal_keys s) j -> key_parses keys2 j).
  { intros j Kj. apply (key_parses_upsert _ _ _ _ _ E5 Vi).
    apply (key_parses_upsert _ _ _ _ _ E3 Vr). exact Kj. }
  assert (Kraw : key_parses keys2 rawID).
  { apply (key_parses_upsert _ _ _ _ _ E5 Vi).
    apply (key_parses_new _ _ _ _ E3 Vr). }
  unfold book_lists. cbn [addrs]. apply Forall_app. split.
  - eapply Forall_impl; [|exact B].
    intros row [G [F [T [Kt [sk [Rs [Ps Kr]]]]]]].
    unfold row_lists. cbn [genesis_assets internal_keys script_keys].
    split.
    { destruct (row_at (genesis_assets s) (genesis_asset_id row)) as [g|] eqn:Rg;
        [|discriminate].
      rewrite (upsert_id _ _ _ _ _ _ _ E2 Rg). reflexivity. }
    split; [exact F|]. split; [exact T|]. split; [apply K; exact Kt|].
    destruct (upsert_stays _ _ _ _ _ _ _ _ E4 Rs) as [H|[_ H]].
    + exists sk. split; [exact H|]. split; [exact Ps|]. apply K. exact Kr.
    + exists (scriptKey_row b rawID). split; [exact H|].
      split; [exact Vs|exact Kraw].
  - constructor; [|constructor].
    unfold row_lists. cbn [genesis_assets internal_keys script_keys addr_row
      genesis_asset_id fam_key taproot_output_key taproot_key_id script_key_id].
    split.
    { destruct (upsert_result _ _ _ _ _ _ E2) as [r [R _]]. rewrite R.
      reflexivity. }
    split.
    { intros bb Fb. destruct (FamilyKey (addr_Taro b)) as [k|] eqn:Fk;
        [|discriminate].
      injection Fb as <-. apply valid_key_parses. apply Vf. reflexivity. }
    split; [rewrite Vt; discriminate|].
    split; [apply (key_parses_new _ _ _ _ E5 Vi)|].
    exists (scriptKey_row b rawID). split.
    { destruct (upsert_result _ _ _ _ _ _ E4) as [r [R [->|[old [_ ->]]]]];
        exact R. }
    split; [exact Vs|exact Kraw].
Qed.

Lemma insertAddrs_lists (params : ChainParams) (l : list AddrWithKeyInfo)
  (s s1 : Store) :
  (forall b, In b l -> valid_addr params b) ->
  insertAddrs l s = (Ok tt, s1) -> book_lists s -> book_lists s1.
Proof.
  revert s. induction l as [|b l IH]; intros s V H B; simpl in H.
  - injection H as <-. exact B.
  - apply bind_Ok in H. destruct H as [[] [s' [Hb H]]].
    apply (IH s'); [intros c I; apply V; right; exact I|exact H|].
    apply (insertAddr_lists params b s s'); [|exact Hb|exact B].
    apply V. left. reflexivity.
Qed.

(** The loop body of [QueryAddrs] returns an address for a row that can be
    listed. *)
Lemma row_lists_queryAddr (cp : ChainParams) (s : Store) (row : Addr_row)
  (jr : Addresses) :
  row_lists s row -> join_addr s row = Some jr ->
  exists x, queryAddr cp s jr = Ok x.
Proof.
  intros [G [F [T [[tk [Rt Pt]] [sk [Rs [Ps [rk [Rr Pr]]]]]]]]] J.
  unfold join_addr in J. rewrite Rs, Rr, Rt in J. injection J as <-.
  unfold queryAddr, fetchGenesis, parseFamKey, btcec_ParsePubKey,
    schnorr_ParsePubKey_r. simpl.
  destruct (row_at (genesis_assets s) (genesis_asset_id row)) as [g|];
    [|discriminate]. simpl.
  assert (Pf : exists fam,
             match fam_key row with
             | Some b0 =>
                 rbind (rwrapf "unable to decode fam key"
                          (orDecodeError "invalid public key" (ParsePubKey b0)))
                   (fun k => Ok (Some k))
             | None => Ok None
             end = Ok fam).
  { destruct (fam_key row) as [b0|]; [|eexists; reflexivity].
    destruct (ParsePubKey b0) as [k|] eqn:P;
      [|exfalso; apply (F b0 eq_refl); exact P].
    eexists. reflexivity. }
  destruct Pf as [fam ->]. simpl.
  destruct (ParsePubKey (raw_key rk)); [|contradiction]. simpl.
  destruct (ParsePubKey (raw_key tk)); [|contradiction]. simpl.
  destruct (ParsePubKey (tweaked_script_key sk)); [|contradiction]. simpl.
  destruct (schnorr_ParsePubKey (taproot_output_key row)); [|contradiction].
  simpl. eexists. reflexivity.
Qed.

Lemma queryAddrsLoop_total (cp : ChainParams) (s : Store)
  (jrs : list Addresses) :
  (forall jr, In jr jrs -> exists x, queryAddr cp s jr = Ok x) ->
  exists l,
    queryAddrsLoop cp s jrs = Ok l /\
    forall jr x, In jr jrs -> queryAddr cp s jr = Ok x -> In x l.
Proof.
  induction jrs as [|jr jrs IH]; intros H; simpl.
  - exists []. split; [reflexivity|]. intros ? ? [].
  - destruct (H jr (or_introl eq_refl)) as [x Q].
    destruct IH as [l [L I]]; [intros j Ij; apply H; right; exact Ij|].
    exists (x :: l). rewrite Q. simpl. rewrite L. simpl.
    split; [reflexivity|].
    intros j y [<-|Ij] Qj.
    + left. congruence.
    + right. apply (I j y Ij Qj).
Qed.

(** [QueryAddrs] with [address.QueryParams{}] on a book that can be listed
    returns the address of every row that passes the bounds. *)
Lemma QueryAddrs_lists (cp : ChainParams) (s : Store) :
  book_lists s ->
  exists l,
    QueryAddrs cp defaultQueryParams s = (Ok l, s) /\
    forall row jr x,
      In row (addrs s) -> addr_matches defaultAddrQuery row = true ->
      join_addr s row = Some jr -> queryAddr cp s jr = Ok x -> In x l.
Proof.
  intros B. rewrite QueryAddrs_unfold.
  change (addrQuery defaultQueryParams) with defaultAddrQuery.
  unfold FetchAddrs, defaultAddrQuery, sql_limit, sql_offset.
  cbn [aq_NumLimit aq_NumOffset]. change (-1 <? 0) with true. cbv iota.
  change (Z.to_nat (int32 0)) with 0%nat. cbn [skipn].
  fold defaultAddrQuery.
  destruct (queryAddrsLoop_total cp s
              (filter_map (join_addr s)
                 (filter (addr_matches defaultAddrQuery) (addrs s))))
    as [l [L I]].
  { intros jr Ij. apply In_filter_map in Ij. destruct Ij as [row [Ir J]].
    apply filter_In in Ir. destruct Ir as [Ir _].
    unfold book_lists in B. rewrite Forall_forall in B.
    apply (row_lists_queryAddr cp s row jr (B row Ir) J). }
  exists l. rewrite L. split; [reflexivity|].
  intros row jr x Ir M J Q. apply (I jr x); [|exact Q].
  apply In_filter_map. exists row. split; [|exact J].
  apply filter_In. auto.
Qed.

(** ** What the later operations keep *)

Lemma Stored_tables (s s' : Store) (a : AddrWithKeyInfo) :
  addrs s' = addrs s -> genesis_assets s' = genesis_assets s ->
  script_keys s' = script_keys s -> internal_keys s' = internal_keys s ->
  Stored s a -> Stored s' a.
Proof.
  intros A G K I [genID [skID [rawID [tkID [grow H]]]]].
  exists genID, skID, rawID, tkID, grow. rewrite A, G, K, I. exact H.
Qed.

Lemma book_lists_tables (s s' : Store) :
  addrs s' = addrs s -> genesis_assets s' = genesis_assets s ->
  script_keys s' = script_keys s -> internal_keys s' = internal_keys s ->
  book_lists s -> book_lists s'.
Proof.
  intros A G K I B. unfold book_lists, row_lists in *.
  rewrite A, G, K, I. exact B.
Qed.

Lemma find_map_key (f : Addr_row -> Addr_row) (k : bytes)
  (rows : list Addr_row) :
  (forall r, taproot_output_key (f r) = taproot_output_key r) ->
  find (fun r => bytes_eqb (taproot_output_key r) k) (map f rows) =
  option_map f (find (fun r => bytes_eqb (taproot_output_key r) k) rows).
Proof.
  intros H. induction rows as [|r rows IH]; simpl; [reflexivity|].
  rewrite H. destruct (bytes_eqb (taproot_output_key r) k); [reflexivity|].
  exact IH.
Qed.

(** Marking another address as managed. *)
Lemma SetAddrManaged_keeps (a b : AddrWithKeyInfo) (t : Time)
  (s s1 : Store) (r : result unit) :
  addr_key b <> addr_key a ->
  SetAddrManaged b t s = (r, s1) ->
  (Stored s a -> Stored s1 a) /\ (book_lists s -> book_lists s1).
Proof.
  intros N E. rewrite SetAddrManaged_run in E. injection E as _ <-.
  split.
  - intros [genID [skID [rawID [tkID [grow [F H]]]]]].
    exists genID, skID, rawID, tkID, grow. split; [|exact H].
    cbn [set_addrs addrs]. rewrite find_map_key.
    + rewrite F. simpl.
      assert (Q : bytes_eqb (addr_key a) (addr_key b) = false).
      { apply bytes_eqb_neq. congruence. }
      rewrite Q. reflexivity.
    + intros r0. destruct (bytes_eqb _ _); reflexivity.
  - intros B. unfold book_lists in *. cbn [set_addrs addrs].
    apply Forall_map. eapply Forall_impl; [|exact B].
    intros row R. destruct (bytes_eqb _ _); exact R.
Qed.

Lemma undisturbed_keeps (params : ChainParams) (a : AddrWithKeyInfo)
  (s s' : Store) :
  undisturbed params a s s' ->
  (Stored s a -> Stored s' a) /\ (book_lists s -> book_lists s').
Proof.
  induction 1 as [s|s s1 s2 batch r U [IS IB] V E|s s1 s2 b t r U [IS IB] N E
                  |s s1 s2 now status addr walletTx outputIdx sib r U [IS IB] E
                  |s s1 s2 event status anchorPoint r U [IS IB] E].
  - auto.
  - unfold InsertAddrs in E. destruct r as [[]|e|p].
    + apply (ExecTx_Ok false) in E. split.
      * intros St. apply (insertAddrs_keeps a batch s1 s2 (IS St) E).
        intros c I. apply V. exact I.
      * intros B. apply (insertAddrs_lists params batch s1 s2); auto.
        intros c I. apply V. exact I.
    + apply ExecTx_rollback in E; [subst s2; auto|reflexivity].
    + apply ExecTx_rollback in E; [subst s2; auto|reflexivity].
  - destruct (SetAddrManaged_keeps a b t s1 s2 r N E) as [KS KB]. auto.
  - destruct (GetOrCreateEvent_tables _ _ _ _ _ _ _ _ _ E)
      as [->|[txID [txRows [utxoID [utxoRows [eventID [evRows
           [c1 [m1 [n1 [c2 [m2 [n2 [c3 [m3 [n3 [_ [_ [_ ->]]]]]]]]]]]]]]]]]]];
      [auto|].
    split; intros H0.
    + apply (Stored_tables s1); auto.
    + apply (book_lists_tables s1); auto.
  - destruct (CompleteEvent_frame event status anchorPoint s1)
      as [A [G [K I]]].
    rewrite E in A, G, K, I. cbn [snd] in A, G, K, I.
    split; intros H0.
    + apply (Stored_tables s1); auto.
    + apply (book_lists_tables s1); auto.
Qed.

(** C2.  An address of a batch that [InsertAddrs] has inserted reads back
    equal in every field, the creation time compared in whole seconds, from
    [AddrByTaprootOutput], asked with its taproot output key, and from
    [QueryAddrs] with the default parameters, right away and after further
    operations of the book.  The addresses inserted with it and after it
    are valid, and their keys agree with its keys: a key upsert overwrites
    the locator of a key that is registered again.  The address itself has
    not been marked as managed.  [QueryAddrs] reads every row, so for it
    the rows that were in the book before can be listed. *)
Theorem InsertAddrs_round_trip :
  forall params batch s s1 s2 a,
    InsertAddrs batch s = (Ok tt, s1) ->
    In a batch ->
    (forall b, In b batch -> valid_addr params b /\ keys_agree a b) ->
    undisturbed params a s1 s2 ->
    (exists a',
        AddrByTaprootOutput params (TaprootOutputKey a) s2 = (Ok a', s2) /\
        assertEqualAddr a a') /\
    (book_lists s ->
     exists l a',
       QueryAddrs params defaultQueryParams s2 = (Ok l, s2) /\
       In a' l /\ assertEqualAddr a a').
Proof.
  intros params batch s s1 s2 a H I V U. unfold InsertAddrs in H.
  apply (ExecTx_Ok false) in H.
  destruct (undisturbed_keeps params a s1 s2 U) as [KS KB].
  assert (Va : valid_addr params a) by (apply V; exact I).
  assert (St : Stored s2 a).
  { apply KS. apply (insertAddrs_Stored batch s s1 a H I).
    intros b Ib. apply V. exact Ib. }
  split.
  - exists a. split; [|apply assertEqualAddr_refl].
    unfold AddrByTaprootOutput, ExecTx, query.
    rewrite (fetchAddr_valid params s2 a Va St). reflexivity.
  - intros B.
    assert (B2 : book_lists s2).
    { apply KB. apply (insertAddrs_lists params batch s s1); [|exact H|exact B].
      intros b Ib. apply V. exact Ib. }
    destruct (QueryAddrs_lists params s2 B2) as [l [Q L]].
    exists l, a. split; [exact Q|]. split; [|apply assertEqualAddr_refl].
    destruct (Stored_join s2 a St) as [genID [skID [tkID [F [J G]]]]].
    apply (L (addr_row a genID skID tkID) (joined_row a genID) a).
    + apply find_some in F. destruct F as [F _]. exact F.
    + apply (addr_row_matches params). exact Va.
    + exact J.
    + apply queryAddr_valid; [exact Va|exact G].
Qed.

End RoundTrip.

(** * The properties on the example *)

Import Example.

Lemma addr1_valid : valid_addr tt addr1.
Proof. closed_fact. Defined.

Lemma addr2_valid : valid_addr tt addr2.
Proof. closed_fact. Defined.

Lemma batch_valid :
  forall a, In a [addr1; addr2] -> valid_addr tt a.
Proof.
  intros a [<-|[<-|[]]]; [exact addr1_valid|exact addr2_valid].
Defined.

Lemma batch_keys_agree :
  forall a b, In a [addr1; addr2] -> In b [addr1; addr2] -> keys_agree a b.
Proof.
  intros a b [<-|[<-|[]]] [<-|[<-|[]]]; closed_fact.
Defined.

(** C1, the claim as it is worded.  The event of [addr1] is created with
    the transaction confirmed at height 650000 and reported again with the
    same transaction, now unconfirmed and without a height, with another
    status and another sibling: the second call returns the same event with
    its status and its sibling, but with the height of the first call, not
    the one the second call supplies. *)
Lemma GetOrCreateEvent_twice_counterexample :
  tx_Tx walletTx1 = tx_Tx walletTx1c /\
  GetOrCreateEvent time3 1 addr1 walletTx1c 1 None store2 =
    (Ok event1c, store3c) /\
  GetOrCreateEvent time4 0 addr1 walletTx1 1 (Some sibling1) store3c =
    (Ok event2u, snd updated_u) /\
  ev_ID event2u = ev_ID event1c /\
  ev_Status event2u = 0 /\
  ev_TapscriptSibling event2u = Some sibling1 /\
  uint32 (tx_BlockHeight walletTx1) = 0 /\
  ev_ConfirmationHeight event2u = 650000 /\
  ev_ConfirmationHeight event2u <> uint32 (tx_BlockHeight walletTx1).
Proof.
  split; [reflexivity|].
  split; [vm_compute; reflexivity|].
  split; [vm_compute; reflexivity|].
  split; [vm_compute; reflexivity|].
  split; [vm_compute; reflexivity|].
  split; [vm_compute; reflexivity|].
  split; [vm_compute; reflexivity|].
  split; [vm_compute; reflexivity|].
  vm_compute. discriminate.
Defined.

(** C1 as amended, on the example: the event of [addr1] is created
    unconfirmed with a sibling and reported again, confirmed and without
    sibling. *)
Lemma GetOrCreateEvent_twice_witness :
  (tx_Tx walletTx1c = tx_Tx walletTx1 /\
   created = (Ok event1, store3) /\
   valid_status (int16 1) = true /\
   index (tx_OutputDetails walletTx1c) 1 = Some (mkOutputDetail 900 false)) /\
  exists ev2 s2,
    GetOrCreateEvent time4 1 addr1 walletTx1c 1 None store3 = (Ok ev2, s2) /\
    ev_ID ev2 = ev_ID event1 /\
    List.length (addr_events s2) = List.length (addr_events store3) /\
    ev_Status ev2 = int16 1 /\
    ev_ConfirmationHeight ev2 = uint32 650000.
Proof.
  assert (H0 : tx_Tx walletTx1c = tx_Tx walletTx1) by reflexivity.
  assert (H1 : created = (Ok event1, store3)) by (vm_compute; reflexivity).
  assert (H3 : valid_status (int16 1) = true) by (vm_compute; reflexivity).
  assert (H4 : index (tx_OutputDetails walletTx1c) 1 =
               Some (mkOutputDetail 900 false)) by reflexivity.
  assert (H5 : 0 < tx_Confirmations walletTx1c ->
               chainhash_NewHashFromStr (tx_BlockHash walletTx1c) <> None)
    by (intros _; vm_compute; discriminate).
  split; [auto|].
  destruct (GetOrCreateEvent_twice (ext:=ext) time3 time4 0 1 addr1
              walletTx1 walletTx1c 1 (Some sibling1) None store2 store3
              event1 (mkOutputDetail 900 false) H0 H1 H3 H4 H5)
    as [ev2 [s2 [E [C1 [C2 [_ [_ [_ [_ [C4 [_ [C6 _]]]]]]]]]]]].
  exists ev2, s2. repeat split; assumption.
Defined.

(** C2, the claim as it is worded.  [addr1] is valid and inserted; then
    [addr9], valid as well, is inserted, which has the same taproot internal
    key under another index: [addr1] reads back with the index 9, not with
    its index 2, from [AddrByTaprootOutput] and from [QueryAddrs].  And once
    [addr1] is marked as managed, [QueryAddrs] returns it with that time. *)
Lemma InsertAddrs_round_trip_counterexample :
  (valid_addr tt addr1 /\ valid_addr tt addr9 /\
   InsertAddrs [addr1] empty_store = (Ok tt, store1) /\
   InsertAddrs [addr9] store1 = (Ok tt, store9) /\
   AddrByTaprootOutput tt (TaprootOutputKey addr1) store9 =
     (Ok addr1r, store9) /\
   QueryAddrs tt defaultQueryParams store9 = (Ok [addr1r; addr9], store9) /\
   kd_Index (InternalKeyDesc addr1) = 2 /\
   kd_Index (InternalKeyDesc addr1r) = 9 /\
   ~ assertEqualAddr addr1 addr1r /\
   ~ assertEqualAddr addr1 addr9) /\
  (InsertAddrs [addr1; addr2] empty_store = (Ok tt, store2) /\
   SetAddrManaged addr1 time2 store2 = (Ok tt, store2m) /\
   QueryAddrs tt defaultQueryParams store2m = (Ok [addr1m; addr2], store2m) /\
   ~ assertEqualAddr addr1 addr1m /\
   ~ assertEqualAddr addr1 addr2).
Proof.
  split.
  - split; [closed_fact|]. split; [closed_fact|].
    split; [vm_compute; reflexivity|]. split; [vm_compute; reflexivity|].
    split; [vm_compute; reflexivity|]. split; [vm_compute; reflexivity|].
    split; [reflexivity|]. split; [reflexivity|].
    split; intros [H _];
      apply (f_equal (fun x => kd_Index (InternalKeyDesc x))) in H;
      discriminate H.
  - split; [vm_compute; reflexivity|]. split; [vm_compute; reflexivity|].
    split; [vm_compute; reflexivity|]. split; intros [H _].
    + apply (f_equal (fun x => unixSec (ManagedAfter x))) in H. discriminate H.
    + apply (f_equal (fun x => Amount (addr_Taro x))) in H. discriminate H.
Defined.

Lemma batch_agrees_with_addr1 :
  forall b, In b [addr1; addr2] -> valid_addr tt b /\ keys_agree addr1 b.
Proof.
  intros b I. split; [apply batch_valid; exact I|].
  apply batch_keys_agree; [left; reflexivity|exact I].
Defined.

(** C2 as amended, on the example: [addr1] is inserted with [addr2], then
    an event is recorded, and [addr1] reads back as it was inserted. *)
Lemma InsertAddrs_round_trip_witness :
  (InsertAddrs [addr1; addr2] empty_store = (Ok tt, store2) /\
   In addr1 [addr1; addr2] /\
   undisturbed tt addr1 store2 store3 /\
   book_lists empty_store) /\
  (exists a', AddrByTaprootOutput tt (TaprootOutputKey addr1) store3 =
                (Ok a', store3) /\ assertEqualAddr addr1 a') /\
  (exists l a', QueryAddrs tt defaultQueryParams store3 = (Ok l, store3) /\
                In a' l /\ assertEqualAddr addr1 a').
Proof.
  assert (H : InsertAddrs [addr1; addr2] empty_store = (Ok tt, store2))
    by (vm_compute; reflexivity).
  assert (I : In addr1 [addr1; addr2]) by (left; reflexivity).
  assert (G : GetOrCreateEvent time3 0 addr1 walletTx1 1 (Some sibling1)
                store2 = (Ok event1, store3)) by (vm_compute; reflexivity).
  assert (U : undisturbed tt addr1 store2 store3).
  { eapply undisturbed_GetOrCreateEvent; [apply undisturbed_now|exact G]. }
  assert (B : book_lists (ext:=ext) empty_store) by constructor.
  split; [auto|].
  destruct (InsertAddrs_round_trip (ext:=ext) tt [addr1; addr2] empty_store
              store2 store3 addr1 H I batch_agrees_with_addr1 U) as [R Q].
  split; [exact R|exact (Q B)].
Defined.

(** C3 on the example: [addr1] cannot be inserted again. *)
Lemma InsertAddrs_unique_and_atomic_witness :
  key_stored store2 (addr_key addr1) /\
  exists e, InsertAddrs [addr1] store2 = (Err e, store2) /\
            is_constraint_error e = true.
Proof.
  assert (K : key_stored store2 (addr_key addr1)).
  { eexists. split; [left; reflexivity|vm_compute; reflexivity]. }
  split; [exact K|].
  apply (proj1 (InsertAddrs_unique_and_atomic (ext:=ext) store2 [addr1])).
  left. exists addr1. split; [left; reflexivity|exact K].
Defined.

(** C4, the claim as it is worded.  The code 2 is none of
    [TransactionDetected], [TransactionConfirmed], [Completed], and
    [GetOrCreateEvent] with that status returns an event and writes its
    row. *)
Lemma GetOrCreateEvent_invalid_status_counterexample :
  (int16 2 <> int16 StatusTransactionDetected /\
   int16 2 <> int16 StatusTransactionConfirmed /\
   int16 2 <> int16 StatusCompleted) /\
  GetOrCreateEvent time3 2 addr1 walletTx1 1 None store2 =
    (Ok (the_event created_2), snd created_2) /\
  ev_Status (the_event created_2) = 2 /\
  List.length (addr_events (snd created_2)) =
    S (List.length (addr_events store2)) /\
  ~ (exists r,
        GetOrCreateEvent time3 2 addr1 walletTx1 1 None store2 = (r, store2) /\
        is_Ok r = false).
Proof.
  assert (G : GetOrCreateEvent time3 2 addr1 walletTx1 1 None store2 =
              (Ok (the_event created_2), snd created_2))
    by (vm_compute; reflexivity).
  split; [repeat split; vm_compute; discriminate|].
  split; [exact G|].
  split; [vm_compute; reflexivity|].
  split; [vm_compute; reflexivity|].
  intros [r [E N]]. rewrite G in E. apply (f_equal fst) in E.
  cbn [fst] in E. rewrite <- E in N. cbn [is_Ok] in N. discriminate N.
Defined.

(** C4 as amended, on the example: the status 4 of the tests. *)
Lemma GetOrCreateEvent_invalid_status_witness :
  valid_status (int16 4) = false /\
  exists r,
    GetOrCreateEvent time3 4 addr1 walletTx1 1 None store2 = (r, store2) /\
    is_Ok r = false.
Proof.
  assert (V : valid_status (int16 4) = false) by (vm_compute; reflexivity).
  split; [exact V|].
  destruct (GetOrCreateEvent_invalid_status (ext:=ext) time3 4 addr1
              walletTx1 1 None store2 V) as [r [E [N _]]].
  exists r. auto.
Defined.

(** C5 on the example: [keyE] is the key of no address, [keyA] is the key
    of [addr1]. *)
Lemma AddrByTaprootOutput_ErrNoAddr_witness :
  AddrByTaprootOutput tt keyE store2 = (Err address_ErrNoAddr, store2) /\
  exists addr, AddrByTaprootOutput tt keyA store2 = (Ok addr, store2).
Proof.
  split.
  - apply (proj1 (AddrByTaprootOutput_ErrNoAddr (ext:=ext) tt keyE store2)).
    intros a [<-|[<-|[]]]; vm_compute; discriminate.
  - apply (proj2 (AddrByTaprootOutput_ErrNoAddr (ext:=ext) tt keyA store2)).
    + eexists. split; [left; reflexivity|vm_compute; reflexivity].
    + intros a [<-|[<-|[]]] K; [|vm_compute in K; discriminate].
      eexists _, _. split; [vm_compute; reflexivity|].
      split; [vm_compute; reflexivity|].
      repeat split; vm_compute; discriminate.
Defined.

(** C6, the claim as it is worded.  A proof exists for the script key of
    the address of [event1]; completed with the other output of the same
    transaction as anchor, or with a status that is no valid code, the
    event keeps its status and gets no proof. *)
Lemma CompleteEvent_counterexample :
  is_Ok (FetchAssetProof (event_script_key event1) store3p) = true /\
  ~ completes event1 2 anchor0 store3p /\
  ~ completes event1 99 anchor1 store3p.
Proof.
  split; [vm_compute; reflexivity|]. split.
  - intros [s' [ev' [E [F [_ P]]]]].
    vm_compute in E. injection E as <-.
    vm_compute in F. injection F as <-. discriminate P.
  - intros [s' [ev' [E _]]]. vm_compute in E. discriminate E.
Defined.

(** C6 as amended, on the example: completed with its own outpoint as
    anchor, [event1] gets the status and the proof. *)
Lemma CompleteEvent_attaches_proof_witness :
  FetchAssetProof (event_script_key event1) store3p = Ok (mkAssetProofI 7 9) /\
  valid_status (int16 2) = true /\
  exists old,
    row_at (addr_events store3p) (ev_ID event1) = Some old /\
    CompleteEvent event1 2 anchor1 store3p =
      (Ok tt,
       set_addr_events store3p
         (set_row (addr_events store3p) (ev_ID event1)
            (completed_row old 2 (mkAssetProofI 7 9)))).
Proof.
  assert (P : FetchAssetProof (event_script_key event1) store3p =
              Ok (mkAssetProofI 7 9)) by (vm_compute; reflexivity).
  assert (V : valid_status (int16 2) = true) by (vm_compute; reflexivity).
  split; [exact P|]. split; [exact V|].
  eexists. split; [vm_compute; reflexivity|].
  apply (proj1 (proj2 (CompleteEvent_attaches_proof (ext:=ext) event1 2
                         anchor1 store3p))
           (mkAssetProofI 7 9) 1%nat 1%nat);
    first [exact P | exact V | vm_compute; reflexivity].
Defined.


(** C8 on the example. *)
Lemma QueryAddrs_createdBefore_unset_witness :
  IsZero (qp_CreatedBefore defaultQueryParams) = true /\
  Forall (fun a => representable (creation_time a)) (addrs store2) /\
  QueryAddrs tt defaultQueryParams store2 =
  QueryAddrs_unbounded tt defaultQueryParams store2.
Proof.
  assert (Z0 : IsZero (qp_CreatedBefore defaultQueryParams) = true)
    by reflexivity.
  assert (R : Forall (fun a => representable (creation_time a)) (addrs store2)).
  { repeat constructor; closed_fact. }
  split; [exact Z0|]. split; [exact R|].
  apply (QueryAddrs_createdBefore_unset (ext:=ext) tt defaultQueryParams
           store2 Z0 R).
Defined.

(** C9 on the example: [addr1] is managed; [QueryAddrs] reports the time,
    [AddrByTaprootOutput] does not. *)
Lemma ManagedAfter_only_from_QueryAddrs_witness :
  (exists l, fst (QueryAddrs tt defaultQueryParams store2m) = Ok l /\
             map ManagedAfter l = [time2; zeroTime]) /\
  fst (AddrByTaprootOutput tt keyA store2m) = Ok addr1 /\
  ManagedAfter addr1 = zeroTime.
Proof.
  assert (E : fst (AddrByTaprootOutput tt keyA store2m) = Ok addr1)
    by (vm_compute; reflexivity).
  split; [eexists; split; vm_compute; reflexivity|].
  split; [exact E|].
  apply (proj1 (ManagedAfter_only_from_QueryAddrs (ext:=ext) tt store2m)
           keyA addr1 E).
Defined.

(** C10 on the example: [tx1] has two outputs; index 1 is fine, index 2
    panics. *)
Lemma GetOrCreateEvent_output_index_witness :
  (forall p, fst (GetOrCreateEvent time3 0 addr1 walletTx1 1 None store2) <>
             Panic p) /\
  GetOrCreateEvent time3 0 addr1 walletTx1 2 None store2 =
    (Panic "index out of range", store2).
Proof.
  assert (S : Serialize (tx_Tx walletTx1) = Some (tx_raw tx1)) by reflexivity.
  assert (E1 : encodeOutpoint (mkOutPoint (TxHash (tx_Tx walletTx1)) 1) =
               Some (tx_hash tx1 ++ [x00])) by (vm_compute; reflexivity).
  assert (E2 : encodeOutpoint (mkOutPoint (TxHash (tx_Tx walletTx1)) 2) =
               Some (tx_hash tx1 ++ [x00])) by (vm_compute; reflexivity).
  split.
  - apply (proj1 (GetOrCreateEvent_output_index (ext:=ext) time3 0 addr1
                    walletTx1 1 None store2 _ _ S E1)).
    vm_compute. split; [discriminate|reflexivity].
  - apply (proj2 (GetOrCreateEvent_output_index (ext:=ext) time3 0 addr1
                    walletTx1 2 None store2 _ _ S E2)).
    vm_compute. intros [_ H]. discriminate H.
Defined.

(** * The further properties on the example *)

Lemma example_xonly_canonical : xonly_canonical (ext:=ext).
Proof.
  intros b k. simpl. unfold schnorrParse.
  destruct (on_curve b); [|discriminate]. intros E. injection E as <-.
  reflexivity.
Defined.

Lemma store2_events_constraints : events_constraints store2.
Proof. constructor. Defined.

Lemma example_compressed_canonical :
  forall b' k', List.length b' = 33%nat -> ParsePubKey b' = Some k' ->
                SerializeCompressed k' = b'.
Proof.
  intros b' k' _. simpl. unfold parsePubKey, serializeCompressed.
  destruct b' as [|p x]; [discriminate|].
  destruct (on_curve x); [|discriminate].
  destruct (Byte.eqb p x02) eqn:E2.
  - intros E. injection E as <-. apply byte_dec_bl in E2. subst p. reflexivity.
  - destruct (Byte.eqb p x03) eqn:E3; [|discriminate].
    intros E. injection E as <-. apply byte_dec_bl in E3. subst p. reflexivity.
Defined.

Lemma memKeyStore_keeps_root_keys : keeps_root_keys (ks:=memKeyStore).
Proof.
  intros arg db db'. simpl. unfold memInsertRootKey, memGetRootKey.
  destruct (find (fun m => bytes_eqb (mac_ID m) (mid_ID arg)) db) eqn:F;
    [discriminate|].
  intros E. injection E as <-.
  rewrite (find_app_None _ _ _ F). simpl. rewrite bytes_eqb_refl.
  reflexivity.
Defined.


(** X1 on the example: the second page of one address. *)
Lemma QueryAddrs_pagination_witness :
  QueryAddrs tt (mkQueryParams zeroTime zeroTime 0 0 false) store2 =
    (Ok [addr1; addr2], store2) /\
  QueryAddrs tt (mkQueryParams zeroTime zeroTime 1 1 false) store2 =
    (Ok [addr2], store2).
Proof.
  assert (H : QueryAddrs tt (mkQueryParams zeroTime zeroTime 0 0 false) store2 =
              (Ok [addr1; addr2], store2)) by (vm_compute; reflexivity).
  split; [exact H|].
  apply (QueryAddrs_pagination (ext:=ext) tt zeroTime zeroTime false 1 1 store2
           [addr1; addr2]); [lia|lia|exact H].
Defined.

(** X2 on the example: the unmanaged addresses created from [time2] on. *)
Lemma QueryAddrs_respects_filters_witness :
  fst (QueryAddrs tt (mkQueryParams time2 zeroTime 0 1 true) store2m) =
    Ok [addr2] /\
  time_leb time2 (CreationTime addr2) = true /\
  ManagedAfter addr2 = zeroTime.
Proof.
  assert (H : fst (QueryAddrs tt (mkQueryParams time2 zeroTime 0 1 true) store2m) =
              Ok [addr2]) by (vm_compute; reflexivity).
  split; [exact H|].
  destruct (QueryAddrs_respects_filters (ext:=ext) tt _ store2m [addr2] H)
    as [F _].
  inversion F as [|a l [A [_ M]] _]. subst. split; [exact A|].
  apply M. reflexivity.
Defined.

(** X3 on the example: [addr1] is marked as managed from [time2]. *)
Lemma SetAddrManaged_then_QueryAddrs_witness :
  exists s1,
    SetAddrManaged addr1 time2 store2 = (Ok tt, s1) /\
    fst (QueryAddrs tt defaultQueryParams s1) = Ok [addr1m; addr2] /\
    ManagedAfter addr1m = time2.
Proof.
  destruct (SetAddrManaged_then_QueryAddrs (ext:=ext) tt addr1 time2 store2
              example_xonly_canonical) as [s1 [E [_ Q]]].
  exists s1. split; [exact E|].
  assert (S : s1 = store2m).
  { unfold store2m. rewrite E. reflexivity. }
  assert (H : fst (QueryAddrs tt defaultQueryParams s1) = Ok [addr1m; addr2])
    by (rewrite S; vm_compute; reflexivity).
  split; [exact H|].
  specialize (Q defaultQueryParams _ H).
  inversion Q as [|a l [M _] _]. subst. apply M. reflexivity.
Defined.

(** X6 on the example: [addr1] and [addr2], one after the other and in one
    batch. *)
Lemma InsertAddrs_batches_witness :
  InsertAddrs [addr1] empty_store = (Ok tt, store1) /\
  InsertAddrs [addr2] store1 = (Ok tt, store2) /\
  InsertAddrs ([addr1] ++ [addr2]) empty_store = (Ok tt, store2).
Proof.
  assert (H1 : InsertAddrs [addr1] empty_store = (Ok tt, store1))
    by (vm_compute; reflexivity).
  assert (H2 : InsertAddrs [addr2] store1 = (Ok tt, store2))
    by (vm_compute; reflexivity).
  split; [exact H1|]. split; [exact H2|].
  apply (proj1 (InsertAddrs_batches (ext:=ext) [addr1] [addr2] empty_store)
           store1 store2 H1 H2).
Defined.

(** X7 on the example. *)
Lemma InsertAddrs_appends_witness :
  InsertAddrs [addr1; addr2] empty_store = (Ok tt, store2) /\
  (exists rows,
      addrs store2 = addrs empty_store ++ rows /\
      Forall2 (fun a row => exists g sk tk, row = addr_row a g sk tk)
        [addr1; addr2] rows) /\
  addr_events store2 = addr_events empty_store.
Proof.
  assert (H : InsertAddrs [addr1; addr2] empty_store = (Ok tt, store2))
    by (vm_compute; reflexivity).
  split; [exact H|].
  destruct (InsertAddrs_appends (ext:=ext) [addr1; addr2] empty_store store2 H)
    as [R [_ [_ [E _]]]].
  split; [exact R|exact E].
Defined.

(** X8 on the example: the empty book keeps the constraints, and so does
    every book made from it. *)
Lemma addrs_constraints_kept_witness :
  addrs_constraints empty_store /\
  addrs_constraints store2 /\
  addrs_constraints (snd (SetAddrManaged addr1 time2 store2)).
Proof.
  assert (H0 : addrs_constraints empty_store)
    by (split; constructor).
  assert (H2 : addrs_constraints store2).
  { apply (proj1 (addrs_constraints_kept (ext:=ext) (pkgs:=pkgs) empty_store H0)
             [addr1; addr2]). }
  split; [exact H0|]. split; [exact H2|].
  apply (proj1 (proj2 (addrs_constraints_kept (ext:=ext) (pkgs:=pkgs) store2 H2))).
Defined.

(** X4 on the example. *)
Lemma QueryAddrs_then_AddrByTaprootOutput_witness :
  NoDup (map taproot_output_key (addrs store2m)) /\
  fst (QueryAddrs tt defaultQueryParams store2m) = Ok [addr1m; addr2] /\
  AddrByTaprootOutput tt (TaprootOutputKey addr1m) store2m =
    (Ok (withoutManagedAfter addr1m), store2m).
Proof.
  assert (U : NoDup (map taproot_output_key (addrs store2m))).
  { vm_compute. constructor.
    - intros [E|[]]. discriminate E.
    - constructor; [intros []|constructor]. }
  assert (H : fst (QueryAddrs tt defaultQueryParams store2m) =
              Ok [addr1m; addr2]) by (vm_compute; reflexivity).
  split; [exact U|]. split; [exact H|].
  pose proof (QueryAddrs_then_AddrByTaprootOutput (ext:=ext) tt
                defaultQueryParams store2m [addr1m; addr2]
                example_xonly_canonical U H) as F.
  inversion F as [|a l Ha _]. exact Ha.
Defined.

(** X10 on the example: the event of [addr1] is created. *)
Lemma GetOrCreateEvent_frame_witness :
  created = (Ok event1, store3) /\
  addrs store3 = addrs store2 /\
  internal_keys store3 = internal_keys store2 /\
  (List.length (addr_events store3) <= S (List.length (addr_events store2)))%nat.
Proof.
  assert (H : created = (Ok event1, store3)) by (vm_compute; reflexivity).
  split; [exact H|].
  destruct (GetOrCreateEvent_frame (ext:=ext) time3 0 addr1 walletTx1 1
              (Some sibling1) store2 (Ok event1) store3 H)
    as [_ [K [_ [_ [_ [A [_ [_ [_ [_ L]]]]]]]]]].
  split; [exact A|]. split; [exact K|exact L].
Defined.

(** X11 on the example: the event of [addr1] on the second output of
    [tx1]. *)
Lemma GetOrCreateEvent_creates_witness :
  key_stored store2 (addr_key addr1) /\
  events_for store2 (addr_key addr1) (TxHash (tx_Tx walletTx1)) (int32 1) = [] /\
  exists ev s1,
    GetOrCreateEvent time3 0 addr1 walletTx1 1 (Some sibling1) store2 =
      (Ok ev, s1) /\
    ev_ID ev = next_id (addr_events store2) /\
    ev_Addr ev = addr1 /\
    ev_Status ev = int16 0 /\
    ev_Outpoint ev = mkOutPoint (TxHash (tx_Tx walletTx1)) 1 /\
    ev_Amt ev = 900 /\
    ev_HasProof ev = false.
Proof.
  assert (K : key_stored store2 (addr_key addr1)).
  { eexists. split; [left; reflexivity|vm_compute; reflexivity]. }
  assert (N : events_for store2 (addr_key addr1) (TxHash (tx_Tx walletTx1))
                (int32 1) = []) by (vm_compute; reflexivity).
  split; [exact K|]. split; [exact N|].
  assert (HS : Serialize (tx_Tx walletTx1) = Some (tx_raw tx1)) by reflexivity.
  assert (HO : encodeOutpoint (mkOutPoint (TxHash (tx_Tx walletTx1)) 1) =
               Some (tx_hash tx1 ++ [x00])) by (vm_compute; reflexivity).
  assert (HI : index (tx_OutputDetails walletTx1) 1 =
               Some (mkOutputDetail 900 false)) by reflexivity.
  assert (HX : 1 < 2 ^ 32) by reflexivity.
  assert (HL : len (TxHash (tx_Tx walletTx1)) = 32) by (vm_compute; reflexivity).
  assert (HB : 0 < tx_Confirmations walletTx1 ->
               chainhash_NewHashFromStr (tx_BlockHash walletTx1) <> None)
    by (intros C; vm_compute in C; discriminate C).
  assert (HC : TaroCommitment addr1 = Some (serializeCompressed keyB))
    by reflexivity.
  assert (HV : valid_status (int16 0) = true) by (vm_compute; reflexivity).
  assert (HK : exists kr, In kr (internal_keys store2) /\
                 raw_key kr = SerializeCompressed (InternalKey (addr_Taro addr1))).
  { eexists. split; [right; left; reflexivity|vm_compute; reflexivity]. }
  assert (VK : valid_key (InternalKey (addr_Taro addr1)))
    by (vm_compute; reflexivity).
  destruct (GetOrCreateEvent_creates (ext:=ext) (pkgs:=pkgs) time3 0 addr1
              walletTx1 1 (Some sibling1) store2 (tx_raw tx1)
              (tx_hash tx1 ++ [x00]) (mkOutputDetail 900 false)
              (serializeCompressed keyB) HS HO HI HX HL HB HC HV K HK VK
              store2_events_constraints N)
    as [ev [s1 [E [H1 [_ [_ [H4 [_ [H6 [H7 [H8 [_ [H10 _]]]]]]]]]]]]].
  exists ev, s1. repeat split; assumption.
Defined.

(** X14 on the example: the one event of [store3]. *)
Lemma QueryAddrEvents_result_witness :
  fst (QueryAddrEvents tt (mkEventQueryParams None None None) store3) =
    Ok [event1] /\
  StronglySorted lt (map ev_ID [event1]) /\
  In 1%nat (map ev_ID [event1]).
Proof.
  assert (H : fst (QueryAddrEvents tt (mkEventQueryParams None None None) store3) =
              Ok [event1]) by (vm_compute; reflexivity).
  split; [exact H|].
  destruct (QueryAddrEvents_result (ext:=ext) tt
              (mkEventQueryParams None None None) store3 [event1] H)
    as [S [_ C]].
  split; [exact S|].
  eapply (C 1%nat); try (vm_compute; reflexivity).
  - vm_compute. split; discriminate.
  - intros k E. vm_compute in E. discriminate E.
Defined.

(** X15 on the example: a range without a status, and the key of the
    tests that is the key of no address. *)
Lemma QueryAddrEvents_no_match_witness :
  QueryAddrEvents tt (mkEventQueryParams None (Some 2) (Some 1)) store3 =
    (Ok [], store3) /\
  QueryAddrEvents tt (mkEventQueryParams (Some [x63; x63]) None None) store3 =
    (Ok [], store3).
Proof.
  split.
  - apply (proj1 (QueryAddrEvents_no_match (ext:=ext) tt
                    (mkEventQueryParams None (Some 2) (Some 1)) store3)).
    vm_compute. reflexivity.
  - apply (proj2 (QueryAddrEvents_no_match (ext:=ext) tt
                    (mkEventQueryParams (Some [x63; x63]) None None) store3)
             [x63; x63]).
    + reflexivity.
    + vm_compute. reflexivity.
    + intros a I. vm_compute in I. destruct I as [<-|[<-|[]]]; discriminate.
Defined.

(** X13 on the example: an unconfirmed transaction with two block hashes,
    and a confirmed one whose block hash does not parse. *)
Lemma GetOrCreateEvent_block_hash_witness :
  GetOrCreateEvent time3 0 addr1 (mkTransaction tx1 0 "" 0 (tx_OutputDetails walletTx1))
    1 None store2 =
  GetOrCreateEvent time3 0 addr1 (mkTransaction tx1 0 "zz" 7 (tx_OutputDetails walletTx1))
    1 None store2 /\
  exists e,
    GetOrCreateEvent time3 0 addr1
      (mkTransaction tx1 3 "zz" 650000 (tx_OutputDetails walletTx1)) 1 None store2 =
    (Err (Errorf "error parsing block hash" e), store2).
Proof.
  split.
  - apply (proj1 (GetOrCreateEvent_block_hash (ext:=ext) time3 0 addr1 tx1 0
                    "" 0 (tx_OutputDetails walletTx1) 1 None store2)).
    lia.
  - apply (proj2 (GetOrCreateEvent_block_hash (ext:=ext) time3 0 addr1 tx1 3
                    "zz" 650000 (tx_OutputDetails walletTx1) 1 None store2))
      with (txBuf := tx_raw tx1) (opb := tx_hash tx1 ++ [x00]).
    + lia.
    + vm_compute. reflexivity.
    + reflexivity.
    + vm_compute. reflexivity.
    + vm_compute. split; [discriminate|reflexivity].
Defined.

(** X17 on the example: [event1], completed twice. *)
Lemma CompleteEvent_twice_witness :
  CompleteEvent event1 2 anchor1 store3p = (Ok tt, store5) /\
  CompleteEvent event1 2 anchor1 store5 = (Ok tt, store5).
Proof.
  assert (H : CompleteEvent event1 2 anchor1 store3p = (Ok tt, store5))
    by (vm_compute; reflexivity).
  split; [exact H|].
  apply (CompleteEvent_twice (ext:=ext) event1 2 anchor1 store3p store5 H).
Defined.

(** X9 on the example: the book with the event of [addr1]. *)
Lemma events_constraints_kept_witness :
  events_constraints store2 /\
  events_constraints store3 /\
  events_constraints (snd (CompleteEvent event1 2 anchor1 store3)).
Proof.
  assert (H3 : events_constraints store3).
  { apply (proj1 (proj2 (proj2 (events_constraints_kept (ext:=ext) store2
                                  store2_events_constraints)))
             time3 0 addr1 walletTx1 1 (Some sibling1)). }
  split; [exact store2_events_constraints|]. split; [exact H3|].
  apply (proj2 (proj2 (proj2 (events_constraints_kept (ext:=ext) store3 H3)))).
Defined.

(** X12 on the example: [addr1] is inserted, then its event is created. *)
Lemma InsertAddrs_then_GetOrCreateEvent_witness :
  InsertAddrs [addr1; addr2] empty_store = (Ok tt, store2) /\
  exists ev s2,
    GetOrCreateEvent time3 0 addr1 walletTx1 1 (Some sibling1) store2 =
      (Ok ev, s2) /\
    ev_ID ev = next_id (addr_events empty_store) /\
    ev_Addr ev = addr1 /\
    ev_Amt ev = 900.
Proof.
  assert (H : InsertAddrs [addr1; addr2] empty_store = (Ok tt, store2))
    by (vm_compute; reflexivity).
  split; [exact H|].
  assert (HE : InternalKey (addr_Taro addr1) = kd_PubKey (InternalKeyDesc addr1))
    by reflexivity.
  assert (VK : valid_key (InternalKey (addr_Taro addr1)))
    by (vm_compute; reflexivity).
  assert (HW : events_constraints empty_store) by constructor.
  assert (HS : Serialize (tx_Tx walletTx1) = Some (tx_raw tx1)) by reflexivity.
  assert (HO : encodeOutpoint (mkOutPoint (TxHash (tx_Tx walletTx1)) 1) =
               Some (tx_hash tx1 ++ [x00])) by (vm_compute; reflexivity).
  assert (HI : index (tx_OutputDetails walletTx1) 1 =
               Some (mkOutputDetail 900 false)) by reflexivity.
  assert (HX : 1 < 2 ^ 32) by reflexivity.
  assert (HL : len (TxHash (tx_Tx walletTx1)) = 32) by (vm_compute; reflexivity).
  assert (HB : 0 < tx_Confirmations walletTx1 ->
               chainhash_NewHashFromStr (tx_BlockHash walletTx1) <> None)
    by (intros C; vm_compute in C; discriminate C).
  assert (HC : TaroCommitment addr1 = Some (serializeCompressed keyB))
    by reflexivity.
  assert (HV : valid_status (int16 0) = true) by (vm_compute; reflexivity).
  destruct (InsertAddrs_then_GetOrCreateEvent (ext:=ext) (pkgs:=pkgs)
              [addr1; addr2] empty_store store2 addr1 time3 0 walletTx1 1
              (Some sibling1) (tx_raw tx1) (tx_hash tx1 ++ [x00])
              (mkOutputDetail 900 false) (serializeCompressed keyB) H
              (or_introl eq_refl) HE VK HW HS HO HI HX HL HB HC HV)
    as [ev [s2 [E [H1 [_ [H3 [_ [_ [_ [H7 _]]]]]]]]]].
  exists ev, s2. repeat split; assumption.
Defined.

(** X16 on the example: the event of [addr1] is created and then found. *)
Lemma GetOrCreateEvent_then_QueryAddrEvents_witness :
  created = (Ok event1, store3) /\
  fst (QueryAddrEvents tt (mkEventQueryParams None None None) store3) =
    Ok [event1] /\
  exists e,
    In e [event1] /\
    e = mkEvent (ev_ID event1) (ev_CreationTime event1) (ev_Addr e)
          (ev_Status event1) (ev_Outpoint event1) (ev_Amt event1)
          (ev_InternalKey event1) (ev_TapscriptSibling event1)
          (ev_ConfirmationHeight event1) (ev_HasProof event1).
Proof.
  assert (G : created = (Ok event1, store3)) by (vm_compute; reflexivity).
  assert (H : fst (QueryAddrEvents tt (mkEventQueryParams None None None) store3) =
              Ok [event1]) by (vm_compute; reflexivity).
  split; [exact G|]. split; [exact H|].
  destruct (GetOrCreateEvent_then_QueryAddrEvents (ext:=ext) time3 0 addr1
              walletTx1 1 (Some sibling1) store2 event1 store3 tt
              (mkEventQueryParams None None None) [event1] G H)
    as [e [I [_ [_ E]]]].
  - vm_compute. split; discriminate.
  - intros k K. vm_compute in K. discriminate K.
  - exists e. split; [exact I|exact E].
Defined.

(** X5 on the example. *)
Lemma read_address_fields_witness :
  fst (AddrByTaprootOutput tt keyA store2) = Ok addr1 /\
  TaprootOutputKey addr1 = keyA /\
  Taro_ChainParams (addr_Taro addr1) = tt.
Proof.
  assert (H : fst (AddrByTaprootOutput tt keyA store2) = Ok addr1)
    by (vm_compute; reflexivity).
  split; [exact H|].
  apply (proj1 (read_address_fields (ext:=ext) (pkgs:=pkgs) tt store2) keyA addr1 H).
Defined.

(** X18 on the example: [keyC], an odd key, written and read back. *)
Lemma compressedPubKey_round_trip_witness :
  compressed_key keyC /\
  compressedPubKeyEncoder [x21] (PublicKeyPtr (Some keyC)) =
    (Ok tt, [x21] ++ SerializeCompressed keyC) /\
  compressedPubKeyDecoder emptyKey (SerializeCompressed keyC ++ [x07])
    (PublicKeyPtr (Some emptyKey)) 33 =
    (Ok (PublicKeyPtr (Some keyC)), [x07]).
Proof.
  assert (C : compressed_key keyC) by (vm_compute; auto).
  split; [exact C|].
  apply (compressedPubKey_round_trip (ext:=ext) emptyKey keyC [x21] [x07]
           emptyKey 33 C).
Defined.

(** X19 on the example: the bytes of [keyA], read and written back. *)
Lemma compressedPubKey_decode_encode_witness :
  compressedPubKeyDecoder emptyKey (SerializeCompressed keyA ++ [x07])
    (PublicKeyPtr (Some emptyKey)) 33 =
    (Ok (PublicKeyPtr (Some keyA)), [x07]) /\
  compressedPubKeyEncoder [] (PublicKeyPtr (Some keyA)) =
    (Ok tt, [] ++ SerializeCompressed keyA).
Proof.
  assert (D : compressedPubKeyDecoder emptyKey (SerializeCompressed keyA ++ [x07])
                (PublicKeyPtr (Some emptyKey)) 33 =
              (Ok (PublicKeyPtr (Some keyA)), [x07]))
    by (vm_compute; reflexivity).
  split; [exact D|].
  apply (compressedPubKey_decode_encode (ext:=ext) emptyKey
           (serializeCompressed keyA) [x07] emptyKey 33 keyA [x07] []
           example_compressed_canonical);
    [vm_compute; reflexivity|vm_compute; reflexivity|exact D].
Defined.

(** X20 on the example: two bytes are not a key; 33 zero bytes are the key
    without coordinates. *)
Lemma compressedPubKeyDecoder_edges_witness :
  compressedPubKeyDecoder emptyKey [x02; x11] (PublicKeyPtr (Some keyA)) 33 =
    (Err io_ErrUnexpectedEOF, []) /\
  compressedPubKeyDecoder emptyKey (repeat x00 33 ++ [x07])
    (PublicKeyPtr (Some keyA)) 33 =
    (Ok (PublicKeyPtr (Some emptyKey)), [x07]).
Proof.
  split.
  - apply (proj1 (compressedPubKeyDecoder_edges (ext:=ext) emptyKey
                    [x02; x11] (Some keyA) 33)).
    simpl. lia.
  - apply (proj1 (proj2 (compressedPubKeyDecoder_edges (ext:=ext) emptyKey
                           (repeat x00 33 ++ [x07]) (Some keyA) 33))
             [x07] keyA); reflexivity.
Defined.

(** X21 on the example. *)
Lemma compressedPubKeyEncoder_writes_33_witness :
  exists b,
    compressedPubKeyEncoder [x21] (PublicKeyPtr (Some keyA)) =
      (Ok tt, [x21] ++ b) /\
    List.length b = 33%nat.
Proof.
  destruct (proj1 (compressedPubKeyEncoder_writes_33 (ext:=ext) [x21]) keyA)
    as [b [E [L _]]].
  exists b. split; [exact E|exact L].
Defined.

(** X22 on the example: [keyC] is odd, the key of the tests is even. *)
Lemma SchnorrKey_normal_form_witness :
  SchnorrKey keyC = Ok (mkKey (key_x keyC) false) /\
  schnorr_SerializePubKey (mkKey (key_x keyC) false) =
    schnorr_SerializePubKey keyC /\
  SchnorrKey (mkKey (key_x keyC) false) = Ok (mkKey (key_x keyC) false).
Proof.
  assert (H : SchnorrKey keyC = Ok (mkKey (key_x keyC) false))
    by (vm_compute; reflexivity).
  split; [exact H|].
  destruct (SchnorrKey_normal_form (ext:=ext) keyC _ example_xonly_canonical H)
    as [S [F _]].
  split; [exact S|exact F].
Defined.

(** X23 on the example: a root key is made for [rootKeyID1], found again,
    and made only once. *)
Lemma RootKey_then_Get_witness :
  RootKeyStore_RootKey (Ok rootKeyID1) entropy1 [] =
    (Ok (repeat x5a 32, rootKeyID1),
     ([x01; x02; x03], [mkMacaroonRootKey rootKeyID1 (repeat x5a 32)])) /\
  RootKeyStore_Get rootKeyID1 [mkMacaroonRootKey rootKeyID1 (repeat x5a 32)] =
    Ok (repeat x5a 32) /\
  RootKeyStore_RootKey (Ok rootKeyID1) [x01; x02; x03]
    [mkMacaroonRootKey rootKeyID1 (repeat x5a 32)] =
    (Ok (repeat x5a 32, rootKeyID1),
     ([x01; x02; x03], [mkMacaroonRootKey rootKeyID1 (repeat x5a 32)])).
Proof.
  assert (H : RootKeyStore_RootKey (Ok rootKeyID1) entropy1 [] =
              (Ok (repeat x5a 32, rootKeyID1),
               ([x01; x02; x03], [mkMacaroonRootKey rootKeyID1 (repeat x5a 32)])))
    by (vm_compute; reflexivity).
  split; [exact H|].
  destruct (RootKey_then_Get (ks:=memKeyStore) _ _ _ _ _ _ _
              memKeyStore_keeps_root_keys H) as [_ [G S]].
  split; [exact G|apply S].
Defined.

(** X24 on the example: no id in the context, and too few random bytes. *)
Lemma RootKey_outcomes_witness :
  RootKeyStore_RootKey (Err (ExternalError "no root key id")) entropy1 [] =
    (Err (ExternalError "no root key id"), (entropy1, [])) /\
  RootKeyStore_Get rootKeyID1 [] = Err sql_ErrNoRows /\
  exists e, RootKeyStore_RootKey (Ok rootKeyID1) [x01; x02] [] = (Err e, ([], [])).
Proof.
  split.
  - apply (proj1 (RootKey_outcomes (ks:=memKeyStore) entropy1 [])).
  - destruct (proj2 (proj2 (proj2 (RootKey_outcomes (ks:=memKeyStore)
                                     [x01; x02] []))) rootKeyID1)
      as [G [S _]]; [reflexivity|].
    split; [exact G|]. apply S. simpl. lia.
Defined.
